(** * Footballsimulator: the game simulation engines of [simulation.ts]

    A shallow embedding of the two engines found in
    [src/components/simulation.ts] (the per-game projection engine and the
    drive-by-drive engine, also shipped compiled as [simulation.js]) and of
    the seeded random generator they share.

    Numbers.  A JavaScript [number] is modelled by [number]: the three
    special values [NaN], [+Infinity], [-Infinity] and the finite values,
    carried as rationals; [-0] is identified with [0].  Every guard of the
    source ([Number.isNaN], [Number.isFinite], [!(x > 0)], [===]) is
    modelled with the semantics it has on the special values.

    Arithmetic.  The generator and the drive engine work on integers far
    below 2^53 and on one ratio that is only compared with random values;
    their operations ([js_add], [js_mul], ...) are exact.  The projection
    engine adds and scales statistics of any magnitude, so its operations
    ([add64], [mul64], ...) round as binary64 does: to the nearest
    representable value, ties to the even mantissa, with gradual underflow
    and with overflow to an infinity ([round64]).

    Effects.  The only mutable objects shared between the functions are the
    generator closure returned by [createRandomGenerator] (its captured
    [state]) and the hidden state of the platform's [Math.random].  Both
    live in a [Heap] threaded by a small state-and-exception monad; a ghost
    counter records how many times [rng()] was called.

    Loops.  [while] and [for] loops take fuel; running out of fuel is the
    outcome [OutOfFuel], distinct from a thrown error. *)

From Stdlib Require Import ZArith QArith Qround Qreduction Qcanon List String Bool Lia Lqa.
From Stdlib Require SpecFloat.
Import ListNotations.

Local Open Scope Z_scope.

(* ------------------------------------------------------------------ *)
(** ** JavaScript numbers *)

Inductive number : Type :=
| NaN
| PInf
| NInf
| Fin (q : Q).

(** Finite results are kept in lowest terms, so that equal finite results
    are syntactically equal. *)
Definition fin (q : Q) : number := Fin (Qred q).

Arguments fin : simpl never.

Definition of_Z (z : Z) : number := Fin (inject_Z z).

Declare Scope js_scope.
Delimit Scope js_scope with js.
Bind Scope js_scope with number.

(** The sign of a rational: [-1], [0] or [1]. *)
Definition Qsgn (q : Q) : Z := Z.sgn (Qnum q).

Definition signed_inf (s : Z) : number :=
  match s with
  | Z0 => NaN
  | Zpos _ => PInf
  | Zneg _ => NInf
  end.

Definition js_neg (a : number) : number :=
  match a with
  | NaN => NaN
  | PInf => NInf
  | NInf => PInf
  | Fin q => fin (- q)
  end.

(** [a + b] *)
Definition js_add (a b : number) : number :=
  match a, b with
  | NaN, _ | _, NaN => NaN
  | PInf, NInf | NInf, PInf => NaN
  | PInf, _ | _, PInf => PInf
  | NInf, _ | _, NInf => NInf
  | Fin x, Fin y => fin (x + y)
  end.

(** [a - b] *)
Definition js_sub (a b : number) : number := js_add a (js_neg b).

(** [a * b] *)
Definition js_mul (a b : number) : number :=
  match a, b with
  | NaN, _ | _, NaN => NaN
  | Fin x, Fin y => fin (x * y)
  | PInf, PInf | NInf, NInf => PInf
  | PInf, NInf | NInf, PInf => NInf
  | PInf, Fin y | Fin y, PInf => signed_inf (Qsgn y)
  | NInf, Fin y | Fin y, NInf => signed_inf (- Qsgn y)
  end.

(** [a / b] *)
Definition js_div (a b : number) : number :=
  match a, b with
  | NaN, _ | _, NaN => NaN
  | Fin x, Fin y =>
      if Qeq_bool y 0 then signed_inf (Qsgn x) else fin (x / y)
  | Fin _, PInf | Fin _, NInf => fin 0
  | PInf, Fin y => if Qeq_bool y 0 then PInf else signed_inf (Qsgn y)
  | NInf, Fin y => if Qeq_bool y 0 then NInf else signed_inf (- Qsgn y)
  | _, _ => NaN
  end.

(** Truncation of a rational towards zero. *)
Definition Qtrunc (q : Q) : Z := Z.quot (Qnum q) (Zpos (Qden q)).

(** [a % b]: the remainder has the sign of the dividend. *)
Definition js_rem (a b : number) : number :=
  match a, b with
  | Fin x, Fin y =>
      if Qeq_bool y 0 then NaN
      else fin (x - y * inject_Z (Qtrunc (x / y)))
  | Fin x, PInf | Fin x, NInf => Fin x
  | _, _ => NaN
  end.

(** [a < b] *)
Definition js_lt (a b : number) : bool :=
  match a, b with
  | NaN, _ | _, NaN => false
  | _, NInf => false
  | NInf, _ => true
  | PInf, _ => false
  | Fin _, PInf => true
  | Fin x, Fin y => negb (Qle_bool y x)
  end.

(** [a <= b] *)
Definition js_le (a b : number) : bool :=
  match a, b with
  | NaN, _ | _, NaN => false
  | NInf, _ => true
  | _, PInf => true
  | PInf, _ => false
  | Fin _, NInf => false
  | Fin x, Fin y => Qle_bool x y
  end.

(** [a > b] and [a >= b] *)
Definition js_gt (a b : number) : bool := js_lt b a.
Definition js_ge (a b : number) : bool := js_le b a.

(** [a === b] on numbers *)
Definition js_eq (a b : number) : bool :=
  match a, b with
  | PInf, PInf | NInf, NInf => true
  | Fin x, Fin y => Qeq_bool x y
  | _, _ => false
  end.

Infix "+" := js_add : js_scope.
Infix "-" := js_sub : js_scope.
Infix "*" := js_mul : js_scope.
Infix "/" := js_div : js_scope.
Infix "mod" := js_rem : js_scope.
Infix "<?" := js_lt : js_scope.
Infix "<=?" := js_le : js_scope.
Infix ">?" := js_gt : js_scope.
Infix ">=?" := js_ge : js_scope.
Infix "===" := js_eq (at level 70, no associativity) : js_scope.

Definition Number_isNaN (a : number) : bool :=
  match a with NaN => true | _ => false end.

Definition Number_isFinite (a : number) : bool :=
  match a with Fin _ => true | _ => false end.

(** [Math.max(a, b)] and [Math.min(a, b)]: [NaN] if either argument is. *)
Definition Math_max (a b : number) : number :=
  match a, b with
  | NaN, _ | _, NaN => NaN
  | _, _ => if js_lt a b then b else a
  end.

Definition Math_min (a b : number) : number :=
  match a, b with
  | NaN, _ | _, NaN => NaN
  | _, _ => if js_lt b a then b else a
  end.

Definition Math_floor (a : number) : number :=
  match a with
  | Fin q => of_Z (Qfloor q)
  | _ => a
  end.

(** [Math.round]: the nearest integer, halves rounded towards [+Infinity]. *)
Definition Math_round (a : number) : number :=
  match a with
  | Fin q => of_Z (Qfloor (q + (1 # 2)))
  | _ => a
  end.

(** [clamp], defined identically in both engines. *)
Definition clamp (value min max : number) : number :=
  Math_min (Math_max value min) max.

(* ------------------------------------------------------------------ *)
(** ** Binary64 arithmetic *)

(** [2^e] for any integer [e]. *)
Definition pow2 (e : Z) : Q :=
  if 0 <=? e then inject_Z (2 ^ e) else 1 # Z.to_pos (2 ^ (- e)).

(** The integer nearest to [x], a tie going to the even one. *)
Definition Qrne (x : Q) : Z :=
  let f := Qfloor x in
  match (x - inject_Z f ?= 1 # 2)%Q with
  | Lt => f
  | Gt => f + 1
  | Eq => if Z.even f then f else f + 1
  end.

(** For [q > 0], the exponent [e] with [2^e <= q < 2^(e+1)]. *)
Definition Qlog2 (q : Q) : Z :=
  let e0 := Z.log2 (Qnum q) - Z.log2 (Zpos (Qden q)) in
  if Qle_bool (pow2 e0) q then e0 else e0 - 1.

(** The binary64 value of a positive rational: a mantissa of 53 bits at
    the exponent of [q], of fewer bits below [2^-1022], and [+Infinity]
    from [2^1024] on. *)
Definition round64_pos (q : Q) : number :=
  let e := Z.max (Qlog2 q) (-1022) in
  let m := Qrne (q * pow2 (52 - e)) in
  if (1024 <=? e) || ((e =? 1023) && (m =? 2 ^ 53)) then PInf
  else Fin (Qred (inject_Z m * pow2 (e - 52))).

Definition round64 (q : Q) : number :=
  let q := Qred q in
  match Qnum q with
  | Z0 => Fin 0
  | Zpos _ => round64_pos q
  | Zneg _ =>
      match round64_pos (- q) with
      | Fin v => Fin (Qred (- v))
      | PInf => NInf
      | other => other
      end
  end.

Arguments round64 : simpl never.

(** [a + b], [a - b], [a * b] and [a / b] in binary64. *)
Definition add64 (a b : number) : number :=
  match a, b with
  | NaN, _ | _, NaN => NaN
  | PInf, NInf | NInf, PInf => NaN
  | PInf, _ | _, PInf => PInf
  | NInf, _ | _, NInf => NInf
  | Fin x, Fin y => round64 (x + y)
  end.

Definition sub64 (a b : number) : number := add64 a (js_neg b).

Definition mul64 (a b : number) : number :=
  match a, b with
  | NaN, _ | _, NaN => NaN
  | Fin x, Fin y => round64 (x * y)
  | PInf, PInf | NInf, NInf => PInf
  | PInf, NInf | NInf, PInf => NInf
  | PInf, Fin y | Fin y, PInf => signed_inf (Qsgn y)
  | NInf, Fin y | Fin y, NInf => signed_inf (- Qsgn y)
  end.

Definition div64 (a b : number) : number :=
  match a, b with
  | NaN, _ | _, NaN => NaN
  | Fin x, Fin y =>
      if Qeq_bool y 0 then signed_inf (Qsgn x) else round64 (x / y)
  | Fin _, PInf | Fin _, NInf => Fin 0
  | PInf, Fin y => if Qeq_bool y 0 then PInf else signed_inf (Qsgn y)
  | NInf, Fin y => if Qeq_bool y 0 then NInf else signed_inf (- Qsgn y)
  | _, _ => NaN
  end.

Infix "+!" := add64 (at level 50, left associativity) : js_scope.
Infix "-!" := sub64 (at level 50, left associativity) : js_scope.
Infix "*!" := mul64 (at level 40, left associativity) : js_scope.
Infix "/!" := div64 (at level 40, left associativity) : js_scope.

(** *** Agreement with the IEEE 754 specification

    [SpecFloat] of the Standard Library specifies the binary64 operations
    on mantissa and exponent pairs.  A [spec_float] is read as a [number]
    and the operations above are compared with it on operands that
    exercise ties, absorbed terms, subnormal results and overflow
    ([binary64_samples_agree] below). *)

Definition number_of_SF (f : SpecFloat.spec_float) : number :=
  match f with
  | SpecFloat.S754_zero _ => Fin 0
  | SpecFloat.S754_infinity s => if s then NInf else PInf
  | SpecFloat.S754_nan => NaN
  | SpecFloat.S754_finite s m e =>
      Fin (Qred (inject_Z (if s then Z.neg m else Z.pos m) * pow2 e))
  end.

Definition binary64_samples : list (SpecFloat.spec_float * SpecFloat.spec_float) :=
  [
    (SpecFloat.S754_finite false 4503599627370496 (2),
     SpecFloat.S754_finite false 4503599627370496 (-52));
    (SpecFloat.S754_finite false 4503599627370496 (2),
     SpecFloat.S754_finite false 6755399441055744 (-51));
    (SpecFloat.S754_finite false 4503599627370496 (971),
     SpecFloat.S754_finite false 4503599627370496 (971));
    (SpecFloat.S754_finite false 9007199254740991 (0),
     SpecFloat.S754_finite false 4503599627370496 (-52));
    (SpecFloat.S754_finite false 7205759403792794 (-56),
     SpecFloat.S754_finite false 7205759403792794 (-55));
    (SpecFloat.S754_finite false 4503599627370496 (-52),
     SpecFloat.S754_finite false 6755399441055744 (-51));
    (SpecFloat.S754_finite false 1 (-1074),
     SpecFloat.S754_finite false 4503599627370496 (-53));
    (SpecFloat.S754_finite false 2024 (-1074),
     SpecFloat.S754_finite false 6755399441055744 (-51));
    (SpecFloat.S754_finite false 4503599627370496 (-1074),
     SpecFloat.S754_finite false 6755399441055744 (-53));
    (SpecFloat.S754_finite false 9007199254740991 (971),
     SpecFloat.S754_finite false 4512985939662074 (918));
    (SpecFloat.S754_finite false 9007199254740991 (971),
     SpecFloat.S754_finite false 4503599627370496 (-51));
    (SpecFloat.S754_finite false 4503599627370496 (-52),
     SpecFloat.S754_finite false 4503599627370496 (-105));
    (SpecFloat.S754_finite true 4503599627370496 (-52),
     SpecFloat.S754_finite false 4503599627370496 (-106));
    (SpecFloat.S754_finite true 5629499534213120 (-51),
     SpecFloat.S754_finite false 7205759403792794 (-53));
    (SpecFloat.S754_finite false 6924284427082138 (-48),
     SpecFloat.S754_finite false 6108006994621235 (-48));
    (SpecFloat.S754_finite false 8285044862877696 (-26),
     SpecFloat.S754_finite false 4835703278458517 (-82))
  ].

Definition agrees_on (x y : SpecFloat.spec_float) : Prop :=
  number_of_SF (SpecFloat.SFadd 53 1024 x y) = add64 (number_of_SF x) (number_of_SF y)
  /\ number_of_SF (SpecFloat.SFsub 53 1024 x y) = sub64 (number_of_SF x) (number_of_SF y)
  /\ number_of_SF (SpecFloat.SFmul 53 1024 x y) = mul64 (number_of_SF x) (number_of_SF y)
  /\ number_of_SF (SpecFloat.SFdiv 53 1024 x y) = div64 (number_of_SF x) (number_of_SF y).

(* ------------------------------------------------------------------ *)
(** ** The heap, and the monad of a call *)

(** [type RandomFn = () => number].  The two closures the program ever
    builds: the platform's [Math.random], and the generator closure of
    [createRandomGenerator] with the current value of its captured
    variable [state]. *)
Inductive RandomFn : Type :=
| MathRandom
| Lcg (state : number).

Record Heap : Type := mkHeap {
  rng_cell : RandomFn;   (* the generator the running call holds in [rng] *)
  platform_pos : nat;    (* how many values [Math.random] has handed out *)
  draws : nat            (* ghost: how many times [rng()] has been called *)
}.

Inductive outcome (A : Type) : Type :=
| Returned (a : A)
| Thrown (msg : string)
| OutOfFuel.

Arguments Returned {A} a.
Arguments Thrown {A} msg.
Arguments OutOfFuel {A}.

Definition M (A : Type) : Type := Heap -> outcome A * Heap.

Definition ret {A} (a : A) : M A := fun h => (Returned a, h).

Definition throw {A} (msg : string) : M A := fun h => (Thrown msg, h).

Definition bind {A B} (m : M A) (k : A -> M B) : M B :=
  fun h =>
    match m h with
    | (Returned a, h') => k a h'
    | (Thrown msg, h') => (Thrown msg, h')
    | (OutOfFuel, h') => (OutOfFuel, h')
    end.

Notation "x <- m ;; k" := (bind m (fun x => k))
  (at level 61, m at next level, right associativity).
Notation "m ;;; k" := (bind m (fun _ => k))
  (at level 61, right associativity).

(** [while (cond(s)) s = body(s)] on fuel. *)
Fixpoint while {S : Type} (fuel : nat) (cond : S -> bool) (body : S -> M S)
    (s : S) : M S :=
  if cond s then
    match fuel with
    | O => fun h => (OutOfFuel, h)
    | Datatypes.S fuel' => bind (body s) (while fuel' cond body)
    end
  else ret s.

(* ------------------------------------------------------------------ *)
(** ** The seeded generator *)

Definition LCG_MODULUS : Z := 2147483647.
Definition LCG_MULTIPLIER : Z := 16807.

(** The new value of the closure's [state] and the value one call returns:
    [state = (state * 16807) % 2147483647; return (state - 1) / 2147483646]. *)
Definition lcg_next (state : number) : number :=
  ((state * of_Z 16807) mod of_Z 2147483647)%js.

Definition lcg_output (state : number) : number :=
  ((state - of_Z 1) / of_Z 2147483646)%js.

Definition createRandomGenerator (seed : option number) : RandomFn :=
  match seed with
  | None => MathRandom                       (* typeof seed !== "number" *)
  | Some seed =>
      if Number_isNaN seed then MathRandom
      else
        let state := (Math_floor seed mod of_Z 2147483647)%js in
        let state :=
          if (state <=? of_Z 0)%js then (state + of_Z 2147483646)%js
          else state in
        Lcg state
  end.

Section Platform.

(** The stream of values the platform's [Math.random] hands out. *)
Variable Math_random : nat -> number.

(** One call [rng()]: the value returned and the heap it leaves. *)
Definition rng_step (h : Heap) : number * Heap :=
  match rng_cell h with
  | MathRandom =>
      (Math_random (platform_pos h),
       mkHeap MathRandom (S (platform_pos h)) (S (draws h)))
  | Lcg state =>
      let state' := lcg_next state in
      (lcg_output state', mkHeap (Lcg state') (platform_pos h) (S (draws h)))
  end.

Definition rng_call : M number :=
  fun h => let (x, h') := rng_step h in (Returned x, h').

(** The heap after [n] calls, and the value the call number [n] (counted
    from 0) returns. *)
Fixpoint after_draws (n : nat) (h : Heap) : Heap :=
  match n with
  | O => h
  | S n' => after_draws n' (snd (rng_step h))
  end.

Definition nth_draw (n : nat) (h : Heap) : number :=
  fst (rng_step (after_draws n h)).

(** The heap a call to [simulateGame] starts from: [rng] holds the fresh
    generator, the platform source stands where the caller left it. *)
Definition initial_heap (seed : option number) (pos : nat) : Heap :=
  mkHeap (createRandomGenerator seed) pos 0.

End Platform.

(* ------------------------------------------------------------------ *)
(** ** The drive engine *)

Module Drive.

Record TeamStats : Type := mkTeamStats {
  offPtsDrive : number;
  defPtsDrive : number
}.

Inductive DriveResult : Type := TD | FG | NONE.

Record DriveOutcome : Type := mkDriveOutcome {
  result : DriveResult;
  points : Z
}.

Record SimulationSummary : Type := mkSummary {
  homeTDs : Z;
  homeFGs : Z;
  awayTDs : Z;
  awayFGs : Z
}.

Record SimulationResult : Type := mkResult {
  homeScore : Z;
  awayScore : Z;
  homeDrives : list DriveOutcome;
  awayDrives : list DriveOutcome;
  summary : SimulationSummary
}.

Record OvertimeConfig : Type := mkOvertimeConfig {
  enabled : bool;
  maxRounds : option number
}.

Record GameConfig : Type := mkGameConfig {
  drivesPerTeam : option number;
  allowTies : option bool;
  overtime : option OvertimeConfig;
  seed : option number
}.

Definition MIN_POINTS_PER_DRIVE : number := Fin (1 # 5).
Definition MAX_POINTS_PER_DRIVE : number := of_Z 4.
Definition MAX_SCORING_PROBABILITY : number := Fin (17 # 20).
Definition BASE_SCORING_MULTIPLIER : number := Fin (2 # 5).
Definition DEFAULT_DRIVES_PER_TEAM : number := of_Z 12.

Definition validatePointsPerDrive (label : string) (value : number) : M unit :=
  if negb (value >? of_Z 0)%js
  then throw (label ++ " must be greater than 0")%string
  else ret tt.

Definition is_TD (r : DriveResult) : bool :=
  match r with TD => true | _ => false end.
Definition is_FG (r : DriveResult) : bool :=
  match r with FG => true | _ => false end.

Inductive Team : Type := home_team | away_team.

(** The closure [recordOutcome] of [simulateGame]; the variables it
    updates ([homeDrives], [homeScore], [summary], ...) are those the
    function returns, so they are held in a [SimulationResult]. *)
Definition recordOutcome (team : Team) (outcome : DriveOutcome)
    (st : SimulationResult) : SimulationResult :=
  let s := summary st in
  match team with
  | home_team =>
      mkResult (homeScore st + points outcome) (awayScore st)
        (homeDrives st ++ [outcome]) (awayDrives st)
        (mkSummary
           (if is_TD (result outcome) then homeTDs s + 1 else homeTDs s)
           (if is_FG (result outcome) then homeFGs s + 1 else homeFGs s)
           (awayTDs s) (awayFGs s))
  | away_team =>
      mkResult (homeScore st) (awayScore st + points outcome)
        (homeDrives st) (awayDrives st ++ [outcome])
        (mkSummary (homeTDs s) (homeFGs s)
           (if is_TD (result outcome) then awayTDs s + 1 else awayTDs s)
           (if is_FG (result outcome) then awayFGs s + 1 else awayFGs s))
  end.

Definition empty_result : SimulationResult :=
  mkResult 0 0 [] [] (mkSummary 0 0 0 0).

Section WithPlatform.

Variable Math_random : nat -> number.

Definition rng : M number := rng_call Math_random.

Definition scoringProbability (offensePtsDrive defensePtsDrive : number)
  : number :=
  let offense :=
    clamp offensePtsDrive MIN_POINTS_PER_DRIVE MAX_POINTS_PER_DRIVE in
  let defense :=
    clamp defensePtsDrive MIN_POINTS_PER_DRIVE MAX_POINTS_PER_DRIVE in
  let offensiveFactor := (offense / defense)%js in
  clamp (BASE_SCORING_MULTIPLIER * offensiveFactor)%js (of_Z 0)
    MAX_SCORING_PROBABILITY.

Definition simulateDrive (offensePtsDrive defensePtsDrive : number)
  : M DriveOutcome :=
  validatePointsPerDrive "offensePtsDrive" offensePtsDrive ;;;
  validatePointsPerDrive "defensePtsDrive" defensePtsDrive ;;;
  let scoringProbability :=
    scoringProbability offensePtsDrive defensePtsDrive in
  u <- rng ;;
  if (u <? scoringProbability)%js then
    v <- rng ;;
    if (v <? Fin (3 # 4))%js
    then ret (mkDriveOutcome TD 7)
    else ret (mkDriveOutcome FG 3)
  else ret (mkDriveOutcome NONE 0).

(** One home drive followed by one away drive, each recorded: the body
    shared by the regulation loop and the overtime loop. *)
Definition playRound (home away : TeamStats) (st : SimulationResult)
  : M SimulationResult :=
  o1 <- simulateDrive (offPtsDrive home) (defPtsDrive away) ;;
  let st := recordOutcome home_team o1 st in
  o2 <- simulateDrive (offPtsDrive away) (defPtsDrive home) ;;
  ret (recordOutcome away_team o2 st).

(** [for (let i = 0; i < drivesPerTeam; i += 1) { ... }] *)
Definition regulation (fuel : nat) (home away : TeamStats)
    (drivesPerTeam : number) : M (Z * SimulationResult) :=
  while fuel
    (fun s => (of_Z (fst s) <? drivesPerTeam)%js)
    (fun s => st <- playRound home away (snd s) ;; ret (fst s + 1, st))
    (0, empty_result).

Definition resolved_drivesPerTeam (config : GameConfig) : number :=
  match drivesPerTeam config with
  | Some d => d
  | None => DEFAULT_DRIVES_PER_TEAM
  end.

Definition overtimeEnabled (config : GameConfig) : bool :=
  let allowTies := match allowTies config with Some b => b | None => true end in
  negb allowTies &&
  match overtime config with Some oc => enabled oc | None => true end.

Definition maxOvertimeRounds (config : GameConfig) : number :=
  match overtime config with
  | Some (mkOvertimeConfig _ (Some m)) => m
  | _ => if overtimeEnabled config then of_Z 6 else of_Z 0
  end.

(** [while (overtimeEnabled && homeScore === awayScore) {
       if (Number.isFinite(max) && roundsPlayed >= max) break; ... }];
    the [break] is folded into the loop condition.  The state is
    [roundsPlayed] and the accumulated variables. *)
Definition overtimeLoop (fuel : nat) (home away : TeamStats)
    (config : GameConfig) (st : SimulationResult)
  : M (Z * SimulationResult) :=
  let maxOvertimeRounds := maxOvertimeRounds config in
  while fuel
    (fun s =>
       overtimeEnabled config && (homeScore (snd s) =? awayScore (snd s)) &&
       negb (Number_isFinite maxOvertimeRounds &&
             (of_Z (fst s) >=? maxOvertimeRounds)%js))
    (fun s => st <- playRound home away (snd s) ;; ret (fst s + 1, st))
    (0, st).

(** The body of [simulateGame] once [rng] is created; it returns the final
    value of the local [roundsPlayed] next to the result. *)
Definition simulateGame_body (fuel : nat) (home away : TeamStats)
    (config : GameConfig) : M (Z * SimulationResult) :=
  let drivesPerTeam := resolved_drivesPerTeam config in
  if negb (drivesPerTeam >? of_Z 0)%js
  then throw "drivesPerTeam must be greater than 0"
  else
    reg <- regulation fuel home away drivesPerTeam ;;
    overtimeLoop fuel home away config (snd reg).

Definition simulateGame (fuel : nat) (home away : TeamStats)
    (config : GameConfig) : M SimulationResult :=
  r <- simulateGame_body fuel home away config ;; ret (snd r).

(** A call from a caller that left the platform source at [pos]. *)
Definition run_simulateGame (fuel : nat) (home away : TeamStats)
    (config : GameConfig) (pos : nat) : outcome SimulationResult * Heap :=
  simulateGame fuel home away config (initial_heap (seed config) pos).

End WithPlatform.

End Drive.

(* ------------------------------------------------------------------ *)
(** ** The projection engine *)

Module Projection.

Record TeamStats : Type := mkTeamStats {
  pointsPerGame : number;
  pointsAllowedPerGame : number;
  yardsPerPlay : number;
  turnoverRate : number
}.

Record TeamSimulationDetail : Type := mkDetail {
  expectedPoints : number;
  variation : number;
  turnoverPenalty : number;
  rawProjection : number;
  finalPoints : number;
  overtimePoints : list number
}.

Inductive TiebreakPolicy : Type := expected | home.

Record OvertimeResult : Type := mkOvertimeResult {
  rounds : Z;
  homePoints : list number;
  awayPoints : list number;
  tiebreakApplied : option TiebreakPolicy
}.

Record SimulationResult : Type := mkResult {
  homeScore : number;
  awayScore : number;
  homeDetail : TeamSimulationDetail;
  awayDetail : TeamSimulationDetail;
  overtime : option OvertimeResult
}.

Record GameConfig : Type := mkGameConfig {
  seed : option number;
  allowTies : option bool;
  maxOtRounds : option number;
  otScale : option number;
  tiebreakPolicy : option TiebreakPolicy
}.

Definition TURNOVER_PENALTY_FACTOR : number := of_Z 2.
Definition TURNOVER_PENALTY_FACTOR_OT : number :=
  Eval vm_compute in round64 (4 # 5).
Definition DEFAULT_ALLOW_TIES : bool := false.
Definition DEFAULT_MAX_OT_ROUNDS : number := of_Z 3.
Definition DEFAULT_OT_SCALE : number := Fin (1 # 4).
Definition DEFAULT_TIEBREAK_POLICY : TiebreakPolicy := expected.

(** The literal [0.1] of [calculateTeamDetail] and [simulateOtPoints]. *)
Definition ONE_TENTH : number := Eval vm_compute in round64 (1 # 10).

Definition ensureNonNegative (label : string) (value : number) : M unit :=
  if negb (Number_isFinite value) || (value <? of_Z 0)%js
  then throw (label ++ " debe ser un numero mayor o igual a 0.")%string
  else ret tt.

Definition ensurePositive (label : string) (value : number) : M unit :=
  if negb (Number_isFinite value) || (value <=? of_Z 0)%js
  then throw (label ++ " debe ser un numero mayor que 0.")%string
  else ret tt.

(** The local variables of [simulateGame] that the overtime block
    updates. *)
Record Locals : Type := mkLocals {
  l_homeScore : number;
  l_awayScore : number;
  overtimePointsHome : list number;
  overtimePointsAway : list number;
  roundsPlayed : Z;
  l_tiebreakApplied : option TiebreakPolicy
}.

Definition resolved_allowTies (config : GameConfig) : bool :=
  match allowTies config with Some b => b | None => DEFAULT_ALLOW_TIES end.

Definition resolved_maxOtRounds (config : GameConfig) : number :=
  match maxOtRounds config with
  | Some m =>
      if Number_isFinite m then Math_max (of_Z 0) (Math_floor m)
      else DEFAULT_MAX_OT_ROUNDS
  | None => DEFAULT_MAX_OT_ROUNDS
  end.

Definition resolved_otScale (config : GameConfig) : number :=
  match otScale config with Some s => s | None => DEFAULT_OT_SCALE end.

Definition resolved_tiebreakPolicy (config : GameConfig) : TiebreakPolicy :=
  match tiebreakPolicy config with
  | Some p => p
  | None => DEFAULT_TIEBREAK_POLICY
  end.

(** The block [if (homeScore === awayScore) { tiebreakApplied = ...; ... }]
    that follows the overtime loop. *)
Definition applyTiebreak (policy : TiebreakPolicy)
    (homeDetail awayDetail : TeamSimulationDetail) (l : Locals) : Locals :=
  if (l_homeScore l === l_awayScore l)%js then
    let plus_home :=
      mkLocals (l_homeScore l +! of_Z 1)%js (l_awayScore l)
        (overtimePointsHome l) (overtimePointsAway l) (roundsPlayed l)
        (Some policy) in
    let plus_away :=
      mkLocals (l_homeScore l) (l_awayScore l +! of_Z 1)%js
        (overtimePointsHome l) (overtimePointsAway l) (roundsPlayed l)
        (Some policy) in
    match policy with
    | expected =>
        if (expectedPoints homeDetail >? expectedPoints awayDetail)%js
        then plus_home
        else if (expectedPoints awayDetail >? expectedPoints homeDetail)%js
        then plus_away
        else plus_home
    | home => plus_home
    end
  else l.

(** The expression that builds the [overtime] field. *)
Definition overtime_field (l : Locals) : option OvertimeResult :=
  if (0 <? roundsPlayed l) ||
     match l_tiebreakApplied l with Some _ => true | None => false end
  then Some (mkOvertimeResult (roundsPlayed l) (overtimePointsHome l)
               (overtimePointsAway l) (l_tiebreakApplied l))
  else None.

Definition with_overtimePoints (d : TeamSimulationDetail)
    (ot : list number) : TeamSimulationDetail :=
  mkDetail (expectedPoints d) (variation d) (turnoverPenalty d)
    (rawProjection d) (finalPoints d) ot.

Section WithPlatform.

(** The platform: its random source and the transcendental functions of
    [Math], which have no exact rational value and are left abstract. *)
Variable Math_random : nat -> number.
Variables Math_log Math_cos Math_sqrt : number -> number.
Variable Math_PI : number.

Definition rng : M number := rng_call Math_random.

(** [let x = 0; while (x === 0) { x = rng(); }]: the loop that
    [randomGaussian] runs for [u] and then for [v]. *)
Definition resample (fuel : nat) : M number :=
  while fuel (fun x => (x === of_Z 0)%js) (fun _ => rng) (of_Z 0).

Definition randomGaussian (fuel : nat) (mean stdDev : number) : M number :=
  u <- resample fuel ;;
  v <- resample fuel ;;
  let magnitude := Math_sqrt (of_Z (-2) *! Math_log u)%js in
  let angle := (of_Z 2 *! Math_PI *! v)%js in
  let standard := (magnitude *! Math_cos angle)%js in
  ret (mean +! standard *! Math_max stdDev (of_Z 0))%js.

Definition calculateTeamDetail (fuel : nat) (team opponent : TeamStats)
  : M TeamSimulationDetail :=
  ensureNonNegative "pointsPerGame" (pointsPerGame team) ;;;
  ensureNonNegative "pointsAllowedPerGame" (pointsAllowedPerGame team) ;;;
  ensurePositive "yardsPerPlay" (yardsPerPlay team) ;;;
  ensureNonNegative "turnoverRate" (turnoverRate team) ;;;
  ensureNonNegative "pointsAllowedPerGame" (pointsAllowedPerGame opponent) ;;;
  let expected :=
    ((pointsPerGame team +! pointsAllowedPerGame opponent) /! of_Z 2)%js in
  variation <- randomGaussian fuel (of_Z 0)
                 (Math_max ONE_TENTH (yardsPerPlay team *! Fin (1 # 2))%js) ;;
  let turnoverPenalty := (turnoverRate team *! TURNOVER_PENALTY_FACTOR)%js in
  let rawProjection := (expected +! variation -! turnoverPenalty)%js in
  let finalPoints := Math_max (of_Z 0) (Math_round rawProjection) in
  ret (mkDetail expected variation turnoverPenalty rawProjection finalPoints []).

Definition simulateOtPoints (fuel : nat)
    (expectedReg ypp turnoverRate scale : number) : M number :=
  ensureNonNegative "expectedReg" expectedReg ;;;
  ensurePositive "ypp" ypp ;;;
  ensureNonNegative "turnoverRate" turnoverRate ;;;
  let safeScale :=
    clamp (if Number_isFinite scale then scale else DEFAULT_OT_SCALE)
      (of_Z 0) (of_Z 1) in
  let expectedOT := clamp (expectedReg *! safeScale)%js (of_Z 0) (of_Z 12) in
  variation <- randomGaussian fuel (of_Z 0)
                 (Math_max ONE_TENTH (ypp *! Fin (1 # 4))%js) ;;
  let penalty := (turnoverRate *! TURNOVER_PENALTY_FACTOR_OT)%js in
  let projection := (expectedOT +! variation -! penalty)%js in
  ret (Math_max (of_Z 0) (Math_round projection)).

(** One pass through the body of the overtime [while] loop. *)
Definition overtimeRound (fuel : nat) (home away : TeamStats)
    (homeDetail awayDetail : TeamSimulationDetail) (otScale : number)
    (l : Locals) : M Locals :=
  homeOt <- simulateOtPoints fuel (expectedPoints homeDetail)
              (yardsPerPlay home) (turnoverRate home) otScale ;;
  awayOt <- simulateOtPoints fuel (expectedPoints awayDetail)
              (yardsPerPlay away) (turnoverRate away) otScale ;;
  ret (mkLocals (l_homeScore l +! homeOt)%js (l_awayScore l +! awayOt)%js
         (overtimePointsHome l ++ [homeOt]) (overtimePointsAway l ++ [awayOt])
         (roundsPlayed l + 1) (l_tiebreakApplied l)).

(** [while (homeScore === awayScore && roundsPlayed < maxOtRounds) ...] *)
Definition overtimeLoop (fuel : nat) (home away : TeamStats)
    (homeDetail awayDetail : TeamSimulationDetail)
    (otScale maxOtRounds : number) (l : Locals) : M Locals :=
  while fuel
    (fun l => (l_homeScore l === l_awayScore l)%js &&
              (of_Z (roundsPlayed l) <? maxOtRounds)%js)
    (overtimeRound fuel home away homeDetail awayDetail otScale)
    l.

(** The body of [simulateGame] once [rng] is created; it returns the final
    values of the local variables next to the result. *)
Definition simulateGame_body (fuel : nat) (home away : TeamStats)
    (config : GameConfig) : M (Locals * SimulationResult) :=
  let allowTies := resolved_allowTies config in
  let maxOtRounds := resolved_maxOtRounds config in
  let otScale := resolved_otScale config in
  let tiebreakPolicy := resolved_tiebreakPolicy config in
  homeDetail <- calculateTeamDetail fuel home away ;;
  awayDetail <- calculateTeamDetail fuel away home ;;
  let l0 := mkLocals (finalPoints homeDetail) (finalPoints awayDetail)
              [] [] 0 None in
  l <- (if negb allowTies && (l_homeScore l0 === l_awayScore l0)%js then
          l1 <- overtimeLoop fuel home away homeDetail awayDetail
                  otScale maxOtRounds l0 ;;
          ret (applyTiebreak tiebreakPolicy homeDetail awayDetail l1)
        else ret l0) ;;
  ret (l,
       mkResult (l_homeScore l) (l_awayScore l)
         (with_overtimePoints homeDetail (overtimePointsHome l))
         (with_overtimePoints awayDetail (overtimePointsAway l))
         (overtime_field l)).

Definition simulateGame (fuel : nat) (home away : TeamStats)
    (config : GameConfig) : M SimulationResult :=
  r <- simulateGame_body fuel home away config ;; ret (snd r).

(** A call from a caller that left the platform source at [pos]. *)
Definition run_simulateGame (fuel : nat) (home away : TeamStats)
    (config : GameConfig) (pos : nat) : outcome SimulationResult * Heap :=
  simulateGame fuel home away config (initial_heap (seed config) pos).

End WithPlatform.

End Projection.

(* ------------------------------------------------------------------ *)
(** ** Vocabulary of the statements *)

(** *** The generator *)

(** The generator on integers: the state the closure starts from for a
    finite seed, and its state after [n] calls. *)
Definition seed_state (seed : Q) : Z :=
  let r := Z.rem (Qfloor seed) 2147483647 in
  if r <=? 0 then r + 2147483646 else r.

Fixpoint lcg_state (z0 : Z) (n : nat) : Z :=
  match n with
  | O => z0
  | S n' => (lcg_state z0 n' * 16807) mod 2147483647
  end.

(** A heap whose generator is the seeded one. *)
Definition is_lcg (h : Heap) : bool :=
  match rng_cell h with Lcg _ => true | MathRandom => false end.

(** From any point on, one of the next [b] values the generator of [h]
    returns is not zero: what the resampling loops of [randomGaussian]
    need to end. *)
Definition nonzero_within (Math_random : nat -> number) (b : nat) (h : Heap)
  : Prop :=
  forall n, exists j,
    (j < b)%nat /\ (nth_draw Math_random (n + j) h === of_Z 0)%js = false.

(** The seeds that take the seeded path of [createRandomGenerator]. *)
Definition seeded (seed : option number) : bool :=
  match seed with
  | Some s => negb (Number_isNaN s)
  | None => false
  end.

(** Two heaps that hold the same seeded generator, after the same number
    of draws; the platform source may stand anywhere. *)
Definition same_lcg (h1 h2 : Heap) : Prop :=
  rng_cell h1 = rng_cell h2 /\ is_lcg h1 = true /\ draws h1 = draws h2.

(** Two computations that cannot be told apart on such heaps. *)
Definition agree {A : Type} (m1 m2 : M A) : Prop :=
  forall h1 h2, same_lcg h1 h2 ->
    fst (m1 h1) = fst (m2 h2) /\ same_lcg (snd (m1 h1)) (snd (m2 h2)).

(** *** Numbers *)

(** The values that pass [ensureNonNegative] and [ensurePositive]. *)
Definition nonNegative (value : number) : bool :=
  Number_isFinite value && negb (value <? of_Z 0)%js.

Definition positive (value : number) : bool :=
  Number_isFinite value && negb (value <=? of_Z 0)%js.

(** *** The drive engine *)

(** The sum of the points of a list of drives, and the number of its
    drives whose result satisfies [r]. *)
Definition sum_points (drives : list Drive.DriveOutcome) : Z :=
  fold_right (fun o acc => Drive.points o + acc) 0 drives.

Definition count_result (r : Drive.DriveResult -> bool)
    (drives : list Drive.DriveOutcome) : Z :=
  Z.of_nat (List.length (filter (fun o => r (Drive.result o)) drives)).

(** Drive statistics that pass [validatePointsPerDrive]. *)
Definition drive_valid (t : Drive.TeamStats) : bool :=
  (Drive.offPtsDrive t >? of_Z 0)%js && (Drive.defPtsDrive t >? of_Z 0)%js.

(** The inputs the first and the second drive of a round validate. *)
Definition first_drive_valid (home away : Drive.TeamStats) : bool :=
  (Drive.offPtsDrive home >? of_Z 0)%js && (Drive.defPtsDrive away >? of_Z 0)%js.

Definition second_drive_valid (home away : Drive.TeamStats) : bool :=
  (Drive.offPtsDrive away >? of_Z 0)%js && (Drive.defPtsDrive home >? of_Z 0)%js.

(** Where a failing call of the drive engine stops: before any draw, on
    the inputs of the first drive; or on the inputs of the second drive,
    after the first drive drew once or twice. *)
Definition failure_point (home away : Drive.TeamStats) (h0 : Heap)
    (h' : Heap) : Prop :=
  (h' = h0 /\ first_drive_valid home away = false)
  \/ (first_drive_valid home away = true
      /\ second_drive_valid home away = false
      /\ (1 + draws h0 <= draws h' <= 2 + draws h0)%nat).

(** The three outcomes [simulateDrive] builds. *)
Definition outcome_wf (o : Drive.DriveOutcome) : Prop :=
  o = Drive.mkDriveOutcome Drive.TD 7 \/
  o = Drive.mkDriveOutcome Drive.FG 3 \/
  o = Drive.mkDriveOutcome Drive.NONE 0.

(** What [recordOutcome] maintains between the variables of the drive
    engine's [simulateGame]. *)
Definition drive_inv (st : Drive.SimulationResult) : Prop :=
  let s := Drive.summary st in
  Drive.homeScore st = sum_points (Drive.homeDrives st)
  /\ Drive.awayScore st = sum_points (Drive.awayDrives st)
  /\ Drive.homeTDs s = count_result Drive.is_TD (Drive.homeDrives st)
  /\ Drive.homeFGs s = count_result Drive.is_FG (Drive.homeDrives st)
  /\ Drive.awayTDs s = count_result Drive.is_TD (Drive.awayDrives st)
  /\ Drive.awayFGs s = count_result Drive.is_FG (Drive.awayDrives st)
  /\ Drive.homeScore st = 7 * Drive.homeTDs s + 3 * Drive.homeFGs s
  /\ Drive.awayScore st = 7 * Drive.awayTDs s + 3 * Drive.awayFGs s
  /\ 0 <= Drive.homeScore st /\ 0 <= Drive.awayScore st.

(** What the regulation loop maintains on its state [(i, variables)]:
    [i] rounds were played, each adding one drive per team, and the last
    test [i - 1 < drivesPerTeam] succeeded. *)
Definition reg_inv (d : number) (s : Z * Drive.SimulationResult)
    (_ : Heap) : Prop :=
  drive_inv (snd s) /\ 0 <= fst s
  /\ List.length (Drive.homeDrives (snd s)) = Z.to_nat (fst s)
  /\ List.length (Drive.awayDrives (snd s)) = Z.to_nat (fst s)
  /\ (fst s = 0 \/ (of_Z (fst s - 1) <? d)%js = true).

(** What the overtime loop maintains on its state
    [(roundsPlayed, variables)], from the variables [st0] regulation left. *)
Definition ot_inv (st0 : Drive.SimulationResult)
    (s : Z * Drive.SimulationResult) (_ : Heap) : Prop :=
  drive_inv (snd s) /\ 0 <= fst s
  /\ List.length (Drive.homeDrives (snd s))
     = (List.length (Drive.homeDrives st0) + Z.to_nat (fst s))%nat
  /\ List.length (Drive.awayDrives (snd s))
     = (List.length (Drive.awayDrives st0) + Z.to_nat (fst s))%nat.

(** *** The projection engine *)

(** [sumPoints] of [NFLSimulator.tsx]:
    [points.reduce((total, value) => total + value, 0)]. *)
Definition sumPoints (points : list number) : number :=
  fold_left add64 points (of_Z 0).

(** [finalWithOt] of [renderTeamSummary]:
    [detail.finalPoints + sumPoints(detail.overtimePoints)]. *)
Definition finalWithOt (detail : Projection.TeamSimulationDetail) : number :=
  (Projection.finalPoints detail +! sumPoints (Projection.overtimePoints detail))%js.

(** The score [simulateGame] accumulates for a team before any tiebreak:
    it starts at [finalPoints] and each overtime round adds its points,
    [homeScore += homeOt]. *)
Definition running_score (detail : Projection.TeamSimulationDetail) : number :=
  fold_left add64 (Projection.overtimePoints detail)
    (Projection.finalPoints detail).

(** The values a score of the projection engine takes: a natural number,
    [+Infinity] or [NaN]. *)
Definition whole (a : number) : Prop :=
  match a with
  | Fin q => exists z, 0 <= z /\ (q == inject_Z z)%Q
  | NInf => False
  | PInf | NaN => True
  end.

(** A result with a winner. *)
Definition winner (r : Projection.SimulationResult) : bool :=
  (Projection.homeScore r >? Projection.awayScore r)%js
  || (Projection.awayScore r >? Projection.homeScore r)%js.

(** Projection statistics that pass every validation. *)
Definition projection_valid (t : Projection.TeamStats) : bool :=
  nonNegative (Projection.pointsPerGame t) &&
  nonNegative (Projection.pointsAllowedPerGame t) &&
  positive (Projection.yardsPerPlay t) &&
  nonNegative (Projection.turnoverRate t).

(** The inputs one call [calculateTeamDetail(team, opponent, rng)]
    validates. *)
Definition detail_inputs_valid (team opponent : Projection.TeamStats) : bool :=
  nonNegative (Projection.pointsPerGame team) &&
  nonNegative (Projection.pointsAllowedPerGame team) &&
  positive (Projection.yardsPerPlay team) &&
  nonNegative (Projection.turnoverRate team) &&
  nonNegative (Projection.pointsAllowedPerGame opponent).

(** The expected points [calculateTeamDetail] computes for a team. *)
Definition expected_of (team opponent : Projection.TeamStats) : number :=
  ((Projection.pointsPerGame team
    +! Projection.pointsAllowedPerGame opponent) /! of_Z 2)%js.

(** The detail [calculateTeamDetail] returns once the variation is drawn,
    and the points [simulateOtPoints] returns once its variation is. *)
Definition detail_of (team opponent : Projection.TeamStats)
    (variation : number) : Projection.TeamSimulationDetail :=
  let expected := expected_of team opponent in
  let turnoverPenalty :=
    (Projection.turnoverRate team *! Projection.TURNOVER_PENALTY_FACTOR)%js in
  let rawProjection := (expected +! variation -! turnoverPenalty)%js in
  Projection.mkDetail expected variation turnoverPenalty rawProjection
    (Math_max (of_Z 0) (Math_round rawProjection)) [].

Definition ot_points_of (expectedReg turnoverRate scale variation : number)
  : number :=
  let safeScale :=
    clamp (if Number_isFinite scale then scale
           else Projection.DEFAULT_OT_SCALE) (of_Z 0) (of_Z 1) in
  let expectedOT := clamp (expectedReg *! safeScale)%js (of_Z 0) (of_Z 12) in
  let penalty := (turnoverRate *! Projection.TURNOVER_PENALTY_FACTOR_OT)%js in
  Math_max (of_Z 0) (Math_round (expectedOT +! variation -! penalty)%js).

(** The inputs an overtime round validates.  The statistics were
    validated with the details; the expected points were not, and their
    sum may have overflowed. *)
Definition ot_inputs_valid (team : Projection.TeamStats)
    (d : Projection.TeamSimulationDetail) : Prop :=
  nonNegative (Projection.expectedPoints d) = true
  /\ positive (Projection.yardsPerPlay team) = true
  /\ nonNegative (Projection.turnoverRate team) = true.

(** The cap on overtime rounds the projection engine resolves. *)
Definition ot_cap (config : Projection.GameConfig) : Z :=
  match Projection.maxOtRounds config with
  | Some (Fin m) => Z.max 0 (Qfloor m)
  | _ => 3
  end.

(** Whether a policy gives its point to the home team. *)
Definition tiebreak_home (policy : Projection.TiebreakPolicy)
    (homeDetail awayDetail : Projection.TeamSimulationDetail) : bool :=
  match policy with
  | Projection.home => true
  | Projection.expected =>
      (Projection.expectedPoints homeDetail >?
       Projection.expectedPoints awayDetail)%js
      || negb (Projection.expectedPoints awayDetail >?
               Projection.expectedPoints homeDetail)%js
  end.

(** The policy recorded in a result, if a tiebreak was applied. *)
Definition tiebreak_of (r : Projection.SimulationResult)
  : option Projection.TiebreakPolicy :=
  match Projection.overtime r with
  | Some o => Projection.tiebreakApplied o
  | None => None
  end.

(** Whether each team got the tiebreak point, home first. *)
Definition tiebreakBonus (r : Projection.SimulationResult) : bool * bool :=
  match tiebreak_of r with
  | Some p =>
      if tiebreak_home p (Projection.homeDetail r) (Projection.awayDetail r)
      then (true, false) else (false, true)
  | None => (false, false)
  end.

(** A score and the tiebreak point, if the team got it. *)
Definition with_bonus (score : number) (bonus : bool) : number :=
  if bonus then (score +! of_Z 1)%js else score.

(** What the overtime loop of the projection engine maintains: the running
    scores are the regulation points with the overtime points added round
    by round, one overtime value per team and round, within the cap, no
    tiebreak yet, and no score is negative. *)
Definition proj_inv (homeDetail awayDetail : Projection.TeamSimulationDetail)
    (cap : Z) (l : Projection.Locals) (_ : Heap) : Prop :=
  Projection.l_homeScore l
  = fold_left add64 (Projection.overtimePointsHome l)
      (Projection.finalPoints homeDetail)
  /\ Projection.l_awayScore l
     = fold_left add64 (Projection.overtimePointsAway l)
         (Projection.finalPoints awayDetail)
  /\ Projection.roundsPlayed l
     = Z.of_nat (List.length (Projection.overtimePointsHome l))
  /\ Projection.roundsPlayed l
     = Z.of_nat (List.length (Projection.overtimePointsAway l))
  /\ Projection.roundsPlayed l <= cap
  /\ Projection.l_tiebreakApplied l = None
  /\ (Projection.l_homeScore l <? of_Z 0)%js = false
  /\ (Projection.l_awayScore l <? of_Z 0)%js = false.

(** *** Further vocabulary of the drive engine *)

(** The number of values a game of the drive engine has drawn from [rng]:
    one per drive, and one more per drive that scored. *)
Definition values_drawn (r : Drive.SimulationResult) : nat :=
  let s := Drive.summary r in
  (List.length (Drive.homeDrives r) + List.length (Drive.awayDrives r)
   + Z.to_nat (Drive.homeTDs s + Drive.homeFGs s
               + Drive.awayTDs s + Drive.awayFGs s))%nat.

(** What both loops of the drive engine maintain between the variables
    and the generator, from the heap [h0] the call started on: every
    recorded drive is one of the three outcomes, and the generator stands
    [values_drawn] calls after [h0]. *)
Definition trace_inv (Math_random : nat -> number) (h0 : Heap)
    (s : Z * Drive.SimulationResult) (h : Heap) : Prop :=
  drive_inv (snd s)
  /\ Forall outcome_wf (Drive.homeDrives (snd s))
  /\ Forall outcome_wf (Drive.awayDrives (snd s))
  /\ h = after_draws Math_random (values_drawn (snd s)) h0.

(** What the overtime loop of the drive engine maintains on
    [roundsPlayed]: before the first round nothing has changed; a round is
    only played with overtime enabled, from a tie, and within a finite
    cap. *)
Definition rounds_inv (config : Drive.GameConfig)
    (st0 : Drive.SimulationResult) (h0 : Heap)
    (s : Z * Drive.SimulationResult) (h : Heap) : Prop :=
  0 <= fst s
  /\ (fst s = 0 -> snd s = st0 /\ h = h0)
  /\ (0 < fst s ->
      Drive.overtimeEnabled config = true
      /\ Drive.homeScore st0 = Drive.awayScore st0
      /\ forall m, Drive.maxOvertimeRounds config = Fin m ->
                   fst s <= Qceiling m).

(** The message of a failing drive, and of a failing call of the drive
    engine: that of the first check that fails, in the order the code
    makes them. *)
Definition drive_message (offense defense : number) : string :=
  if negb (offense >? of_Z 0)%js
  then "offensePtsDrive must be greater than 0"
  else "defensePtsDrive must be greater than 0".

Definition drive_failure_message (home away : Drive.TeamStats)
    (config : Drive.GameConfig) : string :=
  if negb (Drive.resolved_drivesPerTeam config >? of_Z 0)%js
  then "drivesPerTeam must be greater than 0"
  else if first_drive_valid home away
  then drive_message (Drive.offPtsDrive away) (Drive.defPtsDrive home)
  else drive_message (Drive.offPtsDrive home) (Drive.defPtsDrive away).

(* ------------------------------------------------------------------ *)
(** ** Example inputs *)

(** A platform to run the projection engine on: rational stand-ins for the
    transcendental functions (first-order [log] and [sqrt] around 1,
    second-order [cos] around 0, [NaN] at the infinities) and a constant
    [Math.random]. *)
Definition example_random : nat -> number := fun _ => Fin (1 # 2).

Definition example_log (x : number) : number := (x -! of_Z 1)%js.

Definition example_sqrt (x : number) : number :=
  ((of_Z 1 +! x) /! of_Z 2)%js.

Definition example_cos (x : number) : number :=
  if Number_isFinite x then (of_Z 1 -! x *! x /! of_Z 2)%js else NaN.

Definition example_PI : number := Eval vm_compute in round64 (355 # 113).

(** The drive-engine example of the specification: 12 drives per team,
    ties allowed, seed 42; the same with 2.5 drives per team and ties not
    allowed; the same without seed; and an away team whose offense is 0. *)
Definition drive_home : Drive.TeamStats :=
  Drive.mkTeamStats (Fin (5 # 2)) (Fin (11 # 5)).

Definition drive_away : Drive.TeamStats :=
  Drive.mkTeamStats (Fin (23 # 10)) (Fin (12 # 5)).

Definition drive_invalid_away : Drive.TeamStats :=
  Drive.mkTeamStats (of_Z 0) (Fin (12 # 5)).

Definition drive_config : Drive.GameConfig :=
  Drive.mkGameConfig (Some (of_Z 12)) (Some true) None (Some (of_Z 42)).

Definition drive_fractional_config : Drive.GameConfig :=
  Drive.mkGameConfig (Some (Fin (5 # 2))) (Some false) None (Some (of_Z 42)).

Definition drive_unseeded_config : Drive.GameConfig :=
  Drive.mkGameConfig (Some (of_Z 12)) (Some true) None None.

Definition drive_result : Drive.SimulationResult :=
  Eval vm_compute in
    match fst (Drive.run_simulateGame (fun _ => NaN) 12 drive_home drive_away
                 drive_config 0) with
    | Returned r => r
    | _ => Drive.empty_result
    end.

(** A game of one drive per team with ties not allowed and at most two
    overtime rounds, seed 16: both teams score a touchdown in regulation
    and neither scores in the two overtime rounds. *)
Definition drive_overtime_config : Drive.GameConfig :=
  Drive.mkGameConfig (Some (of_Z 1)) (Some false)
    (Some (Drive.mkOvertimeConfig true (Some (of_Z 2)))) (Some (of_Z 16)).

Definition drive_overtime_result : Drive.SimulationResult :=
  Eval vm_compute in
    match fst (Drive.run_simulateGame (fun _ => NaN) 2 drive_home drive_away
                 drive_overtime_config 0) with
    | Returned r => r
    | _ => Drive.empty_result
    end.

(** The projection-engine example of the specification, with ties not
    allowed, no overtime round, policy ["expected"] and seed 6, on the
    example platform. *)
Definition projection_home : Projection.TeamStats :=
  Projection.mkTeamStats (Fin (123 # 5)) (Fin (209 # 10)) (Fin (59 # 10))
    (Fin (11 # 10)).

Definition projection_away : Projection.TeamStats :=
  Projection.mkTeamStats (Fin (223 # 10)) (Fin (217 # 10)) (Fin (57 # 10))
    (Fin (13 # 10)).

Definition projection_config : Projection.GameConfig :=
  Projection.mkGameConfig (Some (of_Z 6)) (Some false) (Some (of_Z 0))
    (Some (Fin (1 # 4))) (Some Projection.expected).

Definition projection_run : outcome Projection.SimulationResult * Heap :=
  Projection.run_simulateGame example_random example_log example_cos
    example_sqrt example_PI 2 projection_home projection_away
    projection_config 0.


(** The projection example with ties allowed. *)
Definition projection_ties_config : Projection.GameConfig :=
  Projection.mkGameConfig (Some (of_Z 6)) (Some true) None None None.

(** Statistics of [2^54] points per game, where consecutive binary64
    values are 4 apart; run with ties not allowed, no overtime round,
    policy ["home"] and seed 42, and with three overtime rounds scaled by
    [2^-54]. *)
Definition projection_huge : Projection.TeamStats :=
  Projection.mkTeamStats (of_Z (2 ^ 54)) (of_Z (2 ^ 54)) (Fin (1 # 4))
    (of_Z 0).

Definition projection_huge_config : Projection.GameConfig :=
  Projection.mkGameConfig (Some (of_Z 42)) (Some false) (Some (of_Z 0))
    None (Some Projection.home).

Definition projection_huge_overtime_config : Projection.GameConfig :=
  Projection.mkGameConfig (Some (of_Z 42)) (Some false) None
    (Some (Fin (1 # 2 ^ 54))) (Some Projection.home).

(** Statistics of [2^1023] points per game, whose sum overflows; run with
    the default configuration and seed 42. *)
Definition projection_overflow : Projection.TeamStats :=
  Projection.mkTeamStats (of_Z (2 ^ 1023)) (of_Z (2 ^ 1023)) (Fin (1 # 2))
    (of_Z 0).

Definition projection_overflow_config : Projection.GameConfig :=
  Projection.mkGameConfig (Some (of_Z 42)) None None None None.

Definition projection_huge_overtime_run
  : outcome Projection.SimulationResult * Heap :=
  Projection.run_simulateGame example_random example_log example_cos
    example_sqrt example_PI 4 projection_huge projection_huge
    projection_huge_overtime_config 0.

Definition projection_huge_overtime_outcome
  : outcome Projection.SimulationResult * Heap :=
  Eval vm_compute in projection_huge_overtime_run.

Set Default Proof Using "Type".

(* ------------------------------------------------------------------ *)
(** * Properties *)

(** *** Integers as numbers *)

Lemma Qred_inject_Z (z : Z) : Qred (inject_Z z) = inject_Z z.
Proof.
  apply Qred_identity. simpl. apply Z.gcd_1_r.
Qed.

Lemma fin_of_Z (q : Q) (z : Z) : (q == inject_Z z)%Q -> fin q = of_Z z.
Proof.
  intros H. unfold fin, of_Z. rewrite (Qred_complete _ _ H).
  now rewrite Qred_inject_Z.
Qed.

Lemma js_add_of_Z (a b : Z) : (of_Z a + of_Z b)%js = of_Z (a + b).
Proof. simpl. apply fin_of_Z. now rewrite inject_Z_plus. Qed.

Lemma js_neg_of_Z (a : Z) : js_neg (of_Z a) = of_Z (- a).
Proof. simpl. apply fin_of_Z. now rewrite inject_Z_opp. Qed.

Lemma js_sub_of_Z (a b : Z) : (of_Z a - of_Z b)%js = of_Z (a - b).
Proof. unfold js_sub. rewrite js_neg_of_Z. apply js_add_of_Z. Qed.

Lemma js_mul_of_Z (a b : Z) : (of_Z a * of_Z b)%js = of_Z (a * b).
Proof. simpl. apply fin_of_Z. now rewrite inject_Z_mult. Qed.

Lemma Qeq_bool_inject_Z (a b : Z) : Qeq_bool (inject_Z a) (inject_Z b) = (a =? b).
Proof.
  unfold Qeq_bool. simpl. now rewrite !Z.mul_1_r.
Qed.

Lemma Qle_bool_inject_Z (a b : Z) : Qle_bool (inject_Z a) (inject_Z b) = (a <=? b).
Proof.
  unfold Qle_bool. simpl. now rewrite !Z.mul_1_r.
Qed.

Lemma js_le_of_Z (a b : Z) : (of_Z a <=? of_Z b)%js = (a <=? b).
Proof. apply Qle_bool_inject_Z. Qed.

Lemma js_lt_of_Z (a b : Z) : (of_Z a <? of_Z b)%js = (a <? b).
Proof.
  simpl. rewrite Qle_bool_inject_Z. rewrite Z.ltb_antisym. reflexivity.
Qed.

Lemma js_eq_of_Z (a b : Z) : (of_Z a === of_Z b)%js = (a =? b).
Proof. apply Qeq_bool_inject_Z. Qed.

Lemma js_rem_of_Z (a b : Z) :
  b <> 0 -> (of_Z a mod of_Z b)%js = of_Z (Z.rem a b).
Proof.
  intros Hb. unfold js_rem, of_Z.
  change 0%Q with (inject_Z 0). rewrite Qeq_bool_inject_Z.
  destruct (Z.eqb_spec b 0) as [|_]; [contradiction|].
  apply fin_of_Z.
  assert (Ht : Qtrunc (inject_Z a / inject_Z b) = Z.quot a b).
  { unfold Qtrunc. destruct b as [|p|p]; [contradiction| |].
    - simpl. f_equal. lia.
    - simpl. replace (a * -1) with (- a) by lia.
      change (Z.neg p) with (- Z.pos p).
      rewrite Z.quot_opp_r by discriminate.
      rewrite Z.quot_opp_l by discriminate. reflexivity. }
  rewrite Ht. rewrite <- inject_Z_mult.
  unfold Qminus. rewrite <- inject_Z_opp, <- inject_Z_plus.
  rewrite (Z.quot_rem' a b) at 1.
  apply inject_Z_injective. lia.
Qed.

(** *** The seeded generator on integers *)

Lemma createRandomGenerator_finite (q : Q) :
  createRandomGenerator (Some (Fin q)) = Lcg (of_Z (seed_state q)).
Proof.
  unfold createRandomGenerator, seed_state. simpl Number_isNaN. cbv iota.
  unfold Math_floor. rewrite js_rem_of_Z by discriminate.
  rewrite js_le_of_Z.
  destruct (Z.rem (Qfloor q) 2147483647 <=? 0); [|reflexivity].
  now rewrite js_add_of_Z.
Qed.

Lemma seed_state_range (q : Q) : 0 <= seed_state q <= 2147483646.
Proof.
  unfold seed_state.
  pose proof (Z.rem_bound_abs (Qfloor q) 2147483647 ltac:(discriminate)) as Hb.
  destruct (Z.leb_spec (Z.rem (Qfloor q) 2147483647) 0); lia.
Qed.

Lemma lcg_next_of_Z (z : Z) :
  0 <= z -> lcg_next (of_Z z) = of_Z ((z * 16807) mod 2147483647).
Proof.
  intros Hz. unfold lcg_next. rewrite js_mul_of_Z.
  rewrite js_rem_of_Z by discriminate.
  rewrite Z.rem_mod_nonneg by lia. reflexivity.
Qed.

Lemma lcg_output_of_Z (z : Z) :
  lcg_output (of_Z z) = fin (inject_Z (z - 1) / inject_Z 2147483646).
Proof.
  unfold lcg_output. rewrite js_sub_of_Z. reflexivity.
Qed.

Lemma lcg_state_bound (z0 : Z) (n : nat) :
  0 <= z0 <= 2147483646 -> 0 <= lcg_state z0 n <= 2147483646.
Proof.
  intros H0. destruct n as [|n]; simpl; [exact H0|].
  pose proof (Z.mod_pos_bound (lcg_state z0 n * 16807) 2147483647
                ltac:(reflexivity)). lia.
Qed.

(** The multiplier is invertible modulo 2147483647, so a step never sends
    a non-zero state to zero. *)
Lemma lcg_step_nonzero (z : Z) :
  0 < z <= 2147483646 -> (z * 16807) mod 2147483647 <> 0.
Proof.
  intros Hz H0.
  assert (Hinv : (z * 16807 * 1407677000) mod 2147483647 = z).
  { replace (z * 16807 * 1407677000)
      with (z + z * 11017 * 2147483647) by ring.
    rewrite Z.mod_add by discriminate. apply Z.mod_small. lia. }
  rewrite <- Z.mul_mod_idemp_l in Hinv by discriminate.
  rewrite H0 in Hinv. rewrite Z.mul_0_l in Hinv.
  change (0 mod 2147483647) with 0 in Hinv. lia.
Qed.

Lemma lcg_state_nonzero (z0 : Z) (n : nat) :
  0 < z0 <= 2147483646 -> 0 < lcg_state z0 n <= 2147483646.
Proof.
  intros H0. induction n as [|n IH]; simpl; [exact H0|].
  pose proof (lcg_step_nonzero _ IH).
  pose proof (Z.mod_pos_bound (lcg_state z0 n * 16807) 2147483647
                ltac:(reflexivity)). lia.
Qed.

Section GeneratorFacts.

Variable Math_random : nat -> number.

Lemma after_draws_lcg (z0 : Z) (n pos d : nat) :
  0 <= z0 <= 2147483646 ->
  after_draws Math_random n (mkHeap (Lcg (of_Z z0)) pos d)
  = mkHeap (Lcg (of_Z (lcg_state z0 n))) pos (n + d).
Proof.
  intros H0.
  assert (G : forall m k,
    after_draws Math_random k (mkHeap (Lcg (of_Z (lcg_state z0 m))) pos d)
    = mkHeap (Lcg (of_Z (lcg_state z0 (k + m)))) pos (k + d)).
  2:{ specialize (G O n). simpl lcg_state in G at 1. rewrite G.
      now rewrite Nat.add_0_r. }
  intros m k. revert m d. induction k as [|k IH]; intros m d; [reflexivity|].
  simpl after_draws. unfold rng_step. simpl rng_cell. cbv iota.
  simpl snd. simpl platform_pos. simpl draws.
  rewrite lcg_next_of_Z by (apply lcg_state_bound; exact H0).
  change ((lcg_state z0 m * 16807) mod 2147483647) with (lcg_state z0 (S m)).
  rewrite IH. f_equal; [|lia]. do 2 f_equal. f_equal. lia.
Qed.

Lemma nth_draw_lcg (z0 : Z) (n pos d : nat) :
  0 <= z0 <= 2147483646 ->
  nth_draw Math_random n (mkHeap (Lcg (of_Z z0)) pos d)
  = fin (inject_Z (lcg_state z0 (S n) - 1) / inject_Z 2147483646).
Proof.
  intros H0. unfold nth_draw. rewrite after_draws_lcg by exact H0.
  unfold rng_step. simpl rng_cell. cbv iota. simpl fst.
  rewrite lcg_next_of_Z by (apply lcg_state_bound; exact H0).
  apply lcg_output_of_Z.
Qed.

End GeneratorFacts.

Lemma lcg_output_range (z : Z) :
  0 < z <= 2147483646 ->
  exists v, fin (inject_Z (z - 1) / inject_Z 2147483646) = Fin v
            /\ (0 <= v)%Q /\ (v < 1)%Q.
Proof.
  intros Hz. eexists. split; [reflexivity|].
  rewrite Qred_correct. unfold Qdiv, Qle, Qlt. simpl. lia.
Qed.

(** C5, as amended.  For every finite seed the generator is the
    multiplicative congruential generator on integers: the closure's state
    starts at the truncated remainder of [floor(seed)] by 2147483647, plus
    2147483646 (the modulus minus one, not the modulus) when that remainder
    is [<= 0]; each call replaces the state by [(state * 16807) mod
    2147483647] and returns [(state - 1) / 2147483646]; and, unless the
    starting state is 0, every value returned lies in [0, 1). *)
Theorem createRandomGenerator_lcg
    (Math_random : nat -> number) (seed : Q) (pos : nat) :
  let z0 := seed_state seed in
  let h0 := initial_heap (Some (Fin seed)) pos in
  createRandomGenerator (Some (Fin seed)) = Lcg (of_Z z0)
  /\ (forall n, after_draws Math_random n h0
                = mkHeap (Lcg (of_Z (lcg_state z0 n))) pos n)
  /\ (forall n, nth_draw Math_random n h0
                = fin (inject_Z (lcg_state z0 (S n) - 1)
                       / inject_Z 2147483646))
  /\ (z0 <> 0 ->
      forall n, exists v, nth_draw Math_random n h0 = Fin v
                          /\ (0 <= v)%Q /\ (v < 1)%Q).
Proof.
  intros z0 h0. pose proof (seed_state_range seed) as Hr. fold z0 in Hr.
  assert (Hh : h0 = mkHeap (Lcg (of_Z z0)) pos 0).
  { unfold h0, initial_heap. now rewrite createRandomGenerator_finite. }
  split; [apply createRandomGenerator_finite|].
  split; [|split].
  - intros n. rewrite Hh, after_draws_lcg by exact Hr.
    now rewrite Nat.add_0_r.
  - intros n. rewrite Hh. now apply nth_draw_lcg.
  - intros Hz n. rewrite Hh, nth_draw_lcg by exact Hr.
    apply lcg_output_range. apply lcg_state_nonzero. lia.
Qed.

Lemma createRandomGenerator_lcg_witness :
  seed_state (inject_Z 42) <> 0 /\
  exists v, nth_draw (fun _ => NaN) 0 (initial_heap (Some (of_Z 42)) 0) = Fin v
            /\ (0 <= v)%Q /\ (v < 1)%Q.
Proof.
  assert (H : seed_state (inject_Z 42) <> 0) by (vm_compute; discriminate).
  split; [exact H|].
  exact (proj2 (proj2 (proj2
    (createRandomGenerator_lcg (fun _ => NaN) (inject_Z 42) 0))) H 0%nat).
Defined.

(** C5 as stated fails at the seed -2147483646: the state starts at 0,
    outside (0, 2147483647), and the first value returned is negative.
    At the seed -5 the state starts at 2147483641, one less than the
    remainder plus the modulus. *)
Lemma createRandomGenerator_seed_minus_2147483646 :
  createRandomGenerator (Some (of_Z (-2147483646))) = Lcg (of_Z 0)
  /\ nth_draw (fun _ => NaN) 0 (initial_heap (Some (of_Z (-2147483646))) 0)
     = Fin (-1 # 2147483646)
  /\ (Fin (-1 # 2147483646) <? of_Z 0)%js = true
  /\ ~ (exists v, nth_draw (fun _ => NaN) 0
                    (initial_heap (Some (of_Z (-2147483646))) 0) = Fin v
                  /\ (0 <= v)%Q /\ (v < 1)%Q)
  /\ createRandomGenerator (Some (of_Z (-5))) = Lcg (of_Z 2147483641)
  /\ 2147483641 <> Z.rem (-5) 2147483647 + 2147483647.
Proof.
  split; [reflexivity|]. split; [reflexivity|]. split; [reflexivity|].
  split; [|split; [reflexivity|discriminate]].
  intros [v [Hv [H0 _]]]. vm_compute in Hv. injection Hv as <-.
  apply H0. reflexivity.
Qed.

(** C6.  The claim holds of the code for an absent seed and for [NaN],
    and the code breaks it at the infinities: the guard of
    [createRandomGenerator] tests [Number.isNaN] where the other guards of
    the module test [Number.isFinite], so an infinite seed reaches the
    generator the guard is there to keep it from, the state becomes [NaN]
    and every call returns [NaN].  [createRandomGenerator] returns the
    platform's [Math.random] exactly when the seed is absent or [NaN]. *)
Theorem createRandomGenerator_platform_iff
    (Math_random : nat -> number) (seed : option number) :
  (createRandomGenerator seed = MathRandom
   <-> seed = None \/ seed = Some NaN)
  /\ (seed = Some PInf \/ seed = Some NInf ->
      createRandomGenerator seed = Lcg NaN
      /\ forall n pos,
           nth_draw Math_random n (initial_heap seed pos) = NaN).
Proof.
  split.
  - split.
    + destruct seed as [[| | |q]|]; auto;
        try rewrite createRandomGenerator_finite; discriminate.
    + intros [->| ->]; reflexivity.
  - assert (G : forall n pos d,
      nth_draw Math_random n (mkHeap (Lcg NaN) pos d) = NaN).
    { intros n. unfold nth_draw. induction n as [|n IH]; intros pos d.
      - reflexivity.
      - simpl after_draws. apply IH. }
    intros [->| ->]; (split; [reflexivity|]); intros n pos; apply G.
Qed.

Lemma createRandomGenerator_platform_iff_witness :
  createRandomGenerator (Some PInf) = Lcg NaN
  /\ forall n pos,
       nth_draw (fun _ => of_Z 0) n (initial_heap (Some PInf) pos) = NaN.
Proof.
  exact (proj2 (createRandomGenerator_platform_iff (fun _ => of_Z 0) (Some PInf))
               (or_introl eq_refl)).
Defined.

(** The defect at [+Infinity], which is not a finite number and yet does
    not select the platform source. *)
Lemma createRandomGenerator_infinite_seed :
  Number_isFinite PInf = false
  /\ createRandomGenerator (Some PInf) <> MathRandom.
Proof. split; [reflexivity|discriminate]. Qed.

(** *** The monad *)

Lemma bind_Returned {A B} (m : M A) (k : A -> M B) h b h' :
  bind m k h = (Returned b, h') ->
  exists a h1, m h = (Returned a, h1) /\ k a h1 = (Returned b, h').
Proof.
  unfold bind. destruct (m h) as [[a|msg|] h1]; intros H;
    try discriminate H. now exists a, h1.
Qed.

Lemma bind_Thrown {A B} (m : M A) (k : A -> M B) h msg h' :
  bind m k h = (Thrown msg, h') ->
  m h = (Thrown msg, h') \/
  exists a h1, m h = (Returned a, h1) /\ k a h1 = (Thrown msg, h').
Proof.
  unfold bind. destruct (m h) as [[a|msg'|] h1]; intros H;
    try discriminate H.
  - right. now exists a, h1.
  - left. now injection H as -> ->.
Qed.

(** [bind_inv H as a h Ha]: from [H : bind m k h0 = (Returned b, h')] to
    [Ha : m h0 = (Returned a, h)] and [H : k a h = (Returned b, h')]. *)
Tactic Notation "bind_inv" hyp(H) "as" ident(a) ident(h) ident(Ha) :=
  apply bind_Returned in H; destruct H as [a [h [Ha H]]].

Lemma bind_run {A B} (m : M A) (k : A -> M B) h a h1 :
  m h = (Returned a, h1) -> bind m k h = k a h1.
Proof. unfold bind. now intros ->. Qed.

Lemma draws_after_draws Math_random (n : nat) (h : Heap) :
  draws (after_draws Math_random n h) = (n + draws h)%nat.
Proof.
  revert h. induction n as [|n IH]; intros h; [reflexivity|].
  simpl after_draws. rewrite IH. unfold rng_step.
  destruct (rng_cell h); simpl; lia.
Qed.

Lemma rng_call_run Math_random (h : Heap) :
  rng_call Math_random h
  = (Returned (nth_draw Math_random 0 h), after_draws Math_random 1 h).
Proof.
  unfold rng_call, nth_draw. simpl after_draws.
  now destruct (rng_step Math_random h).
Qed.

Lemma not_gt_zero (x : number) :
  negb (x >? of_Z 0)%js = (x <=? of_Z 0)%js || Number_isNaN x.
Proof.
  destruct x as [| | |q]; try reflexivity.
  unfold js_gt. simpl. now rewrite negb_involutive, orb_false_r.
Qed.

Module DriveFacts.
Import Drive.

Section WithPlatform.

Variable Math_random : nat -> number.

Lemma simulateDrive_valid_run offense defense h :
  (offense >? of_Z 0)%js = true -> (defense >? of_Z 0)%js = true ->
  simulateDrive Math_random offense defense h
  = if (nth_draw Math_random 0 h <? scoringProbability offense defense)%js
    then (Returned (if (nth_draw Math_random 1 h <? Fin (3 # 4))%js
                    then mkDriveOutcome TD 7 else mkDriveOutcome FG 3),
          after_draws Math_random 2 h)
    else (Returned (mkDriveOutcome NONE 0), after_draws Math_random 1 h).
Proof.
  intros Ho Hd. unfold simulateDrive, validatePointsPerDrive.
  rewrite Ho, Hd. cbn [negb].
  unfold bind at 1. unfold ret at 1. unfold bind at 1. unfold ret at 1.
  unfold rng. rewrite (bind_run _ _ _ _ _ (rng_call_run Math_random h)).
  destruct (nth_draw Math_random 0 h <? scoringProbability offense defense)%js;
    [|reflexivity].
  rewrite (bind_run _ _ _ _ _
             (rng_call_run Math_random (after_draws Math_random 1 h))).
  change (nth_draw Math_random 0 (after_draws Math_random 1 h))
    with (nth_draw Math_random 1 h).
  now destruct (nth_draw Math_random 1 h <? Fin (3 # 4))%js.
Qed.

Lemma simulateDrive_invalid_throws offense defense h :
  (offense >? of_Z 0)%js && (defense >? of_Z 0)%js = false ->
  exists msg,
    simulateDrive Math_random offense defense h = (Thrown msg, h).
Proof.
  intros Hv. unfold simulateDrive, validatePointsPerDrive.
  destruct (offense >? of_Z 0)%js; cbn [negb andb] in *.
  - rewrite Hv. eexists. reflexivity.
  - eexists. reflexivity.
Qed.

Lemma simulateDrive_thrown offense defense h msg h' :
  simulateDrive Math_random offense defense h = (Thrown msg, h') ->
  h' = h /\ (offense >? of_Z 0)%js && (defense >? of_Z 0)%js = false.
Proof.
  intros H.
  destruct ((offense >? of_Z 0)%js && (defense >? of_Z 0)%js) eqn:E.
  - apply andb_true_iff in E. destruct E as [Ho Hd].
    rewrite (simulateDrive_valid_run _ _ _ Ho Hd) in H.
    match type of H with (if ?c then _ else _) = _ => destruct c end;
      discriminate H.
  - destruct (simulateDrive_invalid_throws _ _ h E) as [msg' Hm].
    split; [congruence|reflexivity].
Qed.

Lemma simulateDrive_returned offense defense h o h' :
  simulateDrive Math_random offense defense h = (Returned o, h') ->
  (offense >? of_Z 0)%js && (defense >? of_Z 0)%js = true
  /\ ((o = mkDriveOutcome NONE 0 /\ draws h' = (1 + draws h)%nat) \/
      ((o = mkDriveOutcome TD 7 \/ o = mkDriveOutcome FG 3)
       /\ draws h' = (2 + draws h)%nat)).
Proof.
  intros H.
  destruct ((offense >? of_Z 0)%js && (defense >? of_Z 0)%js) eqn:E.
  - split; [reflexivity|].
    apply andb_true_iff in E. destruct E as [Ho Hd].
    rewrite (simulateDrive_valid_run _ _ _ Ho Hd) in H.
    destruct (nth_draw Math_random 0 h <? scoringProbability offense defense)%js;
      pose proof (f_equal fst H) as H1; pose proof (f_equal snd H) as H2;
      cbn [fst snd] in H1, H2; injection H1 as <-; subst h';
      rewrite draws_after_draws; [right|left; now split].
      split; [|reflexivity].
      destruct (nth_draw Math_random 1 h <? Fin (3 # 4))%js; auto.
  - destruct (simulateDrive_invalid_throws _ _ h E) as [msg Hm].
    rewrite Hm in H. discriminate H.
Qed.

(** C2, as amended.  [simulateDrive] fails, before any call to [rng],
    exactly when the offense or the defense is not [> 0], that is when one
    of them is [<= 0] or [NaN]; otherwise it computes the scoring
    probability from the clamped values, draws one value and, when that is
    below the probability, a second one that decides between a touchdown
    (7 points, second value below 0.75) and a field goal (3 points), else
    returns no score.  A drive without score calls [rng] once, a scoring
    drive twice, and the points are 0, 3 or 7. *)
Theorem simulateDrive_spec (offense defense : number) (h : Heap) :
  let invalid :=
    (offense <=? of_Z 0)%js || Number_isNaN offense ||
    ((defense <=? of_Z 0)%js || Number_isNaN defense) in
  let p :=
    clamp (Fin (2 # 5) *
           (clamp offense (Fin (1 # 5)) (of_Z 4) /
            clamp defense (Fin (1 # 5)) (of_Z 4)))%js
      (of_Z 0) (Fin (17 # 20)) in
  let u := nth_draw Math_random 0 h in
  let v := nth_draw Math_random 1 h in
  (invalid = true <->
   exists msg, simulateDrive Math_random offense defense h = (Thrown msg, h))
  /\ (invalid = false ->
      simulateDrive Math_random offense defense h
      = if (u <? p)%js then
          (Returned (if (v <? Fin (3 # 4))%js then mkDriveOutcome TD 7
                     else mkDriveOutcome FG 3),
           after_draws Math_random 2 h)
        else (Returned (mkDriveOutcome NONE 0), after_draws Math_random 1 h))
  /\ (forall o h',
        simulateDrive Math_random offense defense h = (Returned o, h') ->
        (o = mkDriveOutcome NONE 0 /\ draws h' = (1 + draws h)%nat) \/
        ((o = mkDriveOutcome TD 7 \/ o = mkDriveOutcome FG 3)
         /\ draws h' = (2 + draws h)%nat)).
Proof.
  intros invalid p u v.
  assert (Hinv : invalid
                 = negb ((offense >? of_Z 0)%js && (defense >? of_Z 0)%js)).
  { unfold invalid. rewrite <- !not_gt_zero. now rewrite negb_andb. }
  split; [split|split].
  - intros Hi. apply simulateDrive_invalid_throws.
    rewrite Hinv in Hi. now apply negb_true_iff in Hi.
  - intros [msg Hm]. apply simulateDrive_thrown in Hm.
    rewrite Hinv. apply negb_true_iff. exact (proj2 Hm).
  - intros Hi. rewrite Hinv in Hi. apply negb_false_iff in Hi.
    apply andb_true_iff in Hi. destruct Hi as [Ho Hd].
    exact (simulateDrive_valid_run offense defense h Ho Hd).
  - intros o h' Hr. exact (proj2 (simulateDrive_returned _ _ _ _ _ Hr)).
Qed.

End WithPlatform.

Lemma simulateDrive_spec_witness :
  simulateDrive (fun _ => NaN) (Fin (5 # 2)) (Fin (12 # 5))
    (initial_heap (Some (of_Z 42)) 0)
  = (Returned (mkDriveOutcome TD 7),
     after_draws (fun _ => NaN) 2 (initial_heap (Some (of_Z 42)) 0)).
Proof.
  exact (proj1 (proj2
    (simulateDrive_spec (fun _ => NaN) (Fin (5 # 2)) (Fin (12 # 5))
       (initial_heap (Some (of_Z 42)) 0))) eq_refl).
Defined.

(** C2 as stated fails at a [NaN] offense: the call fails although neither
    value is [<= 0]. *)
Lemma simulateDrive_NaN_offense :
  (NaN <=? of_Z 0)%js = false /\ (of_Z 2 <=? of_Z 0)%js = false
  /\ simulateDrive (fun _ => NaN) NaN (of_Z 2) (mkHeap MathRandom 0 0)
     = (Thrown "offensePtsDrive must be greater than 0", mkHeap MathRandom 0 0).
Proof. repeat split. Qed.

End DriveFacts.

(** *** The boundary examples of the specification *)

Example createRandomGenerator_seed_42 :
  createRandomGenerator (Some (of_Z 42)) = Lcg (of_Z 42)
  /\ nth_draw (fun _ => NaN) 0 (initial_heap (Some (of_Z 42)) 0)
     = Fin (705893 # 2147483646)
  /\ createRandomGenerator None = MathRandom.
Proof. repeat split. Qed.

Example scoringProbability_clamps_offense :
  Drive.scoringProbability (of_Z 5) (of_Z 2) = Fin (4 # 5)
  /\ Drive.scoringProbability (of_Z 4) (of_Z 2) = Fin (4 # 5)
  /\ Drive.scoringProbability (of_Z 4) (Fin (1 # 5)) = Fin (17 # 20).
Proof. repeat split. Qed.

Example simulateDrive_zero_offense :
  Drive.simulateDrive (fun _ => NaN) (of_Z 0) (of_Z 2)
    (initial_heap (Some (of_Z 42)) 0)
  = (Thrown "offensePtsDrive must be greater than 0",
     initial_heap (Some (of_Z 42)) 0).
Proof. reflexivity. Qed.

(** *** Loops *)

Lemma while_S {S : Type} (fuel : nat) (cond : S -> bool) (body : S -> M S)
    (s : S) :
  while (Datatypes.S fuel) cond body s
  = if cond s then bind (body s) (while fuel cond body) else ret s.
Proof. reflexivity. Qed.

Lemma while_exit {S : Type} (fuel : nat) (cond : S -> bool) (body : S -> M S)
    (s : S) :
  cond s = false -> while fuel cond body s = ret s.
Proof. intros H. destruct fuel; simpl; now rewrite H. Qed.

Lemma while_inv {S : Type} (I : S -> Heap -> Prop)
    (cond : S -> bool) (body : S -> M S) :
  (forall s h s' h',
      I s h -> cond s = true -> body s h = (Returned s', h') -> I s' h') ->
  forall fuel s h s' h',
    I s h -> while fuel cond body s h = (Returned s', h') ->
    I s' h' /\ cond s' = false.
Proof.
  intros Hbody fuel. induction fuel as [|fuel IH]; intros s h s' h' Hi Hw;
    simpl in Hw; destruct (cond s) eqn:Hc; try discriminate Hw.
  - injection Hw as <- <-. now split.
  - bind_inv Hw as s1 h1 Hb.
    eapply IH; [|exact Hw]. eapply Hbody; eassumption.
  - injection Hw as <- <-. now split.
Qed.

Lemma while_not_thrown {S : Type} (I : S -> Heap -> Prop)
    (cond : S -> bool) (body : S -> M S) :
  (forall s h s' h',
      I s h -> cond s = true -> body s h = (Returned s', h') -> I s' h') ->
  (forall s h msg h',
      I s h -> cond s = true -> body s h <> (Thrown msg, h')) ->
  forall fuel s h msg h',
    I s h -> while fuel cond body s h <> (Thrown msg, h').
Proof.
  intros Hbody Hno fuel. induction fuel as [|fuel IH];
    intros s h msg h' Hi Hw; simpl in Hw; destruct (cond s) eqn:Hc;
    try discriminate Hw.
  apply bind_Thrown in Hw. destruct Hw as [Hw|[s1 [h1 [Hb Hw]]]].
  - eapply Hno; eassumption.
  - eapply IH; [|exact Hw]. eapply Hbody; eassumption.
Qed.

Lemma while_terminates {S : Type} (I : S -> Heap -> Prop) (measure : S -> nat)
    (cond : S -> bool) (body : S -> M S) :
  (forall s h, I s h -> cond s = true ->
     exists s' h', body s h = (Returned s', h') /\ I s' h'
                   /\ (measure s' < measure s)%nat) ->
  forall fuel s h,
    I s h -> (measure s <= fuel)%nat ->
    exists s' h', while fuel cond body s h = (Returned s', h').
Proof.
  intros Hbody fuel. induction fuel as [|fuel IH]; intros s h Hi Hm;
    simpl; destruct (cond s) eqn:Hc; try (now eexists; eexists).
  - destruct (Hbody s h Hi Hc) as [s1 [h1 [_ [_ Hlt]]]]. lia.
  - destruct (Hbody s h Hi Hc) as [s1 [h1 [Hb [Hi1 Hlt]]]].
    rewrite (bind_run _ _ _ _ _ Hb). apply IH; [exact Hi1|lia].
Qed.

Lemma while_thrown {S : Type} (I : S -> Heap -> Prop)
    (P : string -> Heap -> Prop) (cond : S -> bool) (body : S -> M S) :
  (forall s h s' h',
      I s h -> cond s = true -> body s h = (Returned s', h') -> I s' h') ->
  (forall s h msg h',
      I s h -> cond s = true -> body s h = (Thrown msg, h') -> P msg h') ->
  forall fuel s h msg h',
    I s h -> while fuel cond body s h = (Thrown msg, h') -> P msg h'.
Proof.
  intros Hbody Hthrow fuel. induction fuel as [|fuel IH];
    intros s h msg h' Hi Hw; simpl in Hw; destruct (cond s) eqn:Hc;
    try discriminate Hw.
  apply bind_Thrown in Hw. destruct Hw as [Hw|[s1 [h1 [Hb Hw]]]].
  - eapply Hthrow; eassumption.
  - eapply IH; [|exact Hw]. eapply Hbody; eassumption.
Qed.

Lemma js_lt_of_Z_Fin (i : Z) (q : Q) :
  (of_Z i <? Fin q)%js = (i <? Qceiling q).
Proof.
  simpl. rewrite Z.ltb_antisym. f_equal.
  destruct (Z.leb_spec (Qceiling q) i) as [H|H].
  - apply Qle_bool_iff. apply Qle_trans with (inject_Z (Qceiling q)).
    + apply Qle_ceiling.
    + now rewrite <- Zle_Qle.
  - destruct (Qle_bool q (inject_Z i)) eqn:Hq; [|reflexivity].
    apply Qle_bool_iff in Hq. apply Qceiling_resp_le in Hq.
    rewrite Qceiling_Z in Hq. lia.
Qed.

Lemma js_le_Fin_of_Z (q : Q) (i : Z) :
  (Fin q <=? of_Z i)%js = (Qceiling q <=? i).
Proof.
  pose proof (js_lt_of_Z_Fin i q) as H. simpl in H. simpl.
  rewrite Z.ltb_antisym in H.
  destruct (Qle_bool q (inject_Z i)), (Qceiling q <=? i);
    simpl in H; congruence.
Qed.

(** *** Invariants of the drive engine *)

Lemma sum_points_snoc l o :
  sum_points (l ++ [o]) = sum_points l + Drive.points o.
Proof.
  unfold sum_points. induction l as [|x l IH]; simpl; [lia|].
  rewrite IH. lia.
Qed.

Lemma count_result_snoc r l o :
  count_result r (l ++ [o])
  = count_result r l + (if r (Drive.result o) then 1 else 0).
Proof.
  unfold count_result. rewrite filter_app, length_app. simpl.
  destruct (r (Drive.result o)); simpl; lia.
Qed.

Module DriveInv.
Import Drive.

Lemma drive_inv_empty : drive_inv empty_result.
Proof. unfold drive_inv. simpl. repeat split; try reflexivity; lia. Qed.

Lemma recordOutcome_inv team o st :
  outcome_wf o -> drive_inv st -> drive_inv (recordOutcome team o st).
Proof.
  intros Ho Hi. unfold drive_inv in *.
  destruct Hi as (H1 & H2 & H3 & H4 & H5 & H6 & H7 & H8 & H9 & H10).
  destruct team; unfold recordOutcome;
    cbn [homeScore awayScore homeDrives awayDrives summary
         homeTDs homeFGs awayTDs awayFGs] in *;
    rewrite ?sum_points_snoc, ?count_result_snoc;
    destruct Ho as [->|[->| ->]]; cbn [points result is_TD is_FG];
    repeat split; lia.
Qed.

Lemma recordOutcome_lengths team o st :
  (List.length (homeDrives (recordOutcome team o st)),
   List.length (awayDrives (recordOutcome team o st)))
  = match team with
    | home_team => (S (List.length (homeDrives st)), List.length (awayDrives st))
    | away_team => (List.length (homeDrives st), S (List.length (awayDrives st)))
    end.
Proof.
  destruct team; simpl; rewrite length_app; simpl; f_equal; lia.
Qed.

Section WithPlatform.

Variable Math_random : nat -> number.

Lemma simulateDrive_wf offense defense h o h' :
  simulateDrive Math_random offense defense h = (Returned o, h') ->
  outcome_wf o /\ (1 + draws h <= draws h')%nat.
Proof.
  intros H.
  destruct (proj2 (DriveFacts.simulateDrive_returned
                     Math_random offense defense h o h' H))
    as [[-> Hd]|[[->| ->] Hd]]; unfold outcome_wf; split; auto; lia.
Qed.

Lemma playRound_inv home away st h st' h' :
  drive_inv st ->
  playRound Math_random home away st h = (Returned st', h') ->
  drive_inv st'
  /\ List.length (homeDrives st') = S (List.length (homeDrives st))
  /\ List.length (awayDrives st') = S (List.length (awayDrives st)).
Proof.
  intros Hi H. unfold playRound in H.
  bind_inv H as o1 h1 Hd1.
  bind_inv H as o2 h2 Hd2.
  unfold ret in H.
  assert (Hs : st' = recordOutcome away_team o2 (recordOutcome home_team o1 st))
    by congruence.
  subst st'. clear H.
  apply simulateDrive_wf in Hd1, Hd2.
  pose proof (recordOutcome_lengths away_team o2
                (recordOutcome home_team o1 st)) as L2.
  pose proof (recordOutcome_lengths home_team o1 st) as L1.
  cbv iota in L1, L2.
  pose proof (f_equal fst L1) as L1a. pose proof (f_equal snd L1) as L1b.
  pose proof (f_equal fst L2) as L2a. pose proof (f_equal snd L2) as L2b.
  cbn [fst snd] in L1a, L1b, L2a, L2b.
  split; [|split; congruence].
  apply recordOutcome_inv; [apply Hd2|].
  apply recordOutcome_inv; [apply Hd1|exact Hi].
Qed.

End WithPlatform.
End DriveInv.

Module DriveLoops.
Import Drive DriveInv.

Section WithPlatform.

Variable Math_random : nat -> number.

Lemma round_step_inv home away s h s' h' :
  drive_inv (snd s) ->
  (st <- playRound Math_random home away (snd s) ;; ret (fst s + 1, st)) h
  = (Returned s', h') ->
  drive_inv (snd s') /\ fst s' = fst s + 1
  /\ List.length (homeDrives (snd s')) = S (List.length (homeDrives (snd s)))
  /\ List.length (awayDrives (snd s')) = S (List.length (awayDrives (snd s))).
Proof.
  intros Hi H. bind_inv H as st1 h1 Hp.
  unfold ret in H. assert (Hs : s' = (fst s + 1, st1)) by congruence.
  subst s'. cbn [fst snd].
  destruct (playRound_inv _ _ _ _ _ _ _ Hi Hp) as [H1 [H2 H3]]. auto.
Qed.

Lemma regulation_inv fuel home away d s h' h :
  regulation Math_random fuel home away d h = (Returned s, h') ->
  reg_inv d s h' /\ (of_Z (fst s) <? d)%js = false.
Proof.
  unfold regulation. apply (while_inv (reg_inv d)).
  - intros s0 h0 s1 h1 (Hi & H0 & Hh & Ha & _) Hc Hb.
    destruct (round_step_inv _ _ _ _ _ _ Hi Hb)
      as (Hi1 & Hf & Lh & La).
    unfold reg_inv. rewrite Hf, Lh, La, Hh, Ha.
    replace (fst s0 + 1 - 1) with (fst s0) by lia.
    split; [exact Hi1|]. split; [lia|]. split; [lia|]. split; [lia|].
    right. exact Hc.
  - unfold reg_inv. cbn [fst snd]. split; [apply drive_inv_empty|].
    split; [lia|]. split; [reflexivity|]. split; [reflexivity|].
    left; reflexivity.
Qed.

Lemma overtimeLoop_inv fuel home away config st0 s h h' :
  drive_inv st0 ->
  overtimeLoop Math_random fuel home away config st0 h = (Returned s, h') ->
  ot_inv st0 s h'.
Proof.
  intros Hi0 H. unfold overtimeLoop in H.
  eapply (while_inv (ot_inv st0)) in H; [exact (proj1 H)| |].
  - intros s0 h0 s1 h1 (Hi & H0 & Hh & Ha) Hc Hb.
    destruct (round_step_inv _ _ _ _ _ _ Hi Hb)
      as (Hi1 & Hf & Lh & La).
    unfold ot_inv. rewrite Hf, Lh, La, Hh, Ha.
    split; [exact Hi1|]. split; [lia|]. split; lia.
  - unfold ot_inv. cbn [fst snd]. split; [exact Hi0|].
    split; [lia|]. split; simpl; lia.
Qed.

(** What a returning call went through. *)
Lemma drive_body_returned fuel home away config s h h' :
  simulateGame_body Math_random fuel home away config h = (Returned s, h') ->
  (resolved_drivesPerTeam config >? of_Z 0)%js = true
  /\ exists reg h1,
       regulation Math_random fuel home away (resolved_drivesPerTeam config) h
       = (Returned reg, h1)
       /\ overtimeLoop Math_random fuel home away config (snd reg) h1
          = (Returned s, h').
Proof.
  unfold simulateGame_body.
  destruct (resolved_drivesPerTeam config >? of_Z 0)%js; simpl negb; cbv iota;
    [|discriminate].
  intros H. apply bind_Returned in H. destruct H as [reg [h1 [H1 H2]]].
  split; [reflexivity|]. now exists reg, h1.
Qed.

Lemma drive_simulateGame_returned fuel home away config r h h' :
  simulateGame Math_random fuel home away config h = (Returned r, h') ->
  exists roundsPlayed,
    simulateGame_body Math_random fuel home away config h
    = (Returned (roundsPlayed, r), h').
Proof.
  unfold simulateGame. intros H. apply bind_Returned in H.
  destruct H as [[n r'] [h1 [H1 H2]]]. unfold ret in H2. cbn [snd] in H2.
  exists n. congruence.
Qed.

Lemma drives_count (q : Q) (i : Z) :
  (0 < q)%Q -> 0 <= i ->
  (i = 0 \/ (of_Z (i - 1) <? Fin q)%js = true) ->
  (of_Z i <? Fin q)%js = false ->
  i = Qceiling q.
Proof.
  intros Hq Hi H1 H2. rewrite js_lt_of_Z_Fin in H2.
  apply Z.ltb_ge in H2.
  destruct H1 as [->|H1].
  - assert (0 < Qceiling q); [|lia].
    pose proof (Qlt_le_trans _ _ _ Hq (Qle_ceiling q)) as Hc.
    change 0%Q with (inject_Z 0) in Hc. now rewrite <- Zlt_Qlt in Hc.
  - rewrite js_lt_of_Z_Fin in H1. apply Z.ltb_lt in H1. lia.
Qed.

Lemma body_returned_facts fuel home away config rounds r h h' :
  simulateGame_body Math_random fuel home away config h
  = (Returned (rounds, r), h') ->
  drive_inv r /\ 0 <= rounds
  /\ exists q,
       resolved_drivesPerTeam config = Fin q /\ (0 < q)%Q
       /\ Z.of_nat (List.length (homeDrives r)) = Qceiling q + rounds
       /\ Z.of_nat (List.length (awayDrives r)) = Qceiling q + rounds.
Proof.
  intros H. apply drive_body_returned in H.
  destruct H as [Hd [[i st] [h1 [Hreg Hot]]]].
  apply regulation_inv in Hreg. destruct Hreg as [(Hi & H0 & Lh & La & Hp) Hc].
  cbn [fst snd] in *.
  apply overtimeLoop_inv in Hot; [|exact Hi].
  destruct Hot as (Hi' & H0' & Lh' & La'). cbn [fst snd] in *.
  split; [exact Hi'|]. split; [exact H0'|].
  destruct (resolved_drivesPerTeam config) as [| | |q] eqn:Ed;
    try discriminate Hd.
  - destruct Hp as [->|Hp]; discriminate.
  - exists q. split; [reflexivity|].
    assert (Hq : (0 < q)%Q).
    { unfold js_gt in Hd. simpl in Hd. apply negb_true_iff in Hd.
      destruct (Qlt_le_dec 0 q) as [Hl|Hl]; [exact Hl|].
      apply Qle_bool_iff in Hl. change (inject_Z 0) with 0%Q in Hd.
      congruence. }
    split; [exact Hq|].
    pose proof (drives_count q i Hq H0 Hp Hc) as ->.
    rewrite Lh', La', Lh, La. lia.
Qed.

End WithPlatform.
End DriveLoops.

Module DriveTotal.
Import Drive DriveInv DriveLoops.

Section WithPlatform.

Variable Math_random : nat -> number.

Lemma simulateDrive_returns offense defense h :
  (offense >? of_Z 0)%js = true -> (defense >? of_Z 0)%js = true ->
  exists o h', simulateDrive Math_random offense defense h = (Returned o, h').
Proof.
  intros Ho Hd.
  rewrite (DriveFacts.simulateDrive_valid_run Math_random _ _ h Ho Hd).
  match goal with |- context [if ?c then _ else _] => destruct c end;
    eexists; eexists; reflexivity.
Qed.

Lemma playRound_returns home away st h :
  drive_valid home = true -> drive_valid away = true ->
  exists st' h', playRound Math_random home away st h = (Returned st', h').
Proof.
  unfold drive_valid. intros Hh Ha.
  apply andb_true_iff in Hh, Ha. destruct Hh as [Hho Hhd], Ha as [Hao Had].
  unfold playRound.
  destruct (simulateDrive_returns _ _ h Hho Had) as [o1 [h1 H1]].
  rewrite (bind_run _ _ _ _ _ H1).
  destruct (simulateDrive_returns _ _ h1 Hao Hhd) as [o2 [h2 H2]].
  rewrite (bind_run _ _ _ _ _ H2).
  eexists; eexists; reflexivity.
Qed.

Lemma round_step_returns home away (s : Z * SimulationResult) h :
  drive_valid home = true -> drive_valid away = true ->
  exists st' h',
    (st <- playRound Math_random home away (snd s) ;; ret (fst s + 1, st)) h
    = (Returned (fst s + 1, st'), h').
Proof.
  intros Hh Ha.
  destruct (playRound_returns home away (snd s) h Hh Ha) as [st' [h' H]].
  exists st', h'. now rewrite (bind_run _ _ _ _ _ H).
Qed.

Lemma regulation_returns fuel home away (q : Q) h :
  drive_valid home = true -> drive_valid away = true ->
  (Z.to_nat (Qceiling q) <= fuel)%nat ->
  exists s h', regulation Math_random fuel home away (Fin q) h
               = (Returned s, h').
Proof.
  intros Hh Ha Hf. unfold regulation.
  apply (while_terminates (fun s _ => 0 <= fst s)
           (fun s => Z.to_nat (Qceiling q - fst s))).
  - intros s h0 H0 Hc. rewrite js_lt_of_Z_Fin in Hc. apply Z.ltb_lt in Hc.
    destruct (round_step_returns home away s h0 Hh Ha) as [st' [h' H]].
    eexists; eexists. split; [exact H|]. cbn [fst]. split; lia.
  - cbn [fst]. lia.
  - cbn [fst]. lia.
Qed.

Lemma drive_overtimeLoop_returns fuel home away config st h :
  drive_valid home = true -> drive_valid away = true ->
  (overtimeEnabled config = false \/
   exists m, maxOvertimeRounds config = Fin m
             /\ (Z.to_nat (Qceiling m) <= fuel)%nat) ->
  exists s h', overtimeLoop Math_random fuel home away config st h
               = (Returned s, h').
Proof.
  intros Hh Ha [He|[m [Hm Hf]]]; unfold overtimeLoop.
  - destruct fuel; simpl; rewrite He; simpl; eexists; eexists; reflexivity.
  - rewrite Hm.
    apply (while_terminates (fun s _ => 0 <= fst s)
             (fun s => Z.to_nat (Qceiling m - fst s))).
    + intros s h0 H0 Hc. apply andb_true_iff in Hc. destruct Hc as [_ Hc].
      apply negb_true_iff in Hc. simpl Number_isFinite in Hc.
      cbn [andb] in Hc. unfold js_ge in Hc. rewrite js_le_Fin_of_Z in Hc.
      apply Z.leb_gt in Hc.
      destruct (round_step_returns home away s h0 Hh Ha) as [st' [h' H]].
      eexists; eexists. split; [exact H|]. cbn [fst]. split; lia.
    + cbn [fst]. lia.
    + cbn [fst]. lia.
Qed.

Lemma round_step_not_thrown home away (s : Z * SimulationResult) h msg h' :
  drive_valid home = true -> drive_valid away = true ->
  (st <- playRound Math_random home away (snd s) ;; ret (fst s + 1, st)) h
  <> (Thrown msg, h').
Proof.
  intros Hh Ha.
  destruct (round_step_returns home away s h Hh Ha) as [st' [h1 H]].
  rewrite H. discriminate.
Qed.

Lemma simulateGame_not_thrown fuel home away config h msg h' :
  (resolved_drivesPerTeam config >? of_Z 0)%js = true ->
  drive_valid home = true -> drive_valid away = true ->
  simulateGame Math_random fuel home away config h <> (Thrown msg, h').
Proof.
  intros Hd Hh Ha H. unfold simulateGame in H.
  apply bind_Thrown in H. destruct H as [H|[a [h1 [_ H]]]]; [|discriminate H].
  unfold simulateGame_body in H. rewrite Hd in H. simpl negb in H.
  cbv iota in H. apply bind_Thrown in H.
  destruct H as [H|[reg [h1 [_ H]]]].
  - revert H. unfold regulation.
    apply (while_not_thrown (fun _ _ => True)); auto.
    intros; now apply round_step_not_thrown.
  - revert H. unfold overtimeLoop.
    apply (while_not_thrown (fun _ _ => True)); auto.
    intros; now apply round_step_not_thrown.
Qed.

End WithPlatform.
End DriveTotal.

(** *** Binary64 rounding *)

(** On every sample pair the four operations give the value that the
    Standard Library's IEEE 754 specification gives. *)
Lemma binary64_samples_agree :
  Forall (fun p => agrees_on (fst p) (snd p)) binary64_samples.
Proof.
  unfold binary64_samples.
  repeat (apply Forall_cons; [vm_compute; repeat split |]).
  apply Forall_nil.
Qed.

Lemma pow2_pos (e : Z) : (0 < pow2 e)%Q.
Proof.
  unfold pow2. destruct (0 <=? e) eqn:E.
  - apply Z.leb_le in E. unfold Qlt. simpl. rewrite Z.mul_1_r.
    apply Z.pow_pos_nonneg; lia.
  - reflexivity.
Qed.

Lemma Qrne_nonneg (x : Q) : (0 <= x)%Q -> 0 <= Qrne x.
Proof.
  intros H. unfold Qrne.
  assert (Hf : 0 <= Qfloor x).
  { change 0 with (Qfloor 0). now apply Qfloor_resp_le. }
  destruct (x - inject_Z (Qfloor x) ?= 1 # 2)%Q; [|lia|lia].
  destruct (Z.even (Qfloor x)); lia.
Qed.

Lemma Qrne_Z (x : Q) (k : Z) : (x == inject_Z k)%Q -> Qrne x = k.
Proof.
  intros H. unfold Qrne.
  assert (Hf : Qfloor x = k) by (rewrite H; apply Qfloor_Z).
  rewrite Hf.
  assert (Hc : (x - inject_Z k ?= 1 # 2)%Q = Lt).
  { apply Qlt_alt. rewrite H. unfold Qminus. rewrite Qplus_opp_r.
    reflexivity. }
  now rewrite Hc.
Qed.

(** [round64] depends on the value of the rational only. *)
Lemma round64_Qeq (x y : Q) : (x == y)%Q -> round64 x = round64 y.
Proof. intros H. unfold round64. now rewrite (Qred_complete x y H). Qed.

(** Rounding a value that is not negative gives no negative value. *)
Lemma round64_pos_not_negative (q : Q) :
  (0 <= q)%Q -> (round64_pos q <? of_Z 0)%js = false.
Proof.
  intros H. unfold round64_pos.
  set (e := Z.max (Qlog2 q) (-1022)).
  destruct ((1024 <=? e) || ((e =? 1023) && (Qrne (q * pow2 (52 - e)) =? 2 ^ 53)));
    [reflexivity|].
  unfold js_lt, of_Z. apply negb_false_iff. apply Qle_bool_iff.
  rewrite Qred_correct. change (inject_Z 0) with 0%Q.
  apply Qmult_le_0_compat; [|apply Qlt_le_weak, pow2_pos].
  change 0%Q with (inject_Z 0). rewrite <- Zle_Qle. apply Qrne_nonneg.
  apply Qmult_le_0_compat; [exact H|apply Qlt_le_weak, pow2_pos].
Qed.

Lemma round64_not_negative (q : Q) :
  (0 <= q)%Q -> (round64 q <? of_Z 0)%js = false.
Proof.
  intros H. unfold round64.
  assert (Hr : (0 <= Qred q)%Q) by now rewrite Qred_correct.
  destruct (Qred q) as [n d] eqn:E. cbn [Qnum].
  destruct n as [|p|p].
  - reflexivity.
  - now apply round64_pos_not_negative.
  - exfalso. unfold Qle in Hr. simpl in Hr. lia.
Qed.

(** Integers below [2^53] are binary64 values. *)
Lemma round64_of_Z (z : Z) :
  0 <= z < 2 ^ 53 -> round64 (inject_Z z) = of_Z z.
Proof.
  intros Hz. unfold round64. rewrite Qred_inject_Z.
  destruct z as [|p|p]; [reflexivity| |lia].
  change (Qnum (inject_Z (Z.pos p))) with (Z.pos p). cbv iota.
  set (z := Z.pos p) in *.
  assert (Hl : 0 <= Z.log2 z <= 52).
  { split; [apply Z.log2_nonneg|].
    assert (Z.log2 z < 53); [|lia].
    apply Z.log2_lt_pow2; lia. }
  assert (Hp : 2 ^ Z.log2 z <= z) by (apply Z.log2_spec; lia).
  assert (El : Qlog2 (inject_Z z) = Z.log2 z).
  { unfold Qlog2.
    change (Qnum (inject_Z z)) with z.
    change (Z.log2 (Z.pos (Qden (inject_Z z)))) with 0.
    rewrite Z.sub_0_r.
    assert (Hb : Qle_bool (pow2 (Z.log2 z)) (inject_Z z) = true).
    { apply Qle_bool_iff. unfold pow2.
      destruct (Z.leb_spec 0 (Z.log2 z)); [|lia].
      now rewrite <- Zle_Qle. }
    now rewrite Hb. }
  unfold round64_pos. rewrite El. rewrite Z.max_l by lia.
  set (e := Z.log2 z) in *.
  assert (Em : Qrne (inject_Z z * pow2 (52 - e)) = z * 2 ^ (52 - e)).
  { apply Qrne_Z. unfold pow2.
    destruct (Z.leb_spec 0 (52 - e)); [|lia].
    now rewrite inject_Z_mult. }
  rewrite Em.
  destruct (Z.leb_spec 1024 e); [lia|].
  destruct (Z.eqb_spec e 1023); [lia|]. cbn [orb andb].
  unfold of_Z. f_equal.
  rewrite <- (Qred_inject_Z z). apply Qred_complete.
  unfold pow2. destruct (Z.leb_spec 0 (e - 52)).
  - assert (e = 52) by lia. subst e.
    replace (52 - Z.log2 z) with 0 by lia.
    replace (Z.log2 z - 52) with 0 by lia.
    change (2 ^ 0) with 1. rewrite Z.mul_1_r. apply Qmult_1_r.
  - assert (Hk : 0 < 2 ^ (52 - e)) by (apply Z.pow_pos_nonneg; lia).
    replace (- (e - 52)) with (52 - e) by lia.
    unfold Qeq, Qmult, inject_Z. cbn [Qnum Qden].
    rewrite Pos.mul_1_l, Z2Pos.id by exact Hk. ring.
Qed.

Lemma Qlog2_inject_Z (z : Z) :
  0 < z -> Qlog2 (inject_Z z) = Z.log2 z.
Proof.
  intros Hz. unfold Qlog2.
  change (Qnum (inject_Z z)) with z.
  change (Z.log2 (Z.pos (Qden (inject_Z z)))) with 0.
  rewrite Z.sub_0_r.
  assert (Hb : Qle_bool (pow2 (Z.log2 z)) (inject_Z z) = true).
  { apply Qle_bool_iff. unfold pow2.
    destruct (Z.leb_spec 0 (Z.log2 z));
      [|pose proof (Z.log2_nonneg z); lia].
    rewrite <- Zle_Qle. apply Z.log2_spec. exact Hz. }
  now rewrite Hb.
Qed.

(** Rounding a natural number gives a natural number or [+Infinity]. *)
Lemma round64_whole (z : Z) : 0 <= z -> whole (round64 (inject_Z z)).
Proof.
  intros Hz. destruct (Z.ltb_spec z (2 ^ 53)) as [Hs|Hb].
  - rewrite round64_of_Z by lia. exists z. split; [exact Hz|reflexivity].
  - assert (Hp : 0 < z) by lia.
    assert (Hl : 53 <= Z.log2 z) by (apply Z.log2_le_pow2; lia).
    unfold round64. rewrite Qred_inject_Z.
    destruct z as [|p|p]; [lia| |lia].
    change (Qnum (inject_Z (Z.pos p))) with (Z.pos p). cbv iota.
    set (z := Z.pos p) in *.
    unfold round64_pos. rewrite Qlog2_inject_Z by exact Hp.
    rewrite Z.max_l by lia. set (e := Z.log2 z) in *.
    set (m := Qrne (inject_Z z * pow2 (52 - e))).
    destruct ((1024 <=? e) || ((e =? 1023) && (m =? 2 ^ 53)));
      [exact I|].
    assert (Hm : 0 <= m).
    { apply Qrne_nonneg. apply Qmult_le_0_compat.
      - change 0%Q with (inject_Z 0). rewrite <- Zle_Qle. lia.
      - apply Qlt_le_weak, pow2_pos. }
    exists (m * 2 ^ (e - 52)). split.
    + apply Z.mul_nonneg_nonneg; [exact Hm|].
      apply Z.pow_nonneg. lia.
    + rewrite Qred_correct. unfold pow2.
      destruct (Z.leb_spec 0 (e - 52)); [|lia].
      now rewrite inject_Z_mult.
Qed.

(** *** Binary64 addition and [===] *)

Lemma js_eq_sym (a b : number) : (a === b)%js = (b === a)%js.
Proof.
  destruct a as [| | |x], b as [| | |y]; try reflexivity.
  unfold js_eq. destruct (Qeq_bool x y) eqn:E.
  - apply Qeq_bool_iff in E. symmetry. apply Qeq_bool_iff. now symmetry.
  - symmetry. destruct (Qeq_bool y x) eqn:E'; [|reflexivity].
    apply Qeq_bool_iff in E'. symmetry in E'. apply Qeq_bool_iff in E'.
    congruence.
Qed.

Lemma js_eq_trans (a b c : number) :
  (a === b)%js = true -> (b === c)%js = true -> (a === c)%js = true.
Proof.
  destruct a as [| | |x], b as [| | |y], c as [| | |z];
    try discriminate; try reflexivity.
  unfold js_eq. intros H1 H2. apply Qeq_bool_iff in H1, H2.
  apply Qeq_bool_iff. now rewrite H1.
Qed.

Lemma js_eq_not_NaN (a b : number) :
  (a === b)%js = true -> Number_isNaN a = false /\ Number_isNaN b = false.
Proof. destruct a, b; try discriminate; auto. Qed.

(** Two numbers that are not [NaN] and not equal: one is greater. *)
Lemma js_neq_gt (a b : number) :
  Number_isNaN a = false -> Number_isNaN b = false ->
  (a === b)%js = false -> (a >? b)%js || (b >? a)%js = true.
Proof.
  destruct a as [| | |x], b as [| | |y]; try discriminate; try reflexivity.
  intros _ _. unfold js_eq, js_gt, js_lt. intros H.
  destruct (Qle_bool x y) eqn:E1; [|reflexivity].
  destruct (Qle_bool y x) eqn:E2; [|apply orb_true_r].
  exfalso. apply Qle_bool_iff in E1, E2.
  assert (Hq : (x == y)%Q) by now apply Qle_antisym.
  apply Qeq_bool_iff in Hq. congruence.
Qed.

(** Addition does not tell equal numbers apart. *)
Lemma add64_eq_l (a b c : number) :
  (a === b)%js = true -> (a +! c)%js = (b +! c)%js.
Proof.
  destruct a as [| | |x], b as [| | |y]; try discriminate; try reflexivity.
  unfold js_eq. intros H. apply Qeq_bool_iff in H.
  destruct c as [| | |z]; try reflexivity.
  unfold add64. apply round64_Qeq. now rewrite H.
Qed.

(** One point more on an integer score below [2^53 - 1]. *)
Lemma add64_one (a : number) (z : Z) :
  0 <= z < 2 ^ 53 - 1 -> (a === of_Z z)%js = true ->
  (a +! of_Z 1)%js = of_Z (z + 1).
Proof.
  intros Hz H. rewrite (add64_eq_l _ _ _ H).
  unfold add64, of_Z. rewrite <- inject_Z_plus.
  apply round64_of_Z. lia.
Qed.

(** Scores are never negative: what [Math.max(0, _)] gives, and sums of
    such values. *)
Lemma Math_max_0_not_negative (a : number) :
  (Math_max (of_Z 0) a <? of_Z 0)%js = false.
Proof.
  destruct a as [| | |x]; try reflexivity.
  unfold Math_max, of_Z. cbv iota. fold (of_Z 0).
  destruct (of_Z 0 <? Fin x)%js eqn:H; [|reflexivity].
  simpl in *. apply negb_true_iff in H. rewrite negb_false_iff.
  destruct (Qle_bool x (inject_Z 0)) eqn:Hx; [discriminate|].
  apply Qle_bool_iff. apply Qlt_le_weak. apply Qnot_le_lt.
  intros Hc. apply Qle_bool_iff in Hc. congruence.
Qed.

Lemma add64_not_negative (a b : number) :
  (a <? of_Z 0)%js = false -> (b <? of_Z 0)%js = false ->
  (a +! b <? of_Z 0)%js = false.
Proof.
  destruct a as [| | |x], b as [| | |y]; try reflexivity; try discriminate.
  unfold js_lt at 1 2. unfold of_Z. rewrite !negb_false_iff. intros Hx Hy.
  apply Qle_bool_iff in Hx, Hy. change (inject_Z 0) with 0%Q in *.
  unfold add64. apply round64_not_negative.
  apply (Qplus_le_compat 0 x 0 y); assumption.
Qed.

(** The values of scores: what [Math.max(0, Math.round(_))] gives, and
    sums of such values. *)
Lemma whole_max_round (a : number) :
  whole (Math_max (of_Z 0) (Math_round a)).
Proof.
  destruct a as [| | |x]; try exact I.
  - exists 0. split; [lia|reflexivity].
  - unfold Math_round, Math_max. unfold of_Z at 1 2. cbv iota.
    fold (of_Z 0). fold (of_Z (Qfloor (x + (1 # 2)))).
    rewrite js_lt_of_Z.
    destruct (Z.ltb_spec 0 (Qfloor (x + (1 # 2)))).
    + eexists. split; [|reflexivity]. lia.
    + exists 0. split; [lia|reflexivity].
Qed.

Lemma whole_add64 (a b : number) :
  whole a -> whole b -> whole (a +! b)%js.
Proof.
  destruct a as [| | |x], b as [| | |y]; try exact (fun _ _ => I);
    try contradiction.
  intros [zx [Hx Ex]] [zy [Hy Ey]]. unfold add64.
  rewrite (round64_Qeq (x + y) (inject_Z (zx + zy)))
    by (now rewrite Ex, Ey, inject_Z_plus).
  apply round64_whole. lia.
Qed.

Lemma fold_add64_snoc (l : list number) (x a : number) :
  fold_left add64 (l ++ [x]) a = (fold_left add64 l a +! x)%js.
Proof. now rewrite fold_left_app. Qed.

Lemma after_draws_add Math_random (n m : nat) (h : Heap) :
  after_draws Math_random m (after_draws Math_random n h)
  = after_draws Math_random (n + m) h.
Proof.
  revert h. induction n as [|n IH]; intros h; [reflexivity|].
  simpl. apply IH.
Qed.

Lemma nth_draw_after Math_random (n m : nat) (h : Heap) :
  nth_draw Math_random m (after_draws Math_random n h)
  = nth_draw Math_random (n + m) h.
Proof. unfold nth_draw. now rewrite after_draws_add. Qed.

Module ProjectionFacts.
Import Projection.

Lemma ensureNonNegative_run label value h :
  ensureNonNegative label value h
  = if nonNegative value then (Returned tt, h)
    else (Thrown (label ++ " debe ser un numero mayor o igual a 0.")%string, h).
Proof.
  unfold ensureNonNegative, nonNegative.
  destruct (Number_isFinite value), (value <? of_Z 0)%js; reflexivity.
Qed.

Lemma ensurePositive_run label value h :
  ensurePositive label value h
  = if positive value then (Returned tt, h)
    else (Thrown (label ++ " debe ser un numero mayor que 0.")%string, h).
Proof.
  unfold ensurePositive, positive.
  destruct (Number_isFinite value), (value <=? of_Z 0)%js; reflexivity.
Qed.

Lemma detail_inputs_valid_iff team opponent :
  detail_inputs_valid team opponent = true <->
  nonNegative (pointsPerGame team) = true
  /\ nonNegative (pointsAllowedPerGame team) = true
  /\ positive (yardsPerPlay team) = true
  /\ nonNegative (turnoverRate team) = true
  /\ nonNegative (pointsAllowedPerGame opponent) = true.
Proof.
  unfold detail_inputs_valid. rewrite !andb_true_iff. tauto.
Qed.

Section WithPlatform.

Variable Math_random : nat -> number.
Variables Math_log Math_cos Math_sqrt : number -> number.
Variable Math_PI : number.

Lemma rng_run h :
  rng Math_random h
  = (Returned (nth_draw Math_random 0 h), after_draws Math_random 1 h).
Proof. apply rng_call_run. Qed.

Lemma rng_not_thrown h msg h' : rng Math_random h <> (Thrown msg, h').
Proof. rewrite rng_run. discriminate. Qed.

Lemma resample_not_thrown fuel h msg h' :
  resample Math_random fuel h <> (Thrown msg, h').
Proof.
  unfold resample.
  apply (while_not_thrown (fun _ _ => True)); auto.
  intros; apply rng_not_thrown.
Qed.

(** The loop body runs at least once, since [u] starts at 0. *)
Lemma resample_returned fuel h u h' :
  resample Math_random fuel h = (Returned u, h') ->
  (u === of_Z 0)%js = false /\ (S (draws h) <= draws h')%nat
  /\ exists n, u = nth_draw Math_random n h.
Proof.
  unfold resample.
  intros H. destruct fuel as [|fuel]; [discriminate H|].
  simpl in H. bind_inv H as x h1 Hx.
  rewrite rng_run in Hx.
  assert (Ex : x = nth_draw Math_random 0 h) by congruence.
  assert (Eh : h1 = after_draws Math_random 1 h) by congruence.
  clear Hx.
  apply (while_inv (fun u hh =>
           (S (draws h) <= draws hh)%nat
           /\ exists n, u = nth_draw Math_random n h
                        /\ hh = after_draws Math_random (S n) h)) in H.
  - destruct H as [[Hd [n [Hn _]]] Hc]. eauto.
  - intros s h2 s' h3 [Hd [n [Hn Hh]]] _ Hb.
    rewrite rng_run in Hb.
    assert (s' = nth_draw Math_random 0 h2) by congruence.
    assert (h3 = after_draws Math_random 1 h2) by congruence.
    subst s' h3 h2. rewrite !draws_after_draws. split; [lia|].
    exists (S n). split.
    + rewrite nth_draw_after. f_equal. lia.
    + now rewrite (after_draws_add _ (S n) 1), Nat.add_1_r.
  - subst. rewrite draws_after_draws. split; [lia|]. now exists O.
Qed.


Lemma randomGaussian_not_thrown fuel mean stdDev h msg h' :
  randomGaussian Math_random Math_log Math_cos Math_sqrt Math_PI
    fuel mean stdDev h <> (Thrown msg, h').
Proof.
  unfold randomGaussian. intros H.
  apply bind_Thrown in H. destruct H as [H|[u [h1 [_ H]]]].
  - now apply resample_not_thrown in H.
  - apply bind_Thrown in H. destruct H as [H|[v [h2 [_ H]]]].
    + now apply resample_not_thrown in H.
    + discriminate H.
Qed.

Lemma randomGaussian_returned fuel mean stdDev h x h' :
  randomGaussian Math_random Math_log Math_cos Math_sqrt Math_PI
    fuel mean stdDev h = (Returned x, h') ->
  (2 + draws h <= draws h')%nat
  /\ exists n u v,
       u = nth_draw Math_random n h /\ (u === of_Z 0)%js = false
       /\ x = (mean +! Math_sqrt (of_Z (-2) *! Math_log u)
                       *! Math_cos (of_Z 2 *! Math_PI *! v)
                       *! Math_max stdDev (of_Z 0))%js.
Proof.
  unfold randomGaussian. intros H.
  bind_inv H as u h1 Hu.
  bind_inv H as v h2 Hv.
  apply resample_returned in Hu, Hv.
  destruct Hu as [Hu0 [Hud [n Hn]]], Hv as [Hv0 [Hvd _]].
  unfold ret in H.
  assert (h' = h2) by congruence. subst h2.
  split; [lia|]. exists n, u, v. split; [exact Hn|]. split; [exact Hu0|].
  congruence.
Qed.

Lemma calculateTeamDetail_valid fuel team opponent h :
  detail_inputs_valid team opponent = true ->
  calculateTeamDetail Math_random Math_log Math_cos Math_sqrt Math_PI
    fuel team opponent h
  = (variation <-
       randomGaussian Math_random Math_log Math_cos Math_sqrt Math_PI fuel
         (of_Z 0)
         (Math_max ONE_TENTH (yardsPerPlay team *! Fin (1 # 2))%js) ;;
     ret (detail_of team opponent variation)) h.
Proof.
  intros Hv. apply detail_inputs_valid_iff in Hv.
  destruct Hv as (H1 & H2 & H3 & H4 & H5).
  unfold calculateTeamDetail.
  unfold bind at 1. rewrite ensureNonNegative_run, H1.
  unfold bind at 1. rewrite ensureNonNegative_run, H2.
  unfold bind at 1. rewrite ensurePositive_run, H3.
  unfold bind at 1. rewrite ensureNonNegative_run, H4.
  unfold bind at 1. rewrite ensureNonNegative_run, H5.
  reflexivity.
Qed.

Lemma calculateTeamDetail_invalid fuel team opponent h :
  detail_inputs_valid team opponent = false ->
  exists msg,
    calculateTeamDetail Math_random Math_log Math_cos Math_sqrt Math_PI
      fuel team opponent h = (Thrown msg, h).
Proof.
  unfold detail_inputs_valid, calculateTeamDetail. intros Hv.
  unfold bind at 1. rewrite ensureNonNegative_run.
  destruct (nonNegative (pointsPerGame team)); [|eexists; reflexivity].
  unfold bind at 1. rewrite ensureNonNegative_run.
  destruct (nonNegative (pointsAllowedPerGame team)); [|eexists; reflexivity].
  unfold bind at 1. rewrite ensurePositive_run.
  destruct (positive (yardsPerPlay team)); [|eexists; reflexivity].
  unfold bind at 1. rewrite ensureNonNegative_run.
  destruct (nonNegative (turnoverRate team)); [|eexists; reflexivity].
  unfold bind at 1. rewrite ensureNonNegative_run.
  destruct (nonNegative (pointsAllowedPerGame opponent));
    [discriminate Hv|eexists; reflexivity].
Qed.

Lemma calculateTeamDetail_thrown fuel team opponent h msg h' :
  calculateTeamDetail Math_random Math_log Math_cos Math_sqrt Math_PI
    fuel team opponent h = (Thrown msg, h') ->
  detail_inputs_valid team opponent = false /\ h' = h.
Proof.
  intros H. destruct (detail_inputs_valid team opponent) eqn:Hv.
  - rewrite (calculateTeamDetail_valid _ _ _ _ Hv) in H.
    apply bind_Thrown in H. destruct H as [H|[x [h1 [_ H]]]].
    + now apply randomGaussian_not_thrown in H.
    + discriminate H.
  - destruct (calculateTeamDetail_invalid fuel _ _ h Hv) as [msg' Hm].
    split; [reflexivity|]. congruence.
Qed.

Lemma calculateTeamDetail_returned fuel team opponent h d h' :
  calculateTeamDetail Math_random Math_log Math_cos Math_sqrt Math_PI
    fuel team opponent h = (Returned d, h') ->
  detail_inputs_valid team opponent = true
  /\ (2 + draws h <= draws h')%nat
  /\ exists variation,
       d = detail_of team opponent variation
       /\ randomGaussian Math_random Math_log Math_cos Math_sqrt Math_PI fuel
            (of_Z 0)
            (Math_max ONE_TENTH (yardsPerPlay team *! Fin (1 # 2))%js) h
          = (Returned variation, h').
Proof.
  intros H. destruct (detail_inputs_valid team opponent) eqn:Hv.
  - rewrite (calculateTeamDetail_valid _ _ _ _ Hv) in H.
    bind_inv H as x h1 Hg.
    unfold ret in H. assert (h1 = h') by congruence. subst h1.
    split; [reflexivity|]. split.
    + apply (randomGaussian_returned _ _ _ _ _ _ Hg).
    + exists x. split; [congruence|exact Hg].
  - destruct (calculateTeamDetail_invalid fuel _ _ h Hv) as [msg' Hm].
    congruence.
Qed.

End WithPlatform.
End ProjectionFacts.

Lemma resolved_maxOtRounds_cap (config : Projection.GameConfig) :
  Projection.resolved_maxOtRounds config = of_Z (ot_cap config)
  /\ 0 <= ot_cap config.
Proof.
  unfold Projection.resolved_maxOtRounds, ot_cap.
  destruct (Projection.maxOtRounds config) as [[| | |m]|];
    try (split; [reflexivity|lia]).
  simpl Number_isFinite. cbv iota. split; [|lia].
  unfold Math_floor, Math_max, of_Z. fold (of_Z 0). fold (of_Z (Qfloor m)).
  rewrite js_lt_of_Z.
  destruct (Z.ltb_spec 0 (Qfloor m));
    [rewrite Z.max_r by lia|rewrite Z.max_l by lia]; reflexivity.
Qed.

Module ProjectionLoops.
Import Projection ProjectionFacts.

Section WithPlatform.

Variable Math_random : nat -> number.
Variables Math_log Math_cos Math_sqrt : number -> number.
Variable Math_PI : number.

Lemma simulateOtPoints_run fuel expectedReg ypp turnoverRate scale h :
  simulateOtPoints Math_random Math_log Math_cos Math_sqrt Math_PI
    fuel expectedReg ypp turnoverRate scale h
  = if nonNegative expectedReg then
      if positive ypp then
        if nonNegative turnoverRate then
          (variation <-
             randomGaussian Math_random Math_log Math_cos Math_sqrt Math_PI
               fuel (of_Z 0) (Math_max ONE_TENTH (ypp *! Fin (1 # 4))%js) ;;
           ret (ot_points_of expectedReg turnoverRate scale variation)) h
        else (Thrown "turnoverRate debe ser un numero mayor o igual a 0.", h)
      else (Thrown "ypp debe ser un numero mayor que 0.", h)
    else (Thrown "expectedReg debe ser un numero mayor o igual a 0.", h).
Proof.
  unfold simulateOtPoints.
  unfold bind at 1. rewrite ensureNonNegative_run.
  destruct (nonNegative expectedReg); [|reflexivity].
  unfold bind at 1. rewrite ensurePositive_run.
  destruct (positive ypp); [|reflexivity].
  unfold bind at 1. rewrite ensureNonNegative_run.
  destruct (nonNegative turnoverRate); reflexivity.
Qed.

Lemma simulateOtPoints_returned fuel expectedReg ypp turnoverRate scale
    h x h' :
  simulateOtPoints Math_random Math_log Math_cos Math_sqrt Math_PI
    fuel expectedReg ypp turnoverRate scale h = (Returned x, h') ->
  nonNegative expectedReg = true
  /\ (2 + draws h <= draws h')%nat
  /\ exists variation,
       x = ot_points_of expectedReg turnoverRate scale variation.
Proof.
  intros H. rewrite simulateOtPoints_run in H.
  destruct (nonNegative expectedReg); [|discriminate H].
  destruct (positive ypp); [|discriminate H].
  destruct (nonNegative turnoverRate); [|discriminate H].
  bind_inv H as v h1 Hg. unfold ret in H.
  assert (Eh : h1 = h') by congruence. subst h1.
  split; [reflexivity|]. split.
  - apply (randomGaussian_returned _ _ _ _ _ _ _ _ _ _ _ Hg).
  - exists v. congruence.
Qed.

(** With valid statistics, an overtime round can only fail on the
    expected points, and before it draws. *)
Lemma simulateOtPoints_thrown fuel expectedReg ypp turnoverRate scale
    h msg h' :
  positive ypp = true -> nonNegative turnoverRate = true ->
  simulateOtPoints Math_random Math_log Math_cos Math_sqrt Math_PI
    fuel expectedReg ypp turnoverRate scale h = (Thrown msg, h') ->
  nonNegative expectedReg = false /\ h' = h
  /\ msg = "expectedReg debe ser un numero mayor o igual a 0."%string.
Proof.
  intros H2 H3 H. rewrite simulateOtPoints_run, H2, H3 in H.
  destruct (nonNegative expectedReg).
  - apply bind_Thrown in H. destruct H as [H|[v [h1 [_ H]]]].
    + now apply randomGaussian_not_thrown in H.
    + discriminate H.
  - split; [reflexivity|]. split; congruence.
Qed.

Lemma ot_points_not_negative e t s v :
  (ot_points_of e t s v <? of_Z 0)%js = false.
Proof. apply Math_max_0_not_negative. Qed.

(** The expected points are the one input of the overtime rounds that the
    details did not validate. *)
Lemma detail_ot_inputs_valid team opponent variation :
  detail_inputs_valid team opponent = true ->
  nonNegative (expected_of team opponent) = true ->
  ot_inputs_valid team (detail_of team opponent variation).
Proof.
  intros H He. apply detail_inputs_valid_iff in H.
  destruct H as (H1 & H2 & H3 & H4 & H5). unfold ot_inputs_valid.
  split; [exact He|split; assumption].
Qed.

Lemma overtimeRound_returned fuel home away hd ad otScale cap l h l' h' :
  proj_inv hd ad cap l h -> roundsPlayed l < cap ->
  overtimeRound Math_random Math_log Math_cos Math_sqrt Math_PI
    fuel home away hd ad otScale l h = (Returned l', h') ->
  proj_inv hd ad cap l' h' /\ (4 + draws h <= draws h')%nat.
Proof.
  intros (I1 & I2 & I3 & I4 & I5 & I6 & I7 & I8) Hlt H.
  unfold overtimeRound in H.
  bind_inv H as x h1 Hx.
  bind_inv H as y h2 Hy.
  apply simulateOtPoints_returned in Hx.
  apply simulateOtPoints_returned in Hy.
  destruct Hx as (_ & Dx & vh & ->), Hy as (_ & Dy & va & ->).
  unfold ret in H.
  match type of H with (Returned ?L, _) = _ =>
    assert (El : l' = L) by congruence end.
  assert (Eh : h' = h2) by congruence.
  subst l' h'. clear H. split; [|lia]. unfold proj_inv.
  cbn [l_homeScore l_awayScore overtimePointsHome overtimePointsAway
       roundsPlayed l_tiebreakApplied].
  rewrite !fold_add64_snoc, <- I1, <- I2, !length_app.
  split; [reflexivity|]. split; [reflexivity|].
  split; [simpl; lia|]. split; [simpl; lia|]. split; [lia|].
  split; [exact I6|].
  split; apply add64_not_negative; auto using ot_points_not_negative.
Qed.

Lemma overtimeLoop_returned fuel home away hd ad otScale cap l0 h l1 h' :
  proj_inv hd ad cap l0 h ->
  overtimeLoop Math_random Math_log Math_cos Math_sqrt Math_PI
    fuel home away hd ad otScale (of_Z cap) l0 h = (Returned l1, h') ->
  proj_inv hd ad cap l1 h'
  /\ ((l_homeScore l1 === l_awayScore l1)%js = false
      \/ roundsPlayed l1 = cap).
Proof.
  intros Hi H. unfold overtimeLoop in H.
  apply (while_inv (proj_inv hd ad cap)) in H; [|clear H|exact Hi].
  - destruct H as [Hi1 Hc]. split; [exact Hi1|].
    apply andb_false_iff in Hc. destruct Hc as [Hc|Hc]; [now left|right].
    rewrite js_lt_of_Z in Hc. apply Z.ltb_ge in Hc.
    destruct Hi1 as (_ & _ & _ & _ & Hle & _). lia.
  - intros s h0 s' h1 Hs Hc Hb. apply andb_true_iff in Hc.
    destruct Hc as [_ Hc]. rewrite js_lt_of_Z in Hc. apply Z.ltb_lt in Hc.
    exact (proj1 (overtimeRound_returned _ _ _ _ _ _ _ _ _ _ _ Hs Hc Hb)).
Qed.

(** The scores stay natural numbers, [+Infinity] or [NaN]. *)
Lemma overtimeLoop_whole fuel home away hd ad otScale maxOt l0 h l1 h' :
  whole (l_homeScore l0) /\ whole (l_awayScore l0) ->
  overtimeLoop Math_random Math_log Math_cos Math_sqrt Math_PI
    fuel home away hd ad otScale maxOt l0 h = (Returned l1, h') ->
  whole (l_homeScore l1) /\ whole (l_awayScore l1).
Proof.
  intros H0 H. unfold overtimeLoop in H.
  apply (while_inv (fun l _ =>
           whole (l_homeScore l) /\ whole (l_awayScore l))) in H;
    [exact (proj1 H)| |exact H0].
  clear H. intros s h0 s' h1 [Wh Wa] _ Hb. unfold overtimeRound in Hb.
  bind_inv Hb as x h2 Hx.
  bind_inv Hb as y h3 Hy.
  apply simulateOtPoints_returned in Hx, Hy.
  destruct Hx as (_ & _ & vh & ->), Hy as (_ & _ & va & ->).
  unfold ret in Hb.
  match type of Hb with (Returned ?L, _) = _ =>
    assert (El : s' = L) by congruence end.
  subst s'. cbn [l_homeScore l_awayScore].
  split; (apply whole_add64; [assumption|apply whole_max_round]).
Qed.

(** A failing overtime loop: the statistics were validated with the
    details, so it fails on the expected points of one of the teams. *)
Lemma overtimeLoop_thrown fuel home away hd ad otScale maxOt l0 h msg h' :
  positive (yardsPerPlay home) = true ->
  nonNegative (turnoverRate home) = true ->
  positive (yardsPerPlay away) = true ->
  nonNegative (turnoverRate away) = true ->
  overtimeLoop Math_random Math_log Math_cos Math_sqrt Math_PI
    fuel home away hd ad otScale maxOt l0 h = (Thrown msg, h') ->
  (draws h <= draws h')%nat
  /\ (nonNegative (expectedPoints hd) = false
      \/ nonNegative (expectedPoints ad) = false)
  /\ msg = "expectedReg debe ser un numero mayor o igual a 0."%string.
Proof.
  intros A2 A3 B2 B3. unfold overtimeLoop.
  apply (while_thrown (fun _ hh => (draws h <= draws hh)%nat)
           (fun m hh =>
              (draws h <= draws hh)%nat
              /\ (nonNegative (expectedPoints hd) = false
                  \/ nonNegative (expectedPoints ad) = false)
              /\ m = "expectedReg debe ser un numero mayor o igual a 0."%string));
    [| |lia].
  - intros s h0 s' h1 Hd _ Hb. unfold overtimeRound in Hb.
    bind_inv Hb as x h2 Hx. bind_inv Hb as y h3 Hy.
    apply simulateOtPoints_returned in Hx, Hy.
    unfold ret in Hb. assert (h1 = h3) by congruence. subst h3.
    destruct Hx as (_ & Dx & _), Hy as (_ & Dy & _). lia.
  - intros s h0 m h1 Hd _ Hb. unfold overtimeRound in Hb.
    apply bind_Thrown in Hb. destruct Hb as [Hb|[x [h2 [Hx Hb]]]].
    + apply simulateOtPoints_thrown in Hb; try assumption.
      destruct Hb as (He & -> & ->). auto.
    + apply simulateOtPoints_returned in Hx. destruct Hx as (_ & Dx & _).
      apply bind_Thrown in Hb. destruct Hb as [Hb|[y [h3 [_ Hb]]]].
      * apply simulateOtPoints_thrown in Hb; try assumption.
        destruct Hb as (He & -> & ->). split; [lia|auto].
      * discriminate Hb.
Qed.

End WithPlatform.
End ProjectionLoops.

Module ProjectionResults.
Import Projection ProjectionFacts ProjectionLoops.

Section WithPlatform.

Variable Math_random : nat -> number.
Variables Math_log Math_cos Math_sqrt : number -> number.
Variable Math_PI : number.

(** What a returning call went through. *)
Lemma projection_body_returned fuel home away config l r h h' :
  simulateGame_body Math_random Math_log Math_cos Math_sqrt Math_PI
    fuel home away config h = (Returned (l, r), h') ->
  exists hd ad h1 h2,
    calculateTeamDetail Math_random Math_log Math_cos Math_sqrt Math_PI
      fuel home away h = (Returned hd, h1)
    /\ calculateTeamDetail Math_random Math_log Math_cos Math_sqrt Math_PI
         fuel away home h1 = (Returned ad, h2)
    /\ r = mkResult (l_homeScore l) (l_awayScore l)
             (with_overtimePoints hd (overtimePointsHome l))
             (with_overtimePoints ad (overtimePointsAway l))
             (overtime_field l)
    /\ let l0 := mkLocals (finalPoints hd) (finalPoints ad) [] [] 0 None in
       if negb (resolved_allowTies config)
          && (finalPoints hd === finalPoints ad)%js
       then exists l1,
              overtimeLoop Math_random Math_log Math_cos Math_sqrt Math_PI
                fuel home away hd ad (resolved_otScale config)
                (resolved_maxOtRounds config) l0 h2 = (Returned l1, h')
              /\ l = applyTiebreak (resolved_tiebreakPolicy config) hd ad l1
       else l = l0 /\ h' = h2.
Proof.
  unfold simulateGame_body. intros H.
  bind_inv H as hd h1 Hh.
  bind_inv H as ad h2 Ha.
  bind_inv H as l' h3 Hl.
  unfold ret in H.
  assert (E1 : l' = l) by congruence. assert (E2 : h3 = h') by congruence.
  subst l' h3.
  exists hd, ad, h1, h2. split; [exact Hh|]. split; [exact Ha|].
  split; [congruence|]. cbv zeta.
  cbn [l_homeScore l_awayScore] in Hl.
  destruct (negb (resolved_allowTies config)
            && (finalPoints hd === finalPoints ad)%js).
  - bind_inv Hl as l1 h4 Ho.
    unfold ret in Hl. exists l1. split; congruence.
  - unfold ret in Hl. split; congruence.
Qed.


(** The variables a returning call ends with: [l1] holds them as the
    overtime loop left them (or as regulation did, when no overtime was
    played), and the tiebreak block, which only acts on a tie, gives the
    final ones. *)
Lemma simulateGame_body_facts fuel home away config l r h h' :
  simulateGame_body Math_random Math_log Math_cos Math_sqrt Math_PI
    fuel home away config h = (Returned (l, r), h') ->
  exists hd ad l1,
    detail_inputs_valid home away = true
    /\ detail_inputs_valid away home = true
    /\ (exists vh, hd = detail_of home away vh)
    /\ (exists va, ad = detail_of away home va)
    /\ r = mkResult (l_homeScore l) (l_awayScore l)
             (with_overtimePoints hd (overtimePointsHome l))
             (with_overtimePoints ad (overtimePointsAway l))
             (overtime_field l)
    /\ proj_inv hd ad (ot_cap config) l1 h'
    /\ l = (if resolved_allowTies config then l1
            else applyTiebreak (resolved_tiebreakPolicy config) hd ad l1)
    /\ (resolved_allowTies config = false ->
        (l_homeScore l1 === l_awayScore l1)%js = true ->
        roundsPlayed l1 = ot_cap config)
    /\ (resolved_allowTies config = true -> roundsPlayed l1 = 0)
    /\ (4 + draws h <= draws h')%nat
    /\ whole (l_homeScore l1) /\ whole (l_awayScore l1).
Proof.
  intros H. apply projection_body_returned in H.
  destruct H as (hd & ad & h1 & h2 & Hh & Ha & Hr & Hl).
  pose proof (calculateTeamDetail_returned _ _ _ _ _ _ _ _ _ _ _ Hh)
    as (Vh & Dh & vh & Eh & Gh).
  pose proof (calculateTeamDetail_returned _ _ _ _ _ _ _ _ _ _ _ Ha)
    as (Va & Da & va & Ea & Ga).
  pose proof (resolved_maxOtRounds_cap config) as [Ecap Hcap].
  set (l0 := mkLocals (finalPoints hd) (finalPoints ad) [] [] 0 None) in *.
  assert (I0 : forall hh, proj_inv hd ad (ot_cap config) l0 hh).
  { intros hh. unfold proj_inv, l0.
    cbn [l_homeScore l_awayScore overtimePointsHome overtimePointsAway
         roundsPlayed l_tiebreakApplied fold_left List.length].
    subst hd ad. unfold detail_of. cbn [finalPoints].
    split; [reflexivity|]. split; [reflexivity|].
    split; [reflexivity|]. split; [reflexivity|].
    split; [exact Hcap|]. split; [reflexivity|].
    split; apply Math_max_0_not_negative. }
  assert (W0 : whole (l_homeScore l0) /\ whole (l_awayScore l0)).
  { unfold l0. cbn [l_homeScore l_awayScore]. subst hd ad.
    unfold detail_of. cbn [finalPoints]. split; apply whole_max_round. }
  exists hd, ad.
  destruct (resolved_allowTies config) eqn:At.
  - (* ties allowed: no overtime block *)
    cbn [negb andb] in Hl. destruct Hl as [-> ->].
    exists l0.
    split; [exact Vh|]. split; [exact Va|].
    split; [now exists vh|]. split; [now exists va|]. split; [exact Hr|].
    split; [apply I0|]. split; [reflexivity|]. split; [discriminate|].
    split; [reflexivity|]. split; [lia|exact W0].
  - cbn [negb andb] in Hl.
    destruct (finalPoints hd === finalPoints ad)%js eqn:Tie.
    + destruct Hl as [l1 [Ho ->]]. rewrite Ecap in Ho.
      pose proof (overtimeLoop_returned _ _ _ _ _ _ _ _ _ _ _ _ _ _ _ _
                    (I0 h2) Ho) as [I1 Hexit].
      exists l1.
      split; [exact Vh|]. split; [exact Va|].
      split; [now exists vh|]. split; [now exists va|]. split; [exact Hr|].
      split; [exact I1|]. split; [reflexivity|].
      split; [|split; [|split]].
      4:{ exact (overtimeLoop_whole _ _ _ _ _ _ _ _ _ _ _ _ _ _ _ _
                   W0 Ho). }
      * intros _ Ht. destruct Hexit as [Hf|Hc]; [congruence|exact Hc].
      * discriminate.
      * assert (draws h2 <= draws h')%nat; [|lia].
        clear - Ho. unfold overtimeLoop in Ho.
        apply (while_inv (fun _ hh => (draws h2 <= draws hh)%nat)) in Ho;
          [exact (proj1 Ho)| |lia].
        intros s h0 s' h3 Hd _ Hb. unfold overtimeRound in Hb.
        bind_inv Hb as x h4 Hx.
        bind_inv Hb as y h5 Hy.
        unfold ret in Hb. assert (h3 = h5) by congruence. subst h5.
        apply simulateOtPoints_returned in Hx, Hy.
        destruct Hx as (_ & Dx & _), Hy as (_ & Dy & _). lia.
    + destruct Hl as [-> ->].
      exists l0.
      split; [exact Vh|]. split; [exact Va|].
      split; [now exists vh|]. split; [now exists va|]. split; [exact Hr|].
      split; [apply I0|].
      split; [|split; [|split; [discriminate|split; [lia|exact W0]]]].
      * unfold applyTiebreak, l0. cbn [l_homeScore l_awayScore].
        now rewrite Tie.
      * unfold l0. cbn [l_homeScore l_awayScore]. congruence.
Qed.

End WithPlatform.
End ProjectionResults.

(** *** The drive engine: results *)

Module DriveResults.
Import Drive DriveInv DriveLoops DriveTotal.

(** C9.  In every result of the drive engine the summary counters agree
    with the scores: each score is 7 times the team's touchdowns plus 3
    times its field goals, and each counter is the number of drives of
    that kind in the team's drive list, overtime drives included. *)
Theorem summary_consistent_with_scores
    (Math_random : nat -> number) (fuel : nat) (home away : TeamStats)
    (config : GameConfig) (pos : nat) (r : SimulationResult) (h' : Heap) :
  run_simulateGame Math_random fuel home away config pos = (Returned r, h') ->
  homeScore r = 7 * homeTDs (summary r) + 3 * homeFGs (summary r)
  /\ awayScore r = 7 * awayTDs (summary r) + 3 * awayFGs (summary r)
  /\ homeTDs (summary r) = count_result is_TD (homeDrives r)
  /\ homeFGs (summary r) = count_result is_FG (homeDrives r)
  /\ awayTDs (summary r) = count_result is_TD (awayDrives r)
  /\ awayFGs (summary r) = count_result is_FG (awayDrives r).
Proof.
  unfold run_simulateGame. intros H.
  apply drive_simulateGame_returned in H. destruct H as [n H].
  apply body_returned_facts in H. destruct H as [Hi _].
  destruct Hi as (H1 & H2 & H3 & H4 & H5 & H6 & H7 & H8 & H9 & H10).
  repeat split; assumption.
Qed.

Lemma example_run :
  run_simulateGame (fun _ => NaN) 12 drive_home drive_away
    drive_config 0
  = (Returned drive_result, mkHeap (Lcg (of_Z 1965890610)) 0 35).
Proof. vm_compute. reflexivity. Qed.

Lemma summary_consistent_with_scores_witness :
  homeScore drive_result = 41 /\ awayScore drive_result = 20
  /\ homeScore drive_result
     = 7 * homeTDs (summary drive_result)
       + 3 * homeFGs (summary drive_result).
Proof.
  split; [reflexivity|]. split; [reflexivity|].
  exact (proj1 (summary_consistent_with_scores _ _ _ _ _ _ _ _ example_run)).
Defined.

(** C10.  A positive [drivesPerTeam] that is not an integer is accepted:
    with valid team statistics the regulation loop plays [ceil(d)] rounds,
    leaving [ceil(d)] drives in each list, and the call does not fail;
    when the overtime loop is off or capped the call returns, with
    [ceil(d)] drives per team plus one per overtime round. *)
Theorem fractional_drivesPerTeam_plays_ceiling
    (Math_random : nat -> number) (fuel : nat) (home away : TeamStats)
    (config : GameConfig) (pos : nat) (d : Q) :
  drivesPerTeam config = Some (Fin d) -> (0 < d)%Q ->
  drive_valid home = true -> drive_valid away = true ->
  (Z.to_nat (Qceiling d) <= fuel)%nat ->
  let h0 := initial_heap (seed config) pos in
  (exists st h1,
      regulation Math_random fuel home away (Fin d) h0
      = (Returned (Qceiling d, st), h1)
      /\ List.length (homeDrives st) = Z.to_nat (Qceiling d)
      /\ List.length (awayDrives st) = Z.to_nat (Qceiling d))
  /\ (forall msg h',
        run_simulateGame Math_random fuel home away config pos
        <> (Thrown msg, h'))
  /\ (overtimeEnabled config = false \/
      (exists m, maxOvertimeRounds config = Fin m
                 /\ (Z.to_nat (Qceiling m) <= fuel)%nat) ->
      exists roundsPlayed r h',
        simulateGame_body Math_random fuel home away config h0
        = (Returned (roundsPlayed, r), h')
        /\ run_simulateGame Math_random fuel home away config pos
           = (Returned r, h')
        /\ Z.of_nat (List.length (homeDrives r)) = Qceiling d + roundsPlayed
        /\ Z.of_nat (List.length (awayDrives r)) = Qceiling d + roundsPlayed).
Proof.
  intros Hd Hq Hh Ha Hf h0.
  assert (Hres : resolved_drivesPerTeam config = Fin d)
    by (unfold resolved_drivesPerTeam; now rewrite Hd).
  assert (Hpos : (resolved_drivesPerTeam config >? of_Z 0)%js = true).
  { rewrite Hres. unfold js_gt. simpl. apply negb_true_iff.
    destruct (Qle_bool d (inject_Z 0)) eqn:E; [|reflexivity].
    apply Qle_bool_iff in E. apply Qle_not_lt in E. contradiction. }
  destruct (regulation_returns Math_random fuel home away d h0 Hh Ha Hf)
    as [[i st] [h1 Hreg]].
  pose proof (regulation_inv _ _ _ _ _ _ _ _ Hreg)
    as [(Hi & H0 & Lh & La & Hp) Hc].
  cbn [fst snd] in *.
  pose proof (drives_count d i Hq H0 Hp Hc) as ->.
  split; [now exists st, h1|]. split.
  - intros msg h'. unfold run_simulateGame.
    now apply simulateGame_not_thrown.
  - intros Hot.
    destruct (drive_overtimeLoop_returns Math_random fuel home away config st h1
                Hh Ha Hot) as [[n r] [h' Ho]].
    assert (Hb : simulateGame_body Math_random fuel home away config h0
                 = (Returned (n, r), h')).
    { unfold simulateGame_body. cbv zeta. rewrite Hpos. cbn [negb].
      rewrite Hres. now rewrite (bind_run _ _ _ _ _ Hreg). }
    exists n, r, h'. split; [exact Hb|]. split.
    + unfold run_simulateGame, simulateGame. fold h0.
      now rewrite (bind_run _ _ _ _ _ Hb).
    + apply body_returned_facts in Hb.
      destruct Hb as (_ & _ & q & Eq & _ & L1 & L2).
      rewrite Hres in Eq. injection Eq as <-. now split.
Qed.

Lemma fractional_drivesPerTeam_plays_ceiling_witness :
  exists st h1,
    regulation (fun _ => NaN) 3 drive_home drive_away (Fin (5 # 2))
      (initial_heap (seed drive_fractional_config) 0)
    = (Returned (3, st), h1)
    /\ List.length (homeDrives st) = 3%nat
    /\ List.length (awayDrives st) = 3%nat.
Proof.
  exact (proj1 (fractional_drivesPerTeam_plays_ceiling (fun _ => NaN) 3
                  drive_home drive_away drive_fractional_config 0 (5 # 2)
                  eq_refl eq_refl eq_refl eq_refl (Nat.le_refl 3))).
Defined.

End DriveResults.

(** *** The projection engine: results *)

Module ProjectionClaims.
Import Projection ProjectionFacts ProjectionLoops ProjectionResults.

Lemma applyTiebreak_no_tie policy hd ad l :
  (l_homeScore l === l_awayScore l)%js = false ->
  applyTiebreak policy hd ad l = l.
Proof. intros H. unfold applyTiebreak. now rewrite H. Qed.

Lemma applyTiebreak_tie policy hd ad l :
  (l_homeScore l === l_awayScore l)%js = true ->
  applyTiebreak policy hd ad l
  = if tiebreak_home policy hd ad
    then mkLocals (l_homeScore l +! of_Z 1)%js (l_awayScore l)
           (overtimePointsHome l) (overtimePointsAway l) (roundsPlayed l)
           (Some policy)
    else mkLocals (l_homeScore l) (l_awayScore l +! of_Z 1)%js
           (overtimePointsHome l) (overtimePointsAway l) (roundsPlayed l)
           (Some policy).
Proof.
  intros H. unfold applyTiebreak, tiebreak_home. rewrite H.
  destruct policy; [|reflexivity].
  destruct (expectedPoints hd >? expectedPoints ad)%js; [reflexivity|].
  now destruct (expectedPoints ad >? expectedPoints hd)%js.
Qed.

Lemma tiebreak_of_overtime_field hs as_ hd ad l :
  tiebreak_of (mkResult hs as_ hd ad (overtime_field l))
  = l_tiebreakApplied l.
Proof.
  unfold tiebreak_of, overtime_field. cbn [overtime].
  destruct (0 <? roundsPlayed l); cbn [orb].
  - reflexivity.
  - now destruct (l_tiebreakApplied l).
Qed.

Lemma tiebreak_home_with_ot policy hd ad x y :
  tiebreak_home policy (with_overtimePoints hd x) (with_overtimePoints ad y)
  = tiebreak_home policy hd ad.
Proof. now destruct policy. Qed.

Lemma running_score_with_ot d ot :
  running_score (with_overtimePoints d ot)
  = fold_left add64 ot (finalPoints d).
Proof. reflexivity. Qed.

Section WithPlatform.

Variable Math_random : nat -> number.
Variables Math_log Math_cos Math_sqrt : number -> number.
Variable Math_PI : number.

Lemma projection_simulateGame_returned fuel home away config r h h' :
  simulateGame Math_random Math_log Math_cos Math_sqrt Math_PI
    fuel home away config h = (Returned r, h') ->
  exists l,
    simulateGame_body Math_random Math_log Math_cos Math_sqrt Math_PI
      fuel home away config h = (Returned (l, r), h').
Proof.
  unfold simulateGame. intros H. apply bind_Returned in H.
  destruct H as [[l r'] [h1 [H1 H2]]]. unfold ret in H2. cbn [snd] in H2.
  exists l. congruence.
Qed.

(** The final variables of a returning call, by cases: no tiebreak (the
    scores are those the overtime loop left), or a tie after the capped
    overtime rounds, to which the policy added one point. *)
Lemma final_locals fuel home away config l r h h' :
  simulateGame_body Math_random Math_log Math_cos Math_sqrt Math_PI
    fuel home away config h = (Returned (l, r), h') ->
  exists hd ad l1,
    r = mkResult (l_homeScore l) (l_awayScore l)
          (with_overtimePoints hd (overtimePointsHome l))
          (with_overtimePoints ad (overtimePointsAway l))
          (overtime_field l)
    /\ proj_inv hd ad (ot_cap config) l1 h'
    /\ overtimePointsHome l = overtimePointsHome l1
    /\ overtimePointsAway l = overtimePointsAway l1
    /\ roundsPlayed l = roundsPlayed l1
    /\ (whole (l_homeScore l1) /\ whole (l_awayScore l1))
    /\ ((l = l1
         /\ negb (resolved_allowTies config)
            && (l_homeScore l1 === l_awayScore l1)%js = false
         /\ (resolved_allowTies config = true -> roundsPlayed l1 = 0))
        \/ (resolved_allowTies config = false
            /\ (l_homeScore l1 === l_awayScore l1)%js = true
            /\ roundsPlayed l1 = ot_cap config
            /\ l = if tiebreak_home (resolved_tiebreakPolicy config) hd ad
                   then mkLocals (l_homeScore l1 +! of_Z 1)%js
                          (l_awayScore l1)
                          (overtimePointsHome l1) (overtimePointsAway l1)
                          (roundsPlayed l1)
                          (Some (resolved_tiebreakPolicy config))
                   else mkLocals (l_homeScore l1)
                          (l_awayScore l1 +! of_Z 1)%js
                          (overtimePointsHome l1) (overtimePointsAway l1)
                          (roundsPlayed l1)
                          (Some (resolved_tiebreakPolicy config)))).
Proof.
  intros H. apply simulateGame_body_facts in H.
  destruct H
    as (hd & ad & l1 & _ & _ & _ & _ & Hr & I1 & El & Hcap & Hz & _ & Hw).
  exists hd, ad, l1. split; [exact Hr|]. split; [exact I1|].
  destruct (resolved_allowTies config) eqn:At.
  - subst l. split; [reflexivity|]. split; [reflexivity|].
    split; [reflexivity|]. split; [exact Hw|].
    left. split; [reflexivity|].
    split; [reflexivity|exact Hz].
  - destruct (l_homeScore l1 === l_awayScore l1)%js eqn:Tie.
    + rewrite applyTiebreak_tie in El by exact Tie.
      assert (E3 : overtimePointsHome l = overtimePointsHome l1
                   /\ overtimePointsAway l = overtimePointsAway l1
                   /\ roundsPlayed l = roundsPlayed l1).
      { rewrite El. now destruct (tiebreak_home _ hd ad). }
      destruct E3 as (E3 & E4 & E5).
      split; [exact E3|]. split; [exact E4|]. split; [exact E5|].
      split; [exact Hw|].
      right. split; [reflexivity|]. split; [reflexivity|].
      split; [now apply Hcap|exact El].
    + rewrite applyTiebreak_no_tie in El by exact Tie. subst l.
      split; [reflexivity|]. split; [reflexivity|].
      split; [reflexivity|]. split; [exact Hw|].
      left. split; [reflexivity|].
      split; [reflexivity|discriminate].
Qed.

(** C7.  In every result of the projection engine the [overtime] field is
    present exactly when at least one overtime round was played (the
    details then hold one overtime value per team and round) or the
    tiebreak was applied (ties are not allowed and the scores accumulated
    over regulation and the rounds are equal).  When present it carries
    the number of rounds, the points of the rounds and the policy applied,
    and these are the final values of the variables [roundsPlayed] and
    [tiebreakApplied] of the call. *)
Theorem overtime_present_iff (fuel : nat) (home away : TeamStats)
    (config : GameConfig) (pos : nat) (r : SimulationResult) (h' : Heap) :
  run_simulateGame Math_random Math_log Math_cos Math_sqrt Math_PI
    fuel home away config pos = (Returned r, h') ->
  let played := List.length (overtimePoints (homeDetail r)) in
  let tied :=
    negb (resolved_allowTies config)
    && (running_score (homeDetail r) === running_score (awayDetail r))%js in
  let applied :=
    if tied then Some (resolved_tiebreakPolicy config) else None in
  List.length (overtimePoints (awayDetail r)) = played
  /\ (overtime r <> None <-> (0 < played)%nat \/ tied = true)
  /\ (forall o, overtime r = Some o ->
        o = mkOvertimeResult (Z.of_nat played)
              (overtimePoints (homeDetail r)) (overtimePoints (awayDetail r))
              applied)
  /\ exists l,
       simulateGame_body Math_random Math_log Math_cos Math_sqrt Math_PI
         fuel home away config (initial_heap (seed config) pos)
       = (Returned (l, r), h')
       /\ roundsPlayed l = Z.of_nat played
       /\ l_tiebreakApplied l = applied.
Proof.
  unfold run_simulateGame. intros H.
  apply projection_simulateGame_returned in H. destruct H as [l H].
  pose proof (final_locals _ _ _ _ _ _ _ _ H)
    as (hd & ad & l1 & Er & I1 & E3 & E4 & E5 & _ & Hl).
  destruct I1 as (S1 & S2 & R1 & R2 & _ & Tb & _ & _).
  assert (Ep : overtimePoints (homeDetail r) = overtimePointsHome l1)
    by (rewrite Er; exact E3).
  assert (Eq : overtimePoints (awayDetail r) = overtimePointsAway l1)
    by (rewrite Er; exact E4).
  assert (Eh : running_score (homeDetail r) = l_homeScore l1).
  { rewrite Er. cbn [homeDetail]. rewrite running_score_with_ot, E3.
    now rewrite S1. }
  assert (Ea : running_score (awayDetail r) = l_awayScore l1).
  { rewrite Er. cbn [awayDetail]. rewrite running_score_with_ot, E4.
    now rewrite S2. }
  cbv zeta. rewrite Ep, Eq, Eh, Ea.
  assert (Et : l_tiebreakApplied l
               = if negb (resolved_allowTies config)
                    && (l_homeScore l1 === l_awayScore l1)%js
                 then Some (resolved_tiebreakPolicy config) else None).
  { destruct Hl as [(-> & Hn & _)|(At & Tie & _ & ->)].
    - now rewrite Hn.
    - rewrite At, Tie. cbn [negb andb].
      now destruct (tiebreak_home _ hd ad). }
  assert (Eo : overtime r = overtime_field l) by now rewrite Er.
  assert (Ef : overtime_field l
               = if (0 <? roundsPlayed l1)
                    || negb (resolved_allowTies config)
                       && (l_homeScore l1 === l_awayScore l1)%js
                 then Some (mkOvertimeResult (roundsPlayed l1)
                              (overtimePointsHome l1) (overtimePointsAway l1)
                              (l_tiebreakApplied l))
                 else None).
  { unfold overtime_field. rewrite E3, E4, E5, Et.
    now destruct (negb (resolved_allowTies config)
                  && (l_homeScore l1 === l_awayScore l1)%js). }
  rewrite Eo, Ef, Et.
  set (tied := negb (resolved_allowTies config)
               && (l_homeScore l1 === l_awayScore l1)%js) in *.
  split; [lia|]. split; [|split].
  - destruct (Z.ltb_spec 0 (roundsPlayed l1)) as [Hp|Hp]; cbn [orb].
    + split; [intros _; left; lia|discriminate].
    + destruct tied.
      * split; [auto|discriminate].
      * split; [intros Hc; now contradiction Hc|].
        intros [Hc|Hc]; [lia|discriminate].
  - intros o Ho. destruct ((0 <? roundsPlayed l1) || tied);
      [|discriminate Ho].
    rewrite <- R1. congruence.
  - exists l. split; [exact H|]. split; [lia|exact Et].
Qed.

(** The scores of a result in terms of its details. *)
Lemma projection_score_parts fuel home away config l r h h' :
  simulateGame_body Math_random Math_log Math_cos Math_sqrt Math_PI
    fuel home away config h = (Returned (l, r), h') ->
  homeScore r
  = with_bonus (running_score (homeDetail r)) (fst (tiebreakBonus r))
  /\ awayScore r
     = with_bonus (running_score (awayDetail r)) (snd (tiebreakBonus r))
  /\ (homeScore r <? of_Z 0)%js = false
  /\ (awayScore r <? of_Z 0)%js = false.
Proof.
  intros H. apply final_locals in H.
  destruct H as (hd & ad & l1 & -> & I1 & E3 & E4 & _ & _ & Hl).
  destruct I1 as (S1 & S2 & _ & _ & _ & Tb & N1 & N2).
  unfold tiebreakBonus. rewrite tiebreak_of_overtime_field.
  cbn [homeScore awayScore homeDetail awayDetail].
  rewrite !running_score_with_ot, E3, E4, <- S1, <- S2.
  destruct Hl as [(-> & _ & _)|(_ & Tie & _ & ->)].
  - rewrite Tb. cbn [fst snd with_bonus]. auto.
  - destruct (tiebreak_home (resolved_tiebreakPolicy config) hd ad) eqn:Th;
      cbn [l_homeScore l_awayScore l_tiebreakApplied];
      rewrite tiebreak_home_with_ot, Th; cbn [fst snd with_bonus].
    + repeat split; auto.
      apply add64_not_negative; [exact N1|reflexivity].
    + repeat split; auto.
      apply add64_not_negative; [exact N2|reflexivity].
Qed.

(** Where a failing call stops. *)
Lemma projection_simulateGame_thrown fuel home away config h msg h' :
  simulateGame Math_random Math_log Math_cos Math_sqrt Math_PI
    fuel home away config h = (Thrown msg, h') ->
  (detail_inputs_valid home away = false /\ h' = h)
  \/ (detail_inputs_valid home away = true
      /\ detail_inputs_valid away home = false
      /\ (2 + draws h <= draws h')%nat)
  \/ (detail_inputs_valid home away = true
      /\ detail_inputs_valid away home = true
      /\ resolved_allowTies config = false
      /\ (4 + draws h <= draws h')%nat
      /\ (nonNegative (expected_of home away) = false
          \/ nonNegative (expected_of away home) = false)
      /\ msg = "expectedReg debe ser un numero mayor o igual a 0."%string).
Proof.
  unfold simulateGame. intros H.
  apply bind_Thrown in H. destruct H as [H|[a [h1 [_ H]]]];
    [|discriminate H].
  unfold simulateGame_body in H.
  apply bind_Thrown in H. destruct H as [H|[hd [h1 [Hh H]]]].
  { left. now apply calculateTeamDetail_thrown in H. }
  pose proof (calculateTeamDetail_returned _ _ _ _ _ _ _ _ _ _ _ Hh)
    as (Vh & Dh & vh & Eh & _).
  apply bind_Thrown in H. destruct H as [H|[ad [h2 [Ha H]]]].
  { right. left. apply calculateTeamDetail_thrown in H.
    destruct H as [Va ->]. auto. }
  pose proof (calculateTeamDetail_returned _ _ _ _ _ _ _ _ _ _ _ Ha)
    as (Va & Da & va & Ea & _).
  right. right.
  apply bind_Thrown in H. destruct H as [H|[l [h3 [_ H]]]];
    [|discriminate H].
  destruct (resolved_allowTies config); [discriminate H|].
  cbn [negb andb] in H.
  destruct (_ === _)%js; [|discriminate H].
  apply bind_Thrown in H. destruct H as [H|[l [h3 [_ H]]]];
    [|discriminate H].
  pose proof (proj1 (detail_inputs_valid_iff _ _) Vh)
    as (_ & _ & Y1 & T1 & _).
  pose proof (proj1 (detail_inputs_valid_iff _ _) Va)
    as (_ & _ & Y2 & T2 & _).
  apply overtimeLoop_thrown in H; try assumption.
  destruct H as (Hd & He & ->).
  split; [exact Vh|]. split; [exact Va|].
  split; [reflexivity|]. split; [lia|]. split; [|reflexivity].
  subst hd ad. exact He.
Qed.

End WithPlatform.

End ProjectionClaims.

(** *** Failing calls of the drive engine *)

Module DriveFailures.
Import Drive DriveInv DriveLoops DriveTotal.

Lemma drive_valid_split home away :
  drive_valid home = true /\ drive_valid away = true
  <-> first_drive_valid home away = true
      /\ second_drive_valid home away = true.
Proof.
  unfold drive_valid, first_drive_valid, second_drive_valid.
  rewrite !andb_true_iff. tauto.
Qed.

Section WithPlatform.

Variable Math_random : nat -> number.

Lemma round_step_thrown home away (s : Z * SimulationResult) h0 h msg h' :
  h = h0 \/ (drive_valid home = true /\ drive_valid away = true) ->
  (st <- playRound Math_random home away (snd s) ;; ret (fst s + 1, st)) h
  = (Thrown msg, h') ->
  failure_point home away h0 h'.
Proof.
  intros [->|[Hh Ha]] H.
  2:{ exfalso. revert H. now apply round_step_not_thrown. }
  apply bind_Thrown in H. destruct H as [H|[st [h1 [_ H]]]];
    [|discriminate H].
  unfold playRound in H.
  apply bind_Thrown in H. destruct H as [H|[o1 [h1 [H1 H]]]].
  - apply DriveFacts.simulateDrive_thrown in H. destruct H as [-> Hv].
    now left.
  - apply bind_Thrown in H. destruct H as [H|[o2 [h2 [_ H]]]];
      [|discriminate H].
    apply DriveFacts.simulateDrive_thrown in H. destruct H as [-> Hv].
    apply DriveFacts.simulateDrive_returned in H1. destruct H1 as [V1 D].
    right. split; [exact V1|]. split; [exact Hv|].
    destruct D as [[_ D]|[_ D]]; lia.
Qed.

Lemma round_step_keeps home away (s s' : Z * SimulationResult) h0 h h' :
  h = h0 \/ (drive_valid home = true /\ drive_valid away = true) ->
  (st <- playRound Math_random home away (snd s) ;; ret (fst s + 1, st)) h
  = (Returned s', h') ->
  h' = h0 \/ (drive_valid home = true /\ drive_valid away = true).
Proof.
  intros [->|Hv] H; [|now right]. right.
  bind_inv H as st h1 Hp. clear H.
  unfold playRound in Hp.
  bind_inv Hp as o1 h2 H1. bind_inv Hp as o2 h3 H2.
  apply drive_valid_split. unfold first_drive_valid, second_drive_valid.
  split.
  - exact (proj1 (DriveFacts.simulateDrive_returned _ _ _ _ _ _ H1)).
  - exact (proj1 (DriveFacts.simulateDrive_returned _ _ _ _ _ _ H2)).
Qed.

Lemma drive_simulateGame_thrown fuel home away config h msg h' :
  simulateGame Math_random fuel home away config h = (Thrown msg, h') ->
  (h' = h /\ (resolved_drivesPerTeam config >? of_Z 0)%js = false)
  \/ ((resolved_drivesPerTeam config >? of_Z 0)%js = true
      /\ failure_point home away h h').
Proof.
  unfold simulateGame. intros H.
  apply bind_Thrown in H. destruct H as [H|[a [h1 [_ H]]]];
    [|discriminate H].
  unfold simulateGame_body in H. cbv zeta in H.
  destruct (resolved_drivesPerTeam config >? of_Z 0)%js; cbn [negb] in H.
  2:{ left. unfold throw in H. split; [congruence|reflexivity]. }
  right. split; [reflexivity|].
  apply bind_Thrown in H. destruct H as [H|[reg [h1 [Hreg H]]]].
  - revert H. unfold regulation.
    apply (while_thrown
             (fun _ hh => hh = h \/
                (drive_valid home = true /\ drive_valid away = true))
             (fun _ hh => failure_point home away h hh)).
    + intros s h1 s' h2 Hi _ Hb. eapply round_step_keeps; eassumption.
    + intros s h1 msg0 h2 Hi _ Hb. eapply round_step_thrown; eassumption.
    + now left.
  - assert (Hi : h1 = h \/
                 (drive_valid home = true /\ drive_valid away = true)).
    { unfold regulation in Hreg.
      apply (while_inv
               (fun _ hh => hh = h \/
                  (drive_valid home = true /\ drive_valid away = true)))
        in Hreg; [exact (proj1 Hreg)| |now left].
      intros s h2 s' h3 Hi _ Hb. eapply round_step_keeps; eassumption. }
    revert H. unfold overtimeLoop.
    apply (while_thrown
             (fun _ hh => hh = h \/
                (drive_valid home = true /\ drive_valid away = true))
             (fun _ hh => failure_point home away h hh)).
    + intros s h2 s' h3 Hj _ Hb. eapply round_step_keeps; eassumption.
    + intros s h2 msg0 h3 Hj _ Hb. eapply round_step_thrown; eassumption.
    + exact Hi.
Qed.

End WithPlatform.
End DriveFailures.

(** *** Termination of the projection engine *)

Lemma lcg_next_cases (s : number) :
  lcg_next s = NaN \/ exists e, lcg_next s = fin e.
Proof.
  unfold lcg_next.
  destruct (s * of_Z 16807)%js as [| | |x] eqn:E; try (now left).
  right. unfold js_rem, of_Z. change (Qeq_bool (inject_Z 2147483647) 0) with false.
  cbv iota. eexists. reflexivity.
Qed.

(** The generator returns 0 only from the state 1. *)
Lemma lcg_output_zero (s : number) :
  (lcg_output (lcg_next s) === of_Z 0)%js = true -> lcg_next s = of_Z 1.
Proof.
  destruct (lcg_next_cases s) as [->|[e ->]]; [discriminate|].
  unfold lcg_output, js_sub, js_neg, of_Z, fin, js_add, js_div.
  change (Qeq_bool (inject_Z 2147483646) 0) with false. cbv iota.
  unfold js_eq, fin. intros H. apply Qeq_bool_iff in H.
  rewrite Qred_correct in H.
  assert (He : (Qred e == inject_Z 1)%Q).
  { rewrite Qred_correct in H.
    assert (H1 : (Qred e + Qred (- inject_Z 1) == 0)%Q).
    { rewrite <- (Qmult_div_r (Qred e + Qred (- inject_Z 1))
                    (inject_Z 2147483646)) by discriminate.
      rewrite H. reflexivity. }
    rewrite !Qred_correct in H1. rewrite Qred_correct.
    rewrite <- (Qplus_0_l (inject_Z 1)). rewrite <- H1. ring. }
  f_equal. rewrite <- Qred_involutive. rewrite (Qred_complete _ _ He).
  apply Qred_inject_Z.
Qed.

Lemma lcg_no_two_zeros (s : number) :
  (lcg_output (lcg_next s) === of_Z 0)%js = true ->
  (lcg_output (lcg_next (lcg_next s)) === of_Z 0)%js = false.
Proof.
  intros H. apply lcg_output_zero in H. rewrite H. vm_compute. reflexivity.
Qed.

Lemma is_lcg_after_draws Math_random (n : nat) (h : Heap) :
  is_lcg h = true -> is_lcg (after_draws Math_random n h) = true.
Proof.
  revert h. induction n as [|n IH]; intros h Hl; [exact Hl|].
  simpl after_draws. apply IH. unfold is_lcg, rng_step in *.
  now destruct (rng_cell h).
Qed.

Lemma lcg_two_draws Math_random (h : Heap) :
  is_lcg h = true ->
  exists s, nth_draw Math_random 0 h = lcg_output (lcg_next s)
            /\ nth_draw Math_random 1 h
               = lcg_output (lcg_next (lcg_next s)).
Proof.
  unfold is_lcg, nth_draw. simpl after_draws. unfold rng_step.
  destruct (rng_cell h) as [|s]; [discriminate|]. intros _.
  exists s. split; reflexivity.
Qed.

(** The seeded generator never returns two zeros in a row. *)
Lemma lcg_nonzero_within Math_random (h : Heap) :
  is_lcg h = true -> nonzero_within Math_random 2 h.
Proof.
  intros Hl n.
  destruct (lcg_two_draws Math_random (after_draws Math_random n h)
              (is_lcg_after_draws Math_random n h Hl)) as [s [E0 E1]].
  rewrite nth_draw_after in E0, E1.
  destruct (lcg_output (lcg_next s) === of_Z 0)%js eqn:Z0.
  - exists 1%nat. split; [lia|]. rewrite E1. now apply lcg_no_two_zeros.
  - exists 0%nat. split; [lia|]. now rewrite E0.
Qed.

Lemma platform_after_draws Math_random (n : nat) (h : Heap) :
  rng_cell h = MathRandom ->
  rng_cell (after_draws Math_random n h) = MathRandom
  /\ platform_pos (after_draws Math_random n h) = (platform_pos h + n)%nat.
Proof.
  revert h. induction n as [|n IH]; intros h Hc.
  - split; [exact Hc|simpl; lia].
  - simpl after_draws.
    assert (E : snd (rng_step Math_random h)
                = mkHeap MathRandom (S (platform_pos h)) (S (draws h)))
      by (unfold rng_step; now rewrite Hc).
    rewrite E.
    destruct (IH (mkHeap MathRandom (S (platform_pos h)) (S (draws h)))
                eq_refl) as [H1 H2].
    split; [exact H1|]. rewrite H2. simpl. lia.
Qed.

(** The platform source is as good when it never returns [b] zeros in a
    row. *)
Lemma platform_nonzero_within Math_random (b : nat) (h : Heap) :
  rng_cell h = MathRandom ->
  (forall k, exists j,
      (j < b)%nat /\ (Math_random (k + j)%nat === of_Z 0)%js = false) ->
  nonzero_within Math_random b h.
Proof.
  intros Hc Hp n. destruct (Hp (platform_pos h + n)%nat) as [j [Hj Hz]].
  exists j. split; [exact Hj|].
  destruct (platform_after_draws Math_random (n + j) h Hc) as [H1 H2].
  unfold nth_draw, rng_step. rewrite H1, H2. cbn [fst].
  now rewrite Nat.add_assoc.
Qed.

Lemma nonzero_within_after Math_random (b k : nat) (h : Heap) :
  nonzero_within Math_random b h ->
  nonzero_within Math_random b (after_draws Math_random k h).
Proof.
  intros H n. destruct (H (k + n)%nat) as [j [Hj Hz]].
  exists j. split; [exact Hj|]. rewrite nth_draw_after.
  now rewrite Nat.add_assoc.
Qed.

Module ProjectionTotal.
Import Projection ProjectionFacts ProjectionLoops ProjectionResults.

Section WithPlatform.

Variable Math_random : nat -> number.
Variables Math_log Math_cos Math_sqrt : number -> number.
Variable Math_PI : number.

(** The resampling loop ends at the first value that is not zero. *)
Lemma resample_until (j : nat) :
  forall fuel h u0,
    (u0 === of_Z 0)%js = true ->
    (nth_draw Math_random j h === of_Z 0)%js = false -> (j < fuel)%nat ->
    exists u k,
      while fuel (fun x => (x === of_Z 0)%js) (fun _ => rng Math_random) u0 h
      = (Returned u, after_draws Math_random k h).
Proof.
  induction j as [|j IH]; intros fuel h u0 H0 Hz Hf;
    (destruct fuel as [|fuel]; [lia|]);
    rewrite while_S, H0, (bind_run _ _ _ _ _ (rng_run Math_random h)).
  - rewrite while_exit by exact Hz. now exists (nth_draw Math_random 0 h), 1%nat.
  - destruct (nth_draw Math_random 0 h === of_Z 0)%js eqn:Z0.
    + destruct (IH fuel (after_draws Math_random 1 h)
                  (nth_draw Math_random 0 h) Z0) as [u [k Hk]].
      * now rewrite nth_draw_after.
      * lia.
      * exists u, (1 + k)%nat. now rewrite Hk, after_draws_add.
    + rewrite while_exit by exact Z0.
      now exists (nth_draw Math_random 0 h), 1%nat.
Qed.

Lemma resample_returns b fuel h :
  nonzero_within Math_random b h -> (b <= fuel)%nat ->
  exists u k,
    resample Math_random fuel h = (Returned u, after_draws Math_random k h).
Proof.
  intros Hn Hf. destruct (Hn 0%nat) as [j [Hj Hz]]. simpl in Hz.
  unfold resample. apply (resample_until j); [reflexivity|exact Hz|lia].
Qed.

Lemma randomGaussian_returns b fuel mean stdDev h :
  nonzero_within Math_random b h -> (b <= fuel)%nat ->
  exists x k,
    randomGaussian Math_random Math_log Math_cos Math_sqrt Math_PI
      fuel mean stdDev h = (Returned x, after_draws Math_random k h).
Proof.
  intros Hn Hf. unfold randomGaussian.
  destruct (resample_returns b fuel h Hn Hf) as [u [k1 Hu]].
  rewrite (bind_run _ _ _ _ _ Hu).
  destruct (resample_returns b fuel _
              (nonzero_within_after _ _ k1 _ Hn) Hf) as [v [k2 Hv]].
  rewrite (bind_run _ _ _ _ _ Hv). rewrite after_draws_add.
  eexists; eexists; reflexivity.
Qed.

Lemma calculateTeamDetail_returns b fuel team opponent h :
  detail_inputs_valid team opponent = true ->
  nonzero_within Math_random b h -> (b <= fuel)%nat ->
  exists d k,
    calculateTeamDetail Math_random Math_log Math_cos Math_sqrt Math_PI
      fuel team opponent h = (Returned d, after_draws Math_random k h).
Proof.
  intros Hv Hn Hf. rewrite calculateTeamDetail_valid by exact Hv.
  destruct (randomGaussian_returns b fuel (of_Z 0)
              (Math_max ONE_TENTH (yardsPerPlay team *! Fin (1 # 2))%js)
              h Hn Hf) as [x [k Hx]].
  rewrite (bind_run _ _ _ _ _ Hx). eexists; eexists; reflexivity.
Qed.

Lemma simulateOtPoints_returns b fuel expectedReg ypp turnoverRate scale h :
  nonNegative expectedReg = true -> positive ypp = true ->
  nonNegative turnoverRate = true ->
  nonzero_within Math_random b h -> (b <= fuel)%nat ->
  exists x k,
    simulateOtPoints Math_random Math_log Math_cos Math_sqrt Math_PI
      fuel expectedReg ypp turnoverRate scale h
    = (Returned x, after_draws Math_random k h).
Proof.
  intros H1 H2 H3 Hn Hf. rewrite simulateOtPoints_run, H1, H2, H3.
  destruct (randomGaussian_returns b fuel (of_Z 0)
              (Math_max ONE_TENTH (ypp *! Fin (1 # 4))%js)
              h Hn Hf) as [x [k Hx]].
  rewrite (bind_run _ _ _ _ _ Hx). eexists; eexists; reflexivity.
Qed.

Lemma overtimeRound_returns b fuel home away hd ad otScale l h :
  ot_inputs_valid home hd -> ot_inputs_valid away ad ->
  nonzero_within Math_random b h -> (b <= fuel)%nat ->
  exists l' k,
    overtimeRound Math_random Math_log Math_cos Math_sqrt Math_PI
      fuel home away hd ad otScale l h
    = (Returned l', after_draws Math_random k h)
    /\ roundsPlayed l' = roundsPlayed l + 1.
Proof.
  intros (A1 & A2 & A3) (B1 & B2 & B3) Hn Hf. unfold overtimeRound.
  destruct (simulateOtPoints_returns b fuel _ _ _ otScale h A1 A2 A3 Hn Hf)
    as [x [k1 Hx]].
  rewrite (bind_run _ _ _ _ _ Hx).
  destruct (simulateOtPoints_returns b fuel _ _ _ otScale _ B1 B2 B3
              (nonzero_within_after _ _ k1 _ Hn) Hf) as [y [k2 Hy]].
  rewrite (bind_run _ _ _ _ _ Hy). rewrite after_draws_add.
  eexists; eexists; split; reflexivity.
Qed.

Lemma projection_overtimeLoop_returns b fuel home away hd ad otScale cap l h :
  ot_inputs_valid home hd -> ot_inputs_valid away ad ->
  nonzero_within Math_random b h -> (b <= fuel)%nat ->
  0 <= roundsPlayed l -> (Z.to_nat cap <= fuel)%nat ->
  exists l' h',
    overtimeLoop Math_random Math_log Math_cos Math_sqrt Math_PI
      fuel home away hd ad otScale (of_Z cap) l h = (Returned l', h').
Proof.
  intros Hh Ha Hn Hf H0 Hc. unfold overtimeLoop.
  apply (while_terminates
           (fun l hh => nonzero_within Math_random b hh
                        /\ 0 <= roundsPlayed l)
           (fun l => Z.to_nat (cap - roundsPlayed l))).
  - intros s h0 [Hn0 Hr0] Hcond. apply andb_true_iff in Hcond.
    destruct Hcond as [_ Hlt]. rewrite js_lt_of_Z in Hlt.
    apply Z.ltb_lt in Hlt.
    destruct (overtimeRound_returns b fuel home away hd ad otScale s h0
                Hh Ha Hn0 Hf) as [l' [k [Hb Hr']]].
    exists l', (after_draws Math_random k h0). split; [exact Hb|].
    split; [split; [now apply nonzero_within_after|lia]|lia].
  - now split.
  - lia.
Qed.

(** A call with valid statistics whose expected points did not overflow
    returns, given fuel for the resampling draws and for the capped
    overtime rounds, on a generator that never returns [b] zeros in a
    row. *)
Lemma simulateGame_returns b fuel home away config pos :
  detail_inputs_valid home away = true ->
  detail_inputs_valid away home = true ->
  nonNegative (expected_of home away) = true ->
  nonNegative (expected_of away home) = true ->
  nonzero_within Math_random b (initial_heap (seed config) pos) ->
  (b <= fuel)%nat -> (Z.to_nat (ot_cap config) <= fuel)%nat ->
  exists r h',
    run_simulateGame Math_random Math_log Math_cos Math_sqrt Math_PI
      fuel home away config pos = (Returned r, h').
Proof.
  intros Vh Va Xh Xa Hn Hf Hc. unfold run_simulateGame.
  set (h0 := initial_heap (seed config) pos) in *.
  unfold simulateGame, simulateGame_body.
  destruct (calculateTeamDetail_returns b fuel home away h0 Vh Hn Hf)
    as [hd [k1 Hh]].
  pose proof (nonzero_within_after _ _ k1 _ Hn) as Hn1.
  destruct (calculateTeamDetail_returns b fuel away home _ Va Hn1 Hf)
    as [ad [k2 Ha]].
  pose proof (nonzero_within_after _ _ k2 _ Hn1) as Hn2.
  pose proof (calculateTeamDetail_returned _ _ _ _ _ _ _ _ _ _ _ Hh)
    as (_ & _ & vh & Eh & _).
  pose proof (calculateTeamDetail_returned _ _ _ _ _ _ _ _ _ _ _ Ha)
    as (_ & _ & va & Ea & _).
  unfold bind at 1. unfold bind at 1. rewrite Hh.
  unfold bind at 1. rewrite Ha.
  destruct (negb (resolved_allowTies config) && _).
  - destruct (resolved_maxOtRounds_cap config) as [-> _].
    destruct (projection_overtimeLoop_returns b fuel home away hd ad
                (resolved_otScale config) (ot_cap config)
                (mkLocals (finalPoints hd) (finalPoints ad) [] [] 0 None)
                (after_draws Math_random k2 (after_draws Math_random k1 h0)))
      as [l' [h' Ho]]; try assumption.
    + subst hd. now apply detail_ot_inputs_valid.
    + subst ad. now apply detail_ot_inputs_valid.
    + cbn [roundsPlayed]. lia.
    + unfold bind at 1. unfold bind at 1. rewrite Ho.
      eexists; eexists; reflexivity.
  - eexists; eexists; reflexivity.
Qed.

(** The generator a call starts from is such a generator, for [b >= 2]:
    always when seeded, and otherwise when the platform source never
    returns [b] zeros in a row. *)
Lemma initial_heap_nonzero_within b (seed : option number) pos :
  (2 <= b)%nat ->
  seeded seed = true
  \/ (forall k, exists j,
         (j < b)%nat /\ (Math_random (k + j)%nat === of_Z 0)%js = false) ->
  nonzero_within Math_random b (initial_heap seed pos).
Proof.
  intros Hb H.
  destruct (is_lcg (initial_heap seed pos)) eqn:Hl.
  - intros n. destruct (lcg_nonzero_within Math_random _ Hl n) as [j [Hj Hz]].
    exists j. split; [lia|exact Hz].
  - apply platform_nonzero_within.
    + unfold is_lcg in Hl. now destruct (rng_cell (initial_heap seed pos)).
    + destruct H as [Hs|Hp]; [|exact Hp].
      exfalso. unfold is_lcg, initial_heap in Hl. cbn [rng_cell] in Hl.
      destruct seed as [[| | |q]|]; try discriminate Hs; try discriminate Hl;
        rewrite createRandomGenerator_finite in Hl; discriminate Hl.
Qed.

End WithPlatform.
End ProjectionTotal.

Lemma projection_valid_inputs home away :
  projection_valid home = true -> projection_valid away = true ->
  detail_inputs_valid home away = true /\ detail_inputs_valid away home = true.
Proof.
  unfold projection_valid, detail_inputs_valid.
  rewrite !andb_true_iff. tauto.
Qed.

Module ProjectionNoTie.
Import Projection ProjectionFacts ProjectionLoops ProjectionResults.
Import ProjectionClaims ProjectionTotal.

(** A result whose scores are not [NaN] has a winner unless they are
    equal. *)
Lemma winner_unless_equal (r : SimulationResult) :
  (homeScore r === awayScore r)%js = false ->
  winner r = true
  \/ Number_isNaN (homeScore r) || Number_isNaN (awayScore r) = true.
Proof.
  intros H. destruct (Number_isNaN (homeScore r)) eqn:N1; [now right|].
  destruct (Number_isNaN (awayScore r)) eqn:N2; [now right|].
  left. unfold winner. now apply js_neq_gt.
Qed.

Lemma of_Z_succ_neq (a : number) (z : Z) :
  (a === of_Z z)%js = true -> (of_Z (z + 1) === a)%js = false.
Proof.
  intros H. destruct (of_Z (z + 1) === a)%js eqn:E; [|reflexivity].
  pose proof (js_eq_trans _ _ _ E H) as Hc. rewrite js_eq_of_Z in Hc.
  apply Z.eqb_eq in Hc. lia.
Qed.

Section WithPlatform.

Variable Math_random : nat -> number.
Variables Math_log Math_cos Math_sqrt : number -> number.
Variable Math_PI : number.

(** The scores of a result when ties are not allowed. *)
Lemma no_tie_scores fuel home away config l r h h' :
  resolved_allowTies config = false ->
  simulateGame_body Math_random Math_log Math_cos Math_sqrt Math_PI
    fuel home away config h = (Returned (l, r), h') ->
  let sh := running_score (homeDetail r) in
  let sa := running_score (awayDetail r) in
  match tiebreak_of r with
  | None =>
      homeScore r = sh /\ awayScore r = sa /\ (sh === sa)%js = false
  | Some policy =>
      policy = resolved_tiebreakPolicy config
      /\ (sh === sa)%js = true
      /\ (exists o, overtime r = Some o /\ rounds o = ot_cap config)
      /\ if tiebreak_home policy (homeDetail r) (awayDetail r)
         then homeScore r = (sh +! of_Z 1)%js /\ awayScore r = sa
         else homeScore r = sh /\ awayScore r = (sa +! of_Z 1)%js
  end.
Proof.
  intros At H. apply final_locals in H.
  destruct H as (hd & ad & l1 & -> & I1 & E3 & E4 & _ & _ & Hl).
  destruct I1 as (S1 & S2 & _ & _ & _ & Tb & _ & _).
  rewrite tiebreak_of_overtime_field. cbv zeta.
  cbn [homeScore awayScore homeDetail awayDetail overtime].
  rewrite !running_score_with_ot, E3, E4, <- S1, <- S2.
  destruct Hl as [(-> & Hn & _)|(_ & Tie & Hcap & ->)].
  - rewrite Tb. rewrite At in Hn. cbn [negb andb] in Hn. auto.
  - destruct (tiebreak_home (resolved_tiebreakPolicy config) hd ad) eqn:Th;
      cbn [l_homeScore l_awayScore l_tiebreakApplied];
      rewrite tiebreak_home_with_ot, Th;
      (split; [reflexivity|]); (split; [exact Tie|]);
      (split; [|now split]);
      unfold overtime_field;
      cbn [l_tiebreakApplied roundsPlayed overtimePointsHome
           overtimePointsAway];
      rewrite orb_true_r; eexists; (split; [reflexivity|exact Hcap]).
Qed.

(** The scores accumulated over regulation and the overtime rounds are
    natural numbers, [+Infinity] or [NaN]. *)
Lemma running_score_whole fuel home away config l r h h' :
  simulateGame_body Math_random Math_log Math_cos Math_sqrt Math_PI
    fuel home away config h = (Returned (l, r), h') ->
  whole (running_score (homeDetail r))
  /\ whole (running_score (awayDetail r)).
Proof.
  intros H. apply final_locals in H.
  destruct H as (hd & ad & l1 & -> & I1 & E3 & E4 & _ & Hw & _).
  destruct I1 as (S1 & S2 & _).
  cbn [homeDetail awayDetail].
  now rewrite !running_score_with_ot, E3, E4, <- S1, <- S2.
Qed.

(** C3, as amended.  With valid statistics for both teams and ties not
    allowed, a call of the projection engine fails only in an overtime
    round, on expected points that overflowed.  In every result either
    no tiebreak was applied, and the scores accumulated over regulation
    and the overtime rounds are the final scores and differ; or the teams
    were still tied after the capped overtime rounds, and the configured
    policy added one point to one score: the home score under ["home"],
    and under ["expected"] the score of the team with the strictly higher
    expected points, the home score when they are equal.  The result has
    a winner unless a score is [NaN] or the point added to the tied score
    did not change it; it has one whenever the score accumulated by the
    home team is below [2^53 - 1] and that of the away team is not
    [NaN].  The call returns, given fuel, when the expected
    points did not overflow, on the seeded generator and on a platform
    source that never returns [b] zeros in a row. *)
Theorem simulateGame_no_tie (fuel : nat) (home away : TeamStats)
    (config : GameConfig) (pos : nat) :
  projection_valid home = true -> projection_valid away = true ->
  resolved_allowTies config = false ->
  let run :=
    run_simulateGame Math_random Math_log Math_cos Math_sqrt Math_PI
      fuel home away config pos in
  (forall msg h', run = (Thrown msg, h') ->
     (nonNegative (expected_of home away) = false
      \/ nonNegative (expected_of away home) = false)
     /\ msg = "expectedReg debe ser un numero mayor o igual a 0."%string)
  /\ (forall r h', run = (Returned r, h') ->
        let sh := running_score (homeDetail r) in
        let sa := running_score (awayDetail r) in
        match tiebreak_of r with
        | None =>
            homeScore r = sh /\ awayScore r = sa /\ (sh === sa)%js = false
        | Some policy =>
            policy = resolved_tiebreakPolicy config
            /\ (sh === sa)%js = true
            /\ (exists o, overtime r = Some o /\ rounds o = ot_cap config)
            /\ if tiebreak_home policy (homeDetail r) (awayDetail r)
               then homeScore r = (sh +! of_Z 1)%js /\ awayScore r = sa
               else homeScore r = sh /\ awayScore r = (sa +! of_Z 1)%js
        end
        /\ (winner r = true
            \/ Number_isNaN (homeScore r) || Number_isNaN (awayScore r)
               = true
            \/ (tiebreak_of r <> None
                /\ (sh +! of_Z 1 === sh)%js = true))
        /\ (forall q, sh = Fin q -> (q < inject_Z (2 ^ 53 - 1))%Q ->
              Number_isNaN sa = false -> winner r = true))
  /\ (forall b,
        (2 <= b)%nat ->
        seeded (seed config) = true
        \/ (forall k, exists j,
               (j < b)%nat
               /\ (Math_random (k + j)%nat === of_Z 0)%js = false) ->
        nonNegative (expected_of home away) = true ->
        nonNegative (expected_of away home) = true ->
        (b <= fuel)%nat -> (Z.to_nat (ot_cap config) <= fuel)%nat ->
        exists r h', run = (Returned r, h')).
Proof.
  intros Vh Va At run.
  destruct (projection_valid_inputs home away Vh Va) as [Dh Da].
  split; [|split].
  - intros msg h' H. unfold run, run_simulateGame in H.
    apply projection_simulateGame_thrown in H.
    destruct H as [[H _]|[(_ & H & _)|(_ & _ & _ & _ & He & Hm)]];
      [congruence|congruence|auto].
  - intros r h' H. unfold run, run_simulateGame in H.
    apply projection_simulateGame_returned in H. destruct H as [l H].
    pose proof (no_tie_scores _ _ _ _ _ _ _ _ At H) as Hs.
    pose proof (running_score_whole _ _ _ _ _ _ _ _ H) as [Wh _].
    cbv zeta in Hs |- *.
    set (sh := running_score (homeDetail r)) in *.
    set (sa := running_score (awayDetail r)) in *.
    split; [exact Hs|].
    assert (Hw : winner r = true
                 \/ Number_isNaN (homeScore r) || Number_isNaN (awayScore r)
                    = true
                 \/ (tiebreak_of r <> None
                     /\ (sh +! of_Z 1 === sh)%js = true)).
    { destruct (tiebreak_of r) as [policy|].
      - destruct Hs as (_ & Tie & _ & Hs).
        destruct (sh +! of_Z 1 === sh)%js eqn:Ab;
          [right; right; split; [discriminate|reflexivity]|].
        assert (Hne : (homeScore r === awayScore r)%js = false).
        { destruct (tiebreak_home policy (homeDetail r) (awayDetail r));
            destruct Hs as [-> ->].
          - destruct (sh +! of_Z 1 === sa)%js eqn:E; [|reflexivity].
            rewrite js_eq_sym in Tie.
            pose proof (js_eq_trans _ _ _ E Tie). congruence.
          - rewrite js_eq_sym in Tie.
            rewrite (add64_eq_l _ _ (of_Z 1) Tie).
            now rewrite js_eq_sym. }
        destruct (winner_unless_equal r Hne) as [Hw|Hw]; auto.
      - destruct Hs as (E1 & E2 & Hne). rewrite <- E1, <- E2 in Hne.
        destruct (winner_unless_equal r Hne) as [Hw|Hw]; auto. }
    split; [exact Hw|].
    intros q Eq Hq Ns. rewrite Eq in Wh. destruct Wh as [z [Hz0 Ez]].
    assert (Hz : 0 <= z < 2 ^ 53 - 1).
    { split; [exact Hz0|]. rewrite Ez in Hq. rewrite Zlt_Qlt. exact Hq. }
    assert (Ez' : (sh === of_Z z)%js = true).
    { rewrite Eq. unfold js_eq, of_Z. now apply Qeq_bool_iff. }
    clear Ez Hq. rename Ez' into Ez.
    destruct (tiebreak_of r) as [policy|].
    + destruct Hs as (_ & Tie & _ & Hs).
      assert (E1 : (sh +! of_Z 1)%js = of_Z (z + 1))
        by now apply add64_one.
      assert (Ea : (sa === of_Z z)%js = true).
      { rewrite js_eq_sym in Tie. exact (js_eq_trans _ _ _ Tie Ez). }
      assert (E2 : (sa +! of_Z 1)%js = of_Z (z + 1))
        by now apply add64_one.
      unfold winner.
      destruct (tiebreak_home policy (homeDetail r) (awayDetail r));
        destruct Hs as [-> ->].
      * rewrite E1. apply js_neq_gt; [reflexivity|exact Ns|].
        now apply of_Z_succ_neq.
      * rewrite E2. apply js_neq_gt.
        -- exact (proj1 (js_eq_not_NaN _ _ Ez)).
        -- reflexivity.
        -- rewrite js_eq_sym. now apply of_Z_succ_neq.
    + destruct Hs as (E1 & E2 & Hne). unfold winner. rewrite E1, E2.
      apply js_neq_gt; [exact (proj1 (js_eq_not_NaN _ _ Ez))|exact Ns|].
      exact Hne.
  - intros b Hb Hs Xh Xa Hf Hcapf. unfold run.
    apply (simulateGame_returns _ _ _ _ _ b); try assumption.
    now apply initial_heap_nonzero_within.
Qed.

End WithPlatform.

Lemma simulateGame_no_tie_witness :
  exists r h',
    projection_run = (Returned r, h') /\ winner r = true.
Proof.
  unfold projection_run.
  pose proof (simulateGame_no_tie example_random example_log example_cos
                example_sqrt example_PI 2 projection_home projection_away
                projection_config 0 eq_refl eq_refl eq_refl) as [_ [Hr Ht]].
  destruct (Ht 2%nat (Nat.le_refl 2) (or_introl eq_refl) eq_refl eq_refl
              (Nat.le_refl 2) (Nat.le_0_l 2)) as [r [h' E]].
  exists r, h'. split; [exact E|].
  destruct (Hr r h' E) as (_ & _ & Hz).
  apply (Hz 0%Q); [|reflexivity|].
  - vm_compute in E. injection E as <- _. reflexivity.
  - vm_compute in E. injection E as <- _. reflexivity.
Defined.

(** C3 as stated fails at statistics of [2^54] points per game: both
    teams project [2^54], no overtime round is allowed, and the point the
    policy adds to the home score is lost in the rounding, so the result
    is a tie although ties are not allowed. *)
Lemma tiebreak_point_absorbed :
  projection_valid projection_huge = true
  /\ resolved_allowTies projection_huge_config = false
  /\ exists r h',
       run_simulateGame example_random example_log example_cos example_sqrt
         example_PI 2 projection_huge projection_huge
         projection_huge_config 0 = (Returned r, h')
       /\ homeScore r = of_Z (2 ^ 54) /\ awayScore r = of_Z (2 ^ 54)
       /\ tiebreak_of r = Some Projection.home
       /\ (homeScore r === awayScore r)%js = true.
Proof.
  split; [reflexivity|]. split; [reflexivity|].
  eexists. eexists. split; [vm_compute; reflexivity|].
  vm_compute. repeat split.
Qed.

End ProjectionNoTie.

(** *** Independence from the platform source *)

Lemma agree_ret {A} (a : A) : agree (ret a) (ret a).
Proof. intros h1 h2 H. now split. Qed.

Lemma agree_throw {A} (msg : string) : agree (@throw A msg) (throw msg).
Proof. intros h1 h2 H. now split. Qed.

Lemma agree_bind {A B} (m1 m2 : M A) (k1 k2 : A -> M B) :
  agree m1 m2 -> (forall a, agree (k1 a) (k2 a)) ->
  agree (bind m1 k1) (bind m2 k2).
Proof.
  intros Hm Hk h1 h2 H. unfold bind.
  destruct (Hm h1 h2 H) as [E S].
  destruct (m1 h1) as [[a|msg|] h1'], (m2 h2) as [[b|msg'|] h2'];
    cbn [fst snd] in *; try discriminate E.
  - injection E as ->. now apply Hk.
  - split; [congruence|exact S].
  - now split.
Qed.

Lemma agree_if {A} (c : bool) (m1 m2 n1 n2 : M A) :
  agree m1 m2 -> agree n1 n2 ->
  agree (if c then m1 else n1) (if c then m2 else n2).
Proof. now destruct c. Qed.

Lemma agree_while {S} (cond : S -> bool) (b1 b2 : S -> M S) :
  (forall s, agree (b1 s) (b2 s)) ->
  forall fuel s, agree (while fuel cond b1 s) (while fuel cond b2 s).
Proof.
  intros Hb fuel. induction fuel as [|fuel IH]; intros s; simpl;
    destruct (cond s); try apply agree_ret.
  - intros h1 h2 H. now split.
  - apply agree_bind; [apply Hb|apply IH].
Qed.

Lemma agree_rng (R1 R2 : nat -> number) : agree (rng_call R1) (rng_call R2).
Proof.
  intros h1 h2 (Hc & Hl & Hd). unfold rng_call, rng_step, same_lcg, is_lcg in *.
  rewrite <- Hc. destruct (rng_cell h1) as [|s]; [discriminate|].
  cbn [fst snd rng_cell draws]. rewrite Hd. auto.
Qed.

Module DriveAgree.
Import Drive.

Lemma agree_validate label value :
  agree (validatePointsPerDrive label value)
        (validatePointsPerDrive label value).
Proof.
  unfold validatePointsPerDrive.
  destruct (negb _); [apply agree_throw|apply agree_ret].
Qed.

Lemma agree_simulateDrive R1 R2 offense defense :
  agree (simulateDrive R1 offense defense) (simulateDrive R2 offense defense).
Proof.
  unfold simulateDrive.
  apply agree_bind; [apply agree_validate|intros _].
  apply agree_bind; [apply agree_validate|intros _].
  apply agree_bind; [apply agree_rng|intros u].
  apply agree_if; [|apply agree_ret].
  apply agree_bind; [apply agree_rng|intros v].
  apply agree_if; apply agree_ret.
Qed.

Lemma agree_round R1 R2 home away (s : Z * SimulationResult) :
  agree (st <- playRound R1 home away (snd s) ;; ret (fst s + 1, st))
        (st <- playRound R2 home away (snd s) ;; ret (fst s + 1, st)).
Proof.
  apply agree_bind; [|intros; apply agree_ret].
  unfold playRound.
  apply agree_bind; [apply agree_simulateDrive|intros o1].
  apply agree_bind; [apply agree_simulateDrive|intros o2].
  apply agree_ret.
Qed.

Lemma agree_drive_simulateGame R1 R2 fuel home away config :
  agree (simulateGame R1 fuel home away config)
        (simulateGame R2 fuel home away config).
Proof.
  unfold simulateGame. apply agree_bind; [|intros; apply agree_ret].
  unfold simulateGame_body. cbv zeta.
  apply agree_if; [apply agree_throw|].
  apply agree_bind.
  - unfold regulation. apply agree_while. intros s. apply agree_round.
  - intros reg. unfold overtimeLoop. apply agree_while.
    intros s. apply agree_round.
Qed.

End DriveAgree.

Module ProjectionAgree.
Import Projection.

Section WithMath.

Variables Math_log Math_cos Math_sqrt : number -> number.
Variable Math_PI : number.

Lemma agree_ensureNonNegative label value :
  agree (ensureNonNegative label value) (ensureNonNegative label value).
Proof.
  unfold ensureNonNegative.
  destruct (_ || _); [apply agree_throw|apply agree_ret].
Qed.

Lemma agree_ensurePositive label value :
  agree (ensurePositive label value) (ensurePositive label value).
Proof.
  unfold ensurePositive.
  destruct (_ || _); [apply agree_throw|apply agree_ret].
Qed.

Lemma agree_randomGaussian R1 R2 fuel mean stdDev :
  agree (randomGaussian R1 Math_log Math_cos Math_sqrt Math_PI fuel mean stdDev)
        (randomGaussian R2 Math_log Math_cos Math_sqrt Math_PI fuel mean stdDev).
Proof.
  unfold randomGaussian, resample, rng.
  apply agree_bind; [apply agree_while; intros; apply agree_rng|intros u].
  apply agree_bind; [apply agree_while; intros; apply agree_rng|intros v].
  apply agree_ret.
Qed.

Lemma agree_calculateTeamDetail R1 R2 fuel team opponent :
  agree (calculateTeamDetail R1 Math_log Math_cos Math_sqrt Math_PI
           fuel team opponent)
        (calculateTeamDetail R2 Math_log Math_cos Math_sqrt Math_PI
           fuel team opponent).
Proof.
  unfold calculateTeamDetail.
  apply agree_bind; [apply agree_ensureNonNegative|intros _].
  apply agree_bind; [apply agree_ensureNonNegative|intros _].
  apply agree_bind; [apply agree_ensurePositive|intros _].
  apply agree_bind; [apply agree_ensureNonNegative|intros _].
  apply agree_bind; [apply agree_ensureNonNegative|intros _].
  apply agree_bind; [apply agree_randomGaussian|intros x].
  apply agree_ret.
Qed.

Lemma agree_simulateOtPoints R1 R2 fuel expectedReg ypp turnoverRate scale :
  agree (simulateOtPoints R1 Math_log Math_cos Math_sqrt Math_PI
           fuel expectedReg ypp turnoverRate scale)
        (simulateOtPoints R2 Math_log Math_cos Math_sqrt Math_PI
           fuel expectedReg ypp turnoverRate scale).
Proof.
  unfold simulateOtPoints.
  apply agree_bind; [apply agree_ensureNonNegative|intros _].
  apply agree_bind; [apply agree_ensurePositive|intros _].
  apply agree_bind; [apply agree_ensureNonNegative|intros _].
  apply agree_bind; [apply agree_randomGaussian|intros x].
  apply agree_ret.
Qed.

Lemma agree_projection_simulateGame R1 R2 fuel home away config :
  agree (simulateGame R1 Math_log Math_cos Math_sqrt Math_PI
           fuel home away config)
        (simulateGame R2 Math_log Math_cos Math_sqrt Math_PI
           fuel home away config).
Proof.
  unfold simulateGame. apply agree_bind; [|intros; apply agree_ret].
  unfold simulateGame_body. cbv zeta.
  apply agree_bind; [apply agree_calculateTeamDetail|intros hd].
  apply agree_bind; [apply agree_calculateTeamDetail|intros ad].
  apply agree_bind; [|intros; apply agree_ret].
  apply agree_if; [|apply agree_ret].
  apply agree_bind; [|intros; apply agree_ret].
  unfold overtimeLoop. apply agree_while. intros l. unfold overtimeRound.
  apply agree_bind; [apply agree_simulateOtPoints|intros x].
  apply agree_bind; [apply agree_simulateOtPoints|intros y].
  apply agree_ret.
Qed.

End WithMath.
End ProjectionAgree.

Lemma seeded_initial_heaps (seed : option number) (p1 p2 : nat) :
  seeded seed = true ->
  same_lcg (initial_heap seed p1) (initial_heap seed p2).
Proof.
  intros Hs. unfold same_lcg, initial_heap, is_lcg. cbn [rng_cell draws].
  split; [reflexivity|]. split; [|reflexivity].
  destruct seed as [[| | |q]|]; try discriminate Hs; try reflexivity;
    now rewrite createRandomGenerator_finite.
Qed.

(** C1.  With a seed that takes the seeded path, the outcome of
    [simulateGame] does not depend on the platform's random source nor on
    where that source stands: two calls with the same inputs produce the
    same outcome (the same result, field by field, or the same failure)
    and leave their generators in the same state after the same number of
    draws.  This holds for the drive engine and for the projection
    engine. *)
Theorem seeded_simulateGame_deterministic :
  (forall (R1 R2 : nat -> number) (p1 p2 fuel : nat)
          (home away : Drive.TeamStats) (config : Drive.GameConfig),
      seeded (Drive.seed config) = true ->
      let run1 := Drive.run_simulateGame R1 fuel home away config p1 in
      let run2 := Drive.run_simulateGame R2 fuel home away config p2 in
      fst run1 = fst run2 /\ same_lcg (snd run1) (snd run2))
  /\ (forall (R1 R2 : nat -> number)
             (Math_log Math_cos Math_sqrt : number -> number)
             (Math_PI : number) (p1 p2 fuel : nat)
             (home away : Projection.TeamStats)
             (config : Projection.GameConfig),
      seeded (Projection.seed config) = true ->
      let run1 :=
        Projection.run_simulateGame R1 Math_log Math_cos Math_sqrt Math_PI
          fuel home away config p1 in
      let run2 :=
        Projection.run_simulateGame R2 Math_log Math_cos Math_sqrt Math_PI
          fuel home away config p2 in
      fst run1 = fst run2 /\ same_lcg (snd run1) (snd run2)).
Proof.
  split.
  - intros R1 R2 p1 p2 fuel home away config Hs run1 run2.
    apply DriveAgree.agree_drive_simulateGame. now apply seeded_initial_heaps.
  - intros R1 R2 Math_log Math_cos Math_sqrt Math_PI p1 p2 fuel home away
           config Hs run1 run2.
    apply ProjectionAgree.agree_projection_simulateGame. now apply seeded_initial_heaps.
Qed.

Lemma seeded_simulateGame_deterministic_witness :
  fst (Drive.run_simulateGame (fun _ => NaN) 12 drive_home
         drive_away drive_config 0)
  = fst (Drive.run_simulateGame (fun _ => Fin (1 # 3)) 12
           drive_home drive_away
           drive_config 7).
Proof.
  exact (proj1 (proj1 seeded_simulateGame_deterministic
                  (fun _ => NaN) (fun _ => Fin (1 # 3)) 0%nat 7%nat 12%nat
                  drive_home drive_away
                  drive_config eq_refl)).
Defined.

(** Without a seed the outcome follows the platform source: the same call
    on two sources gives two different scores. *)
Lemma unseeded_simulateGame_follows_platform :
  let config := Drive.mkGameConfig (Some (of_Z 1)) None None None in
  fst (Drive.run_simulateGame (fun _ => Fin (1 # 10)) 1
         drive_home drive_away config 0)
  <> fst (Drive.run_simulateGame (fun _ => Fin (9 # 10)) 1
            drive_home drive_away config 0).
Proof. vm_compute. discriminate. Qed.

(** *** Claims about both engines *)

(** C4, as amended.  In every result of the drive engine each score is
    the sum of the points of the team's drives and is not negative, and
    each drive list has [ceil(drivesPerTeam)] entries plus one per
    overtime round played.  In every result of the projection engine each
    score is the regulation [finalPoints] to which the overtime points
    were added round by round and then the tiebreak point, if the team
    got it, each addition rounded as binary64 does; and it is not
    negative. *)
Theorem score_is_sum_of_parts :
  (forall (Math_random : nat -> number) (fuel : nat)
          (home away : Drive.TeamStats) (config : Drive.GameConfig)
          (pos : nat) (r : Drive.SimulationResult) (h' : Heap),
      Drive.run_simulateGame Math_random fuel home away config pos
      = (Returned r, h') ->
      exists roundsPlayed d,
        Drive.simulateGame_body Math_random fuel home away config
          (initial_heap (Drive.seed config) pos)
        = (Returned (roundsPlayed, r), h')
        /\ Drive.resolved_drivesPerTeam config = Fin d
        /\ Drive.homeScore r = sum_points (Drive.homeDrives r)
        /\ Drive.awayScore r = sum_points (Drive.awayDrives r)
        /\ Z.of_nat (List.length (Drive.homeDrives r))
           = Qceiling d + roundsPlayed
        /\ Z.of_nat (List.length (Drive.awayDrives r))
           = Qceiling d + roundsPlayed
        /\ 0 <= Drive.homeScore r /\ 0 <= Drive.awayScore r)
  /\ (forall (Math_random : nat -> number)
             (Math_log Math_cos Math_sqrt : number -> number)
             (Math_PI : number) (fuel : nat)
             (home away : Projection.TeamStats)
             (config : Projection.GameConfig) (pos : nat)
             (r : Projection.SimulationResult) (h' : Heap),
      Projection.run_simulateGame Math_random Math_log Math_cos Math_sqrt
        Math_PI fuel home away config pos = (Returned r, h') ->
      Projection.homeScore r
      = with_bonus (running_score (Projection.homeDetail r))
          (fst (tiebreakBonus r))
      /\ Projection.awayScore r
         = with_bonus (running_score (Projection.awayDetail r))
             (snd (tiebreakBonus r))
      /\ (Projection.homeScore r <? of_Z 0)%js = false
      /\ (Projection.awayScore r <? of_Z 0)%js = false).
Proof.
  split.
  - intros Math_random fuel home away config pos r h' H.
    unfold Drive.run_simulateGame in H.
    apply DriveLoops.drive_simulateGame_returned in H. destruct H as [n H].
    pose proof (DriveLoops.body_returned_facts _ _ _ _ _ _ _ _ _ H)
      as (Hi & _ & d & Ed & _ & L1 & L2).
    destruct Hi as (H1 & H2 & _ & _ & _ & _ & _ & _ & H9 & H10).
    exists n, d. repeat split; assumption.
  - intros Math_random Math_log Math_cos Math_sqrt Math_PI fuel home away
           config pos r h' H.
    unfold Projection.run_simulateGame in H.
    apply ProjectionClaims.projection_simulateGame_returned in H. destruct H as [l H].
    now apply ProjectionClaims.projection_score_parts in H.
Qed.

Lemma score_is_sum_of_parts_witness :
  Drive.homeScore drive_result
  = sum_points (Drive.homeDrives drive_result)
  /\ List.length (Drive.homeDrives drive_result) = 12%nat.
Proof.
  destruct (proj1 score_is_sum_of_parts _ _ _ _ _ _ _ _
              DriveResults.example_run)
    as (n & d & _ & _ & H & _).
  split; [exact H|reflexivity].
Defined.

Lemma huge_overtime_run :
  projection_huge_overtime_run = projection_huge_overtime_outcome.
Proof. vm_compute. reflexivity. Qed.

(** C4 as stated fails in both engines.  At [drivesPerTeam = 2.5] the
    drive engine returns three drives per team after no overtime round,
    and 3 is not 2.5 + 0.  At statistics of [2^54] points per game, where
    consecutive binary64 values are 4 apart, the projection engine adds
    three overtime rounds of one point and the tiebreak point to a home
    score that stays [2^54], while [finalPoints] plus the sum of the
    overtime points plus the bonus is [2^54 + 4]. *)
Lemma score_is_not_sum_of_parts :
  match
    fst (Drive.simulateGame_body (fun _ => NaN) 12 drive_home
           drive_away drive_fractional_config
           (initial_heap (Some (of_Z 42)) 0))
  with
  | Returned (roundsPlayed, r) =>
      roundsPlayed = 0
      /\ List.length (Drive.homeDrives r) = 3%nat
      /\ (of_Z (Z.of_nat (List.length (Drive.homeDrives r)))
          === Fin (5 # 2) + of_Z roundsPlayed)%js = false
  | _ => False
  end
  /\ match fst projection_huge_overtime_run with
     | Returned r =>
         Projection.homeScore r = of_Z (2 ^ 54)
         /\ Projection.finalPoints (Projection.homeDetail r) = of_Z (2 ^ 54)
         /\ Projection.overtimePoints (Projection.homeDetail r)
            = [of_Z 1; of_Z 1; of_Z 1]
         /\ tiebreakBonus r = (true, false)
         /\ (finalWithOt (Projection.homeDetail r) +! of_Z 1)%js
            = of_Z (2 ^ 54 + 4)
         /\ (Projection.homeScore r
             === finalWithOt (Projection.homeDetail r) +! of_Z 1)%js = false
     | _ => False
     end.
Proof. split; vm_compute; repeat split. Qed.

(** C8, as amended.  A failing call returns no result, and it stops at
    one of these points.  Drive engine: on [drivesPerTeam] or on the
    inputs of the first drive (home offense, away defense), with the heap
    untouched; or on the inputs of the second drive (away offense, home
    defense), after the first drive drew once or twice.  Projection
    engine: on the inputs of the home detail (the home fields and the
    away [pointsAllowedPerGame]), with the heap untouched; or on the
    remaining inputs of the away detail, after the home detail drew at
    least twice; or, with ties not allowed, in an overtime round on the
    expected points of a team, which overflowed, after both details drew
    at least four values. *)
Theorem failing_call_stops_at_validation :
  (forall (Math_random : nat -> number) (fuel : nat)
          (home away : Drive.TeamStats) (config : Drive.GameConfig)
          (pos : nat) (msg : string) (h' : Heap),
      Drive.run_simulateGame Math_random fuel home away config pos
      = (Thrown msg, h') ->
      let h0 := initial_heap (Drive.seed config) pos in
      (h' = h0 /\ (Drive.resolved_drivesPerTeam config >? of_Z 0)%js = false)
      \/ ((Drive.resolved_drivesPerTeam config >? of_Z 0)%js = true
          /\ h' = h0 /\ first_drive_valid home away = false)
      \/ ((Drive.resolved_drivesPerTeam config >? of_Z 0)%js = true
          /\ first_drive_valid home away = true
          /\ second_drive_valid home away = false
          /\ (1 <= draws h' <= 2)%nat))
  /\ (forall (Math_random : nat -> number)
             (Math_log Math_cos Math_sqrt : number -> number)
             (Math_PI : number) (fuel : nat)
             (home away : Projection.TeamStats)
             (config : Projection.GameConfig) (pos : nat)
             (msg : string) (h' : Heap),
      Projection.run_simulateGame Math_random Math_log Math_cos Math_sqrt
        Math_PI fuel home away config pos = (Thrown msg, h') ->
      let h0 := initial_heap (Projection.seed config) pos in
      (h' = h0 /\ detail_inputs_valid home away = false)
      \/ (detail_inputs_valid home away = true
          /\ detail_inputs_valid away home = false
          /\ (2 <= draws h')%nat)
      \/ (detail_inputs_valid home away = true
          /\ detail_inputs_valid away home = true
          /\ Projection.resolved_allowTies config = false
          /\ (nonNegative (expected_of home away) = false
              \/ nonNegative (expected_of away home) = false)
          /\ msg = "expectedReg debe ser un numero mayor o igual a 0."%string
          /\ (4 <= draws h')%nat)).
Proof.
  split.
  - intros Math_random fuel home away config pos msg h' H h0.
    unfold Drive.run_simulateGame in H. fold h0 in H.
    apply DriveFailures.drive_simulateGame_thrown in H.
    destruct H as [H|[Hd [[E V]|(V1 & V2 & D)]]];
      [left; exact H|right; left; auto|].
    right. right. unfold h0, initial_heap in D. cbn [draws] in D.
    split; [exact Hd|]. split; [exact V1|]. split; [exact V2|lia].
  - intros Math_random Math_log Math_cos Math_sqrt Math_PI fuel home away
           config pos msg h' H h0.
    unfold Projection.run_simulateGame in H. fold h0 in H.
    apply ProjectionClaims.projection_simulateGame_thrown in H.
    destruct H as [[V E]|[(V1 & V2 & D)|(V1 & V2 & At & D & He & Hm)]];
      [left; now split| |].
    + right. left. unfold h0, initial_heap in D. cbn [draws] in D.
      split; [exact V1|]. split; [exact V2|lia].
    + right. right. unfold h0, initial_heap in D. cbn [draws] in D.
      split; [exact V1|]. split; [exact V2|]. split; [exact At|].
      split; [exact He|]. split; [exact Hm|lia].
Qed.

Lemma invalid_away_run :
  Drive.run_simulateGame (fun _ => NaN) 12 drive_home drive_invalid_away
    drive_config 0
  = (Thrown "offensePtsDrive must be greater than 0",
     mkHeap (Lcg (of_Z 1126542223)) 0 2).
Proof. vm_compute. reflexivity. Qed.

(** C8 as stated fails when only the away offense is invalid: the call
    of the drive engine fails after the first home drive has consumed two
    values, from the seeded generator or from the platform source, which
    it leaves two values further.  It also fails in the projection engine
    at statistics of [2^1023] points per game: their sum overflows, and
    the first overtime round rejects the expected points after the two
    details have consumed four values. *)
Lemma failing_call_consumes_draws :
  Drive.run_simulateGame (fun _ => NaN) 12 drive_home
    drive_invalid_away drive_config 0
  = (Thrown "offensePtsDrive must be greater than 0",
     mkHeap (Lcg (of_Z 1126542223)) 0 2)
  /\ Drive.run_simulateGame (fun _ => Fin (1 # 10)) 12
       drive_home drive_invalid_away drive_unseeded_config 0
     = (Thrown "offensePtsDrive must be greater than 0",
        mkHeap MathRandom 2 2)
  /\ projection_valid projection_overflow = true
  /\ expected_of projection_overflow projection_overflow = PInf
  /\ Projection.run_simulateGame example_random example_log example_cos
       example_sqrt example_PI 4 projection_overflow projection_overflow
       projection_overflow_config 0
     = (Thrown "expectedReg debe ser un numero mayor o igual a 0.",
        mkHeap (Lcg (of_Z 565444343)) 0 4).
Proof. repeat split; vm_compute; reflexivity. Qed.

Lemma failing_call_stops_at_validation_witness :
  (Drive.resolved_drivesPerTeam drive_config >? of_Z 0)%js
  = true
  /\ first_drive_valid drive_home drive_invalid_away = true
  /\ second_drive_valid drive_home drive_invalid_away = false
  /\ (1 <= draws (mkHeap (Lcg (of_Z 1126542223)) 0 2) <= 2)%nat.
Proof.
  destruct (proj1 failing_call_stops_at_validation _ _ _ _ _ _ _ _
              invalid_away_run)
    as [[E _]|[(_ & E & _)|H]].
  - discriminate E.
  - discriminate E.
  - exact H.
Defined.

(** *** The projection example *)

Lemma overtime_present_iff_witness :
  exists r h',
    projection_huge_overtime_run = (Returned r, h')
    /\ forall o, Projection.overtime r = Some o ->
         Projection.rounds o = 3
         /\ Projection.tiebreakApplied o = Some Projection.home.
Proof.
  eexists; eexists. split; [exact huge_overtime_run|].
  destruct (ProjectionClaims.overtime_present_iff _ _ _ _ _ _ _ _ _ _ _ _
              huge_overtime_run) as (_ & _ & H & _).
  intros o Ho. rewrite (H o Ho). split; vm_compute; reflexivity.
Defined.

(* ------------------------------------------------------------------ *)
(** * Further properties *)

(** *** [clamp] and the scoring probability *)

Lemma Qle_bool_false (x y : Q) : Qle_bool x y = false <-> (y < x)%Q.
Proof.
  split.
  - intros H. apply Qnot_le_lt. intros Hc. apply Qle_bool_iff in Hc.
    congruence.
  - intros H. destruct (Qle_bool x y) eqn:E; [|reflexivity].
    apply Qle_bool_iff in E. apply Qle_not_lt in E. contradiction.
Qed.

Ltac qbool :=
  repeat match goal with
  | H : Qle_bool _ _ = true |- _ => apply Qle_bool_iff in H
  | H : Qle_bool _ _ = false |- _ => apply Qle_bool_false in H
  | H : negb _ = true |- _ => apply negb_true_iff in H
  | H : negb _ = false |- _ => apply negb_false_iff in H
  | |- Qle_bool _ _ = true => apply Qle_bool_iff
  | |- Qle_bool _ _ = false => apply Qle_bool_false
  | |- negb _ = true => apply negb_true_iff
  | |- negb _ = false => apply negb_false_iff
  end.

(** [clamp] of a finite value between finite bounds, by cases. *)
Lemma clamp_Fin_cases (x lo hi : Q) :
  (lo <= hi)%Q ->
  ((x < lo)%Q /\ clamp (Fin x) (Fin lo) (Fin hi) = Fin lo)
  \/ ((lo <= x)%Q /\ (x <= hi)%Q /\ clamp (Fin x) (Fin lo) (Fin hi) = Fin x)
  \/ ((hi < x)%Q /\ clamp (Fin x) (Fin lo) (Fin hi) = Fin hi).
Proof.
  intros Hb. unfold clamp, Math_max, Math_min, js_lt.
  destruct (Qle_bool lo x) eqn:E1; cbn [negb].
  - apply Qle_bool_iff in E1.
    destruct (Qle_bool x hi) eqn:E2; cbn [negb].
    + apply Qle_bool_iff in E2. right; left. auto.
    + apply Qle_bool_false in E2. right; right. auto.
  - apply Qle_bool_false in E1. left. split; [exact E1|].
    destruct (Qle_bool lo hi) eqn:E2; cbn [negb]; [reflexivity|].
    apply Qle_bool_false in E2. apply Qlt_not_le in E2. contradiction.
Qed.

(** X1.  Between finite bounds [lo <= hi], [clamp] keeps a value that is
    within the bounds, replaces a smaller one (also [-Infinity]) by [lo]
    and a larger one (also [+Infinity]) by [hi], so the result of a value
    other than [NaN] is always within the bounds; [NaN] stays [NaN]. *)
Theorem clamp_within_bounds (value : number) (lo hi : Q) :
  (lo <= hi)%Q ->
  clamp NaN (Fin lo) (Fin hi) = NaN
  /\ (value <> NaN ->
      (Fin lo <=? clamp value (Fin lo) (Fin hi))%js = true
      /\ (clamp value (Fin lo) (Fin hi) <=? Fin hi)%js = true)
  /\ ((Fin lo <=? value)%js = true -> (value <=? Fin hi)%js = true ->
      clamp value (Fin lo) (Fin hi) = value)
  /\ ((value <? Fin lo)%js = true -> clamp value (Fin lo) (Fin hi) = Fin lo)
  /\ ((Fin hi <? value)%js = true -> clamp value (Fin lo) (Fin hi) = Fin hi).
Proof.
  intros Hb. split; [reflexivity|].
  assert (Hlh : Qle_bool lo hi = true) by now apply Qle_bool_iff.
  assert (Hll : Qle_bool lo lo = true) by (apply Qle_bool_iff, Qle_refl).
  assert (Hhh : Qle_bool hi hi = true) by (apply Qle_bool_iff, Qle_refl).
  destruct value as [| | |x].
  - split; [intros H; now contradiction H|]. repeat split; discriminate.
  - assert (E : clamp PInf (Fin lo) (Fin hi) = Fin hi) by reflexivity.
    rewrite E. simpl. rewrite Hlh, Hhh.
    repeat split; auto; discriminate.
  - assert (E : clamp NInf (Fin lo) (Fin hi) = Fin lo).
    { unfold clamp, Math_max, Math_min, js_lt. now rewrite Hlh. }
    rewrite E. simpl. rewrite Hlh, Hll.
    repeat split; auto; discriminate.
  - unfold js_le, js_lt.
    destruct (clamp_Fin_cases x lo hi Hb)
      as [[H1 ->]|[(H1 & H2 & ->)|[H1 ->]]];
      (split; [intros _; split; qbool; lra|]);
      (split; [intros H3 H4; qbool; try reflexivity; exfalso; lra|]);
      (split; intros H3; qbool; try reflexivity; exfalso; lra).
Qed.

Lemma clamp_within_bounds_witness :
  clamp (of_Z 5) (Fin (1 # 5)) (Fin 4) = Fin 4.
Proof.
  exact (proj2 (proj2 (proj2 (proj2
    (clamp_within_bounds (of_Z 5) (1 # 5) 4 ltac:(discriminate)))))
    eq_refl).
Defined.

(** [clamp] of a value that passes [value > 0]: a finite result within
    the bounds. *)
Lemma clamp_gt_zero (value : number) (lo hi : Q) :
  (0 < lo)%Q -> (lo <= hi)%Q -> (value >? of_Z 0)%js = true ->
  exists q, clamp value (Fin lo) (Fin hi) = Fin q
            /\ (lo <= q)%Q /\ (q <= hi)%Q.
Proof.
  intros H0 Hb Hv. destruct value as [| | |x]; try discriminate.
  - exists hi. split; [reflexivity|]. split; [exact Hb|apply Qle_refl].
  - destruct (clamp_Fin_cases x lo hi Hb)
      as [[H1 ->]|[(H1 & H2 & ->)|[H1 ->]]].
    + exists lo. split; [reflexivity|]. split; [apply Qle_refl|exact Hb].
    + exists x. auto.
    + exists hi. split; [reflexivity|]. split; [exact Hb|apply Qle_refl].
Qed.

(** X2.  For an offense and a defense that pass the validation, the
    scoring probability [simulateDrive] compares the first random value
    with is a finite number between 1/50 and 17/20: no drive is certain
    to score, and none is certain not to. *)
Theorem scoringProbability_bounds (offense defense : number) :
  (offense >? of_Z 0)%js = true -> (defense >? of_Z 0)%js = true ->
  exists p, Drive.scoringProbability offense defense = Fin p
            /\ (1 # 50 <= p)%Q /\ (p <= 17 # 20)%Q.
Proof.
  intros Ho Hd. unfold Drive.scoringProbability.
  unfold Drive.MIN_POINTS_PER_DRIVE, Drive.MAX_POINTS_PER_DRIVE,
    Drive.BASE_SCORING_MULTIPLIER, Drive.MAX_SCORING_PROBABILITY.
  change (of_Z 4) with (Fin 4). change (of_Z 0) with (Fin 0).
  destruct (clamp_gt_zero offense (1 # 5) 4) as (o & -> & O1 & O2);
    [reflexivity|discriminate|exact Ho|].
  destruct (clamp_gt_zero defense (1 # 5) 4) as (d & -> & D1 & D2);
    [reflexivity|discriminate|exact Hd|].
  unfold js_div, js_mul, fin.
  assert (Dn : ~ (d == 0)%Q) by lra.
  destruct (Qeq_bool d 0) eqn:E.
  { apply Qeq_bool_iff in E. contradiction. }
  set (r := Qred (o / d)).
  assert (Er : (r * d == o)%Q).
  { unfold r. rewrite Qred_correct. field. exact Dn. }
  assert (R1 : (1 # 20 <= r)%Q) by nra.
  set (x := Qred ((2 # 5) * r)).
  assert (Ex : (x == (2 # 5) * r)%Q) by (unfold x; apply Qred_correct).
  destruct (clamp_Fin_cases x 0 (17 # 20))
    as [[H1 ->]|[(H1 & H2 & ->)|[H1 ->]]]; [discriminate| | |].
  - exfalso. lra.
  - exists x. split; [reflexivity|]. split; lra.
  - exists (17 # 20). split; [reflexivity|]. split; [discriminate|apply Qle_refl].
Qed.

Lemma scoringProbability_bounds_witness :
  exists p, Drive.scoringProbability (Fin (5 # 2)) (Fin (12 # 5)) = Fin p
            /\ (1 # 50 <= p)%Q /\ (p <= 17 # 20)%Q.
Proof.
  apply (scoringProbability_bounds (Fin (5 # 2)) (Fin (12 # 5)));
    reflexivity.
Defined.

(** *** The drive engine: drives, draws and overtime *)

Module DriveTrace.
Import Drive DriveFacts DriveInv DriveLoops.

Lemma count_results_le (drives : list DriveOutcome) :
  count_result is_TD drives + count_result is_FG drives
  <= Z.of_nat (List.length drives).
Proof.
  unfold count_result. induction drives as [|o l IH]; [simpl; lia|].
  cbn [filter List.length].
  destruct (result o); cbn [is_TD is_FG List.length]; lia.
Qed.

Lemma count_result_nonneg r (drives : list DriveOutcome) :
  0 <= count_result r drives.
Proof. unfold count_result. lia. Qed.

(** One recorded drive: one value drawn, one more if the drive scored. *)
Lemma values_drawn_record team o st :
  outcome_wf o -> drive_inv st ->
  values_drawn (recordOutcome team o st)
  = (values_drawn st
     + match result o with NONE => 1 | _ => 2 end)%nat.
Proof.
  intros Ho (_ & _ & H3 & H4 & H5 & H6 & _).
  pose proof (count_result_nonneg is_TD (homeDrives st)).
  pose proof (count_result_nonneg is_FG (homeDrives st)).
  pose proof (count_result_nonneg is_TD (awayDrives st)).
  pose proof (count_result_nonneg is_FG (awayDrives st)).
  unfold values_drawn.
  destruct team; cbn [recordOutcome homeDrives awayDrives summary
                      homeTDs homeFGs awayTDs awayFGs];
    rewrite length_app; cbn [List.length];
    destruct Ho as [->|[->| ->]]; cbn [result is_TD is_FG]; lia.
Qed.

Section WithPlatform.

Variable Math_random : nat -> number.

(** A returning drive leaves the generator one call further, or two when
    it scored. *)
Lemma simulateDrive_heap offense defense h o h' :
  simulateDrive Math_random offense defense h = (Returned o, h') ->
  outcome_wf o
  /\ h' = after_draws Math_random
            match result o with NONE => 1 | _ => 2 end h.
Proof.
  intros H. pose proof (simulateDrive_returned _ _ _ _ _ _ H) as [V _].
  apply andb_true_iff in V. destruct V as [V1 V2].
  rewrite (simulateDrive_valid_run _ _ _ _ V1 V2) in H.
  destruct (nth_draw Math_random 0 h <? scoringProbability offense defense)%js.
  - destruct (nth_draw Math_random 1 h <? Fin (3 # 4))%js;
      injection H as <- <-; cbn [result]; unfold outcome_wf; auto.
  - injection H as <- <-. cbn [result]. unfold outcome_wf. auto.
Qed.

Lemma round_step_trace home away h0 s h s' h' :
  trace_inv Math_random h0 s h ->
  (st <- playRound Math_random home away (snd s) ;; ret (fst s + 1, st)) h
  = (Returned s', h') ->
  trace_inv Math_random h0 s' h' /\ fst s' = fst s + 1.
Proof.
  intros (Hi & Fh & Fa & Eh) H. bind_inv H as st1 h1 Hp.
  unfold ret in H. assert (Hs : s' = (fst s + 1, st1)) by congruence.
  assert (Hh : h' = h1) by congruence. subst s' h'. cbn [fst snd].
  split; [|reflexivity].
  unfold playRound in Hp.
  bind_inv Hp as o1 h2 Hd1. bind_inv Hp as o2 h3 Hd2.
  unfold ret in Hp.
  assert (Es : st1 = recordOutcome away_team o2
                       (recordOutcome home_team o1 (snd s))) by congruence.
  assert (Eh3 : h1 = h3) by congruence. subst st1 h1.
  apply simulateDrive_heap in Hd1. destruct Hd1 as [W1 E1].
  apply simulateDrive_heap in Hd2. destruct Hd2 as [W2 E2].
  pose proof (recordOutcome_inv home_team o1 (snd s) W1 Hi) as Hi1.
  pose proof (recordOutcome_inv away_team o2 _ W2 Hi1) as Hi2.
  unfold trace_inv. cbn [fst snd]. split; [exact Hi2|].
  split; [|split].
  - cbn [recordOutcome homeDrives]. apply Forall_app. split; [exact Fh|].
    constructor; [exact W1|constructor].
  - cbn [recordOutcome awayDrives]. apply Forall_app. split; [exact Fa|].
    constructor; [exact W2|constructor].
  - rewrite (values_drawn_record away_team o2 _ W2 Hi1).
    rewrite (values_drawn_record home_team o1 _ W1 Hi).
    rewrite E2, E1, Eh. rewrite !after_draws_add. f_equal. lia.
Qed.

Lemma trace_inv_empty h0 : trace_inv Math_random h0 (0, empty_result) h0.
Proof.
  unfold trace_inv. cbn [fst snd]. split; [apply drive_inv_empty|].
  split; [constructor|]. split; [constructor|reflexivity].
Qed.

(** The invariant at the end of a returning call. *)
Lemma body_trace fuel home away config rounds r h0 h' :
  simulateGame_body Math_random fuel home away config h0
  = (Returned (rounds, r), h') ->
  trace_inv Math_random h0 (rounds, r) h'.
Proof.
  intros H. apply drive_body_returned in H.
  destruct H as [_ [reg [h1 [Hreg Hot]]]].
  unfold regulation in Hreg.
  eapply (while_inv (trace_inv Math_random h0)) in Hreg;
    [| |apply trace_inv_empty].
  2:{ intros s h s' h2 Hi _ Hb.
      exact (proj1 (round_step_trace _ _ _ _ _ _ _ Hi Hb)). }
  destruct Hreg as [Hreg _].
  unfold overtimeLoop in Hot.
  eapply (while_inv (trace_inv Math_random h0)) in Hot.
  - exact (proj1 Hot).
  - intros s h s' h2 Hi _ Hb.
    exact (proj1 (round_step_trace _ _ _ _ _ _ _ Hi Hb)).
  - exact Hreg.
Qed.

(** How the overtime loop ends. *)
Lemma overtimeLoop_rounds fuel home away config st0 h0 s h' :
  overtimeLoop Math_random fuel home away config st0 h0 = (Returned s, h') ->
  rounds_inv config st0 h0 s h'
  /\ (overtimeEnabled config = false
      \/ homeScore (snd s) <> awayScore (snd s)
      \/ exists m, maxOvertimeRounds config = Fin m /\ Qceiling m <= fst s).
Proof.
  intros H. unfold overtimeLoop in H.
  eapply (while_inv (rounds_inv config st0 h0)) in H.
  - destruct H as [Hi Hc]. split; [exact Hi|].
    destruct (overtimeEnabled config); [|now left]. right.
    destruct (homeScore (snd s) =? awayScore (snd s)) eqn:Et;
      [|left; now apply Z.eqb_neq].
    right. cbn [andb] in Hc. apply negb_false_iff in Hc.
    apply andb_true_iff in Hc. destruct Hc as [Hf Hg].
    destruct (maxOvertimeRounds config) as [| | |m]; try discriminate Hf.
    exists m. split; [reflexivity|].
    unfold js_ge in Hg. rewrite js_le_Fin_of_Z in Hg. lia.
  - intros s0 h s1 h1 (H0 & Hz & Hp) Hc Hb.
    bind_inv Hb as st1 h2 Hr. unfold ret in Hb.
    assert (Es : s1 = (fst s0 + 1, st1)) by congruence.
    assert (Eh : h1 = h2) by congruence. subst s1 h1.
    apply andb_true_iff in Hc. destruct Hc as [Hc Hm].
    apply andb_true_iff in Hc. destruct Hc as [He Ht].
    apply Z.eqb_eq in Ht.
    unfold rounds_inv. cbn [fst snd]. split; [lia|]. split; [lia|].
    intros _. split; [exact He|]. split.
    + destruct (Z.eq_dec (fst s0) 0) as [E0|N0].
      * destruct (Hz E0) as [<- _]. exact Ht.
      * apply Hp. lia.
    + intros m Em. rewrite Em in Hm. cbn [Number_isFinite andb] in Hm.
      apply negb_true_iff in Hm. unfold js_ge in Hm.
      rewrite js_le_Fin_of_Z in Hm. lia.
  - unfold rounds_inv. cbn [fst snd]. split; [lia|]. split; [auto|lia].
Qed.

End WithPlatform.
End DriveTrace.

Lemma overtime_example_run :
  Drive.run_simulateGame (fun _ => NaN) 2 drive_home drive_away
    drive_overtime_config 0
  = (Returned drive_overtime_result, mkHeap (Lcg (of_Z 1850777578)) 0 8).
Proof. vm_compute. reflexivity. Qed.

(** X3.  With ties allowed (the default) or the overtime switched off,
    the drive engine plays no overtime round: every result has exactly
    [ceil(drivesPerTeam)] drives per team, and it is the state the
    regulation loop left, with the generator where regulation left it. *)
Theorem no_overtime_unless_enabled
    (Math_random : nat -> number) (fuel : nat) (home away : Drive.TeamStats)
    (config : Drive.GameConfig) (pos : nat) (r : Drive.SimulationResult)
    (h' : Heap) :
  Drive.allowTies config <> Some false
  \/ (exists m, Drive.overtime config
                = Some (Drive.mkOvertimeConfig false m)) ->
  Drive.run_simulateGame Math_random fuel home away config pos
  = (Returned r, h') ->
  exists d,
    Drive.resolved_drivesPerTeam config = Fin d
    /\ List.length (Drive.homeDrives r) = Z.to_nat (Qceiling d)
    /\ List.length (Drive.awayDrives r) = Z.to_nat (Qceiling d)
    /\ Drive.regulation Math_random fuel home away (Fin d)
         (initial_heap (Drive.seed config) pos)
       = (Returned (Qceiling d, r), h').
Proof.
  intros Hc H.
  assert (He : Drive.overtimeEnabled config = false).
  { unfold Drive.overtimeEnabled. destruct Hc as [Hc|[m Hc]].
    - destruct (Drive.allowTies config) as [[|]|]; try reflexivity.
      now contradiction Hc.
    - rewrite Hc. cbn [Drive.enabled]. apply andb_false_r. }
  unfold Drive.run_simulateGame in H.
  apply DriveLoops.drive_simulateGame_returned in H.
  destruct H as [n H].
  pose proof (DriveLoops.body_returned_facts _ _ _ _ _ _ _ _ _ H)
    as (_ & _ & d & Ed & Hd & L1 & L2).
  apply DriveLoops.drive_body_returned in H.
  destruct H as [_ [[i st] [h1 [Hreg Hot]]]].
  unfold Drive.overtimeLoop in Hot. rewrite while_exit in Hot
    by (rewrite He; reflexivity).
  unfold ret in Hot.
  assert (En : n = 0) by congruence.
  assert (Er : r = snd (i, st)) by congruence.
  assert (Eh : h' = h1) by congruence.
  cbn [snd] in Er. subst n r h'.
  exists d. split; [exact Ed|]. split; [lia|]. split; [lia|].
  rewrite Ed in Hreg. rewrite Hreg.
  apply DriveLoops.regulation_inv in Hreg.
  destruct Hreg as [(_ & H0 & _ & _ & Hp) Hx]. cbn [fst snd] in *.
  now rewrite (DriveLoops.drives_count d i Hd H0 Hp Hx).
Qed.

Lemma no_overtime_unless_enabled_witness :
  exists d,
    Drive.resolved_drivesPerTeam drive_config = Fin d
    /\ List.length (Drive.homeDrives drive_result) = Z.to_nat (Qceiling d)
    /\ List.length (Drive.awayDrives drive_result) = Z.to_nat (Qceiling d).
Proof.
  assert (Hc : Drive.allowTies drive_config <> Some false
               \/ (exists m, Drive.overtime drive_config
                             = Some (Drive.mkOvertimeConfig false m)))
    by (left; discriminate).
  destruct (no_overtime_unless_enabled _ _ _ _ _ _ _ _ Hc
              DriveResults.example_run) as (d & H1 & H2 & H3 & _).
  exists d. split; [exact H1|]. split; [exact H2|exact H3].
Defined.

(** X4.  The overtime of the drive engine.  In every result the drives
    beyond [ceil(drivesPerTeam)] are the overtime rounds, the same number
    for both teams; rounds are only played with overtime enabled; they
    never exceed a finite [maxRounds], rounded up, and a result that is
    still a tie although overtime is enabled has played exactly that
    many.  With a [maxRounds] that is not finite a returned result is
    never a tie. *)
Theorem overtime_ends_on_winner_or_cap
    (Math_random : nat -> number) (fuel : nat) (home away : Drive.TeamStats)
    (config : Drive.GameConfig) (pos : nat) (r : Drive.SimulationResult)
    (h' : Heap) :
  Drive.run_simulateGame Math_random fuel home away config pos
  = (Returned r, h') ->
  exists d rounds,
    Drive.resolved_drivesPerTeam config = Fin d
    /\ Z.of_nat (List.length (Drive.homeDrives r)) = Qceiling d + rounds
    /\ Z.of_nat (List.length (Drive.awayDrives r)) = Qceiling d + rounds
    /\ 0 <= rounds
    /\ (0 < rounds -> Drive.overtimeEnabled config = true)
    /\ (forall m, Drive.maxOvertimeRounds config = Fin m ->
                  rounds <= Z.max 0 (Qceiling m))
    /\ (Drive.overtimeEnabled config = true ->
        Drive.homeScore r = Drive.awayScore r ->
        exists m, Drive.maxOvertimeRounds config = Fin m
                  /\ rounds = Z.max 0 (Qceiling m)).
Proof.
  intros H. unfold Drive.run_simulateGame in H.
  apply DriveLoops.drive_simulateGame_returned in H.
  destruct H as [n H].
  pose proof (DriveLoops.body_returned_facts _ _ _ _ _ _ _ _ _ H)
    as (_ & Hn & d & Ed & Hd & L1 & L2).
  apply DriveLoops.drive_body_returned in H.
  destruct H as [_ [[i st] [h1 [_ Hot]]]]. cbn [snd] in Hot.
  apply DriveTrace.overtimeLoop_rounds in Hot.
  destruct Hot as [(_ & _ & Hp) Hx]. cbn [fst snd] in *.
  exists d, n. split; [exact Ed|]. split; [exact L1|]. split; [exact L2|].
  split; [exact Hn|]. split; [|split].
  - intros Hpos. exact (proj1 (Hp Hpos)).
  - intros m Em. destruct (Z.eq_dec n 0) as [->|Nz]; [lia|].
    assert (Hpos : 0 < n) by lia.
    destruct (Hp Hpos) as (_ & _ & Hm). specialize (Hm m Em). lia.
  - intros He Ht. destruct Hx as [Hx|[Hx|(m & Em & Hm)]];
      [congruence|contradiction|].
    exists m. split; [exact Em|].
    destruct (Z.eq_dec n 0) as [->|Nz]; [lia|].
    assert (Hpos : 0 < n) by lia.
    destruct (Hp Hpos) as (_ & _ & Hc). specialize (Hc m Em). lia.
Qed.

Lemma overtime_ends_on_winner_or_cap_witness :
  Drive.homeScore drive_overtime_result
  = Drive.awayScore drive_overtime_result
  /\ exists d rounds,
       Drive.resolved_drivesPerTeam drive_overtime_config = Fin d
       /\ Z.of_nat (List.length (Drive.homeDrives drive_overtime_result))
          = Qceiling d + rounds
       /\ (Drive.overtimeEnabled drive_overtime_config = true ->
           Drive.homeScore drive_overtime_result
           = Drive.awayScore drive_overtime_result ->
           exists m, Drive.maxOvertimeRounds drive_overtime_config = Fin m
                     /\ rounds = Z.max 0 (Qceiling m)).
Proof.
  split; [reflexivity|].
  destruct (overtime_ends_on_winner_or_cap _ _ _ _ _ _ _ _
              overtime_example_run)
    as (d & rounds & H1 & H2 & _ & _ & _ & _ & H7).
  exists d, rounds. auto.
Defined.

(** X5.  A returning call of the drive engine has called [rng] exactly
    once per drive and once more per drive that scored, and nothing else
    touches the generator: the final heap is the initial one that many
    calls later.  A seeded game leaves the platform's source where it
    stood; an unseeded one advances it by that number. *)
Theorem game_draws_per_drive
    (Math_random : nat -> number) (fuel : nat) (home away : Drive.TeamStats)
    (config : Drive.GameConfig) (pos : nat) (r : Drive.SimulationResult)
    (h' : Heap) :
  Drive.run_simulateGame Math_random fuel home away config pos
  = (Returned r, h') ->
  h' = after_draws Math_random (values_drawn r)
         (initial_heap (Drive.seed config) pos)
  /\ draws h' = values_drawn r
  /\ platform_pos h'
     = if seeded (Drive.seed config) then pos
       else (pos + values_drawn r)%nat.
Proof.
  intros H. unfold Drive.run_simulateGame in H.
  apply DriveLoops.drive_simulateGame_returned in H.
  destruct H as [n H]. apply DriveTrace.body_trace in H.
  destruct H as (_ & _ & _ & Eh). cbn [snd] in Eh.
  split; [exact Eh|]. split.
  - rewrite Eh, draws_after_draws. unfold initial_heap. cbn [draws]. lia.
  - rewrite Eh. clear Eh.
    destruct (seeded (Drive.seed config)) eqn:Es.
    + generalize (values_drawn r). intros k.
      assert (G : forall k h, is_lcg h = true ->
                platform_pos (after_draws Math_random k h) = platform_pos h).
      { clear. induction k as [|k IH]; intros h Hl; [reflexivity|].
        cbn [after_draws]. unfold is_lcg in Hl. unfold rng_step.
        destruct (rng_cell h) as [|s] eqn:E; [discriminate|].
        rewrite IH; reflexivity. }
      rewrite G; [reflexivity|].
      destruct (seeded_initial_heaps _ pos pos Es) as (_ & Hl & _).
      exact Hl.
    + assert (Hc : rng_cell (initial_heap (Drive.seed config) pos)
                   = MathRandom).
      { unfold initial_heap. cbn [rng_cell].
        destruct (Drive.seed config) as [[| | |q]|];
          try reflexivity; discriminate Es. }
      destruct (platform_after_draws Math_random (values_drawn r) _ Hc)
        as [_ ->]. reflexivity.
Qed.

Lemma game_draws_per_drive_witness :
  values_drawn drive_result = 35%nat
  /\ mkHeap (Lcg (of_Z 1965890610)) 0 35
     = after_draws (fun _ => NaN) (values_drawn drive_result)
         (initial_heap (Drive.seed drive_config) 0).
Proof.
  split; [reflexivity|].
  exact (proj1 (game_draws_per_drive _ _ _ _ _ _ _ _
                  DriveResults.example_run)).
Defined.

(** X6.  In every result of the drive engine each recorded drive is a
    touchdown worth 7, a field goal worth 3 or a drive without score
    worth 0, each team's touchdowns and field goals are at most its
    drives, and each score is at most 7 points per drive. *)
Theorem drives_are_well_formed
    (Math_random : nat -> number) (fuel : nat) (home away : Drive.TeamStats)
    (config : Drive.GameConfig) (pos : nat) (r : Drive.SimulationResult)
    (h' : Heap) :
  Drive.run_simulateGame Math_random fuel home away config pos
  = (Returned r, h') ->
  let s := Drive.summary r in
  Forall outcome_wf (Drive.homeDrives r)
  /\ Forall outcome_wf (Drive.awayDrives r)
  /\ Drive.homeTDs s + Drive.homeFGs s
     <= Z.of_nat (List.length (Drive.homeDrives r))
  /\ Drive.awayTDs s + Drive.awayFGs s
     <= Z.of_nat (List.length (Drive.awayDrives r))
  /\ Drive.homeScore r <= 7 * Z.of_nat (List.length (Drive.homeDrives r))
  /\ Drive.awayScore r <= 7 * Z.of_nat (List.length (Drive.awayDrives r)).
Proof.
  intros H s. unfold Drive.run_simulateGame in H.
  apply DriveLoops.drive_simulateGame_returned in H.
  destruct H as [n H]. apply DriveTrace.body_trace in H.
  destruct H as (Hi & Fh & Fa & _). cbn [snd] in *.
  destruct Hi as (_ & _ & H3 & H4 & H5 & H6 & H7 & H8 & _ & _).
  fold s in H3, H4, H5, H6, H7, H8.
  pose proof (DriveTrace.count_results_le (Drive.homeDrives r)).
  pose proof (DriveTrace.count_results_le (Drive.awayDrives r)).
  pose proof (DriveTrace.count_result_nonneg Drive.is_TD (Drive.homeDrives r)).
  pose proof (DriveTrace.count_result_nonneg Drive.is_FG (Drive.homeDrives r)).
  pose proof (DriveTrace.count_result_nonneg Drive.is_TD (Drive.awayDrives r)).
  pose proof (DriveTrace.count_result_nonneg Drive.is_FG (Drive.awayDrives r)).
  split; [exact Fh|]. split; [exact Fa|].
  split; [lia|]. split; [lia|]. split; lia.
Qed.

Lemma drives_are_well_formed_witness :
  Forall outcome_wf (Drive.homeDrives drive_result)
  /\ Drive.homeScore drive_result
     <= 7 * Z.of_nat (List.length (Drive.homeDrives drive_result)).
Proof.
  destruct (drives_are_well_formed _ _ _ _ _ _ _ _ DriveResults.example_run)
    as (H1 & _ & _ & _ & H5 & _).
  split; [exact H1|exact H5].
Defined.



(** *** Seeds that give the same generator *)

Lemma seed_state_floor (q : Q) :
  seed_state q = seed_state (inject_Z (Qfloor q)).
Proof. unfold seed_state. now rewrite Qfloor_Z. Qed.

(** X7.  Seeds the generator does not tell apart: the fraction of a seed
    is ignored; a seed that is not negative and the seed 2147483647
    later give the same generator; and a seed [z] with
    [-2147483646 < z <= 0] gives the generator of the seed
    [z + 2147483646], so the seeds 0 and 2147483646 give the same
    games. *)
Theorem seeds_collide (z : Z) :
  (forall q, Qfloor q = z ->
     createRandomGenerator (Some (Fin q))
     = createRandomGenerator (Some (of_Z z)))
  /\ (0 <= z ->
      createRandomGenerator (Some (of_Z (z + 2147483647)))
      = createRandomGenerator (Some (of_Z z)))
  /\ (-2147483646 < z <= 0 ->
      createRandomGenerator (Some (of_Z z))
      = createRandomGenerator (Some (of_Z (z + 2147483646)))).
Proof.
  unfold of_Z. split; [|split].
  - intros q <-. rewrite !createRandomGenerator_finite.
    now rewrite seed_state_floor.
  - intros Hz. rewrite !createRandomGenerator_finite.
    unfold seed_state. rewrite !Qfloor_Z.
    rewrite !Z.rem_mod_nonneg by lia.
    replace (z + 2147483647) with (z + 1 * 2147483647) by lia.
    now rewrite Z.mod_add by lia.
  - intros Hz. rewrite !createRandomGenerator_finite.
    unfold seed_state. rewrite !Qfloor_Z. do 2 f_equal.
    assert (R1 : Z.rem z 2147483647 = z) by (apply Z.rem_small_iff; lia).
    assert (R2 : Z.rem (z + 2147483646) 2147483647 = z + 2147483646)
      by (apply Z.rem_small; lia).
    rewrite R1, R2.
    destruct (Z.leb_spec z 0); [|lia].
    destruct (Z.leb_spec (z + 2147483646) 0); lia.
Qed.

Lemma seeds_collide_witness :
  createRandomGenerator (Some (of_Z 0))
  = createRandomGenerator (Some (of_Z 2147483646))
  /\ createRandomGenerator (Some (Fin (85 # 2)))
     = createRandomGenerator (Some (of_Z 42)).
Proof.
  split.
  - apply (proj2 (proj2 (seeds_collide 0))). lia.
  - apply (proj1 (seeds_collide 42) (85 # 2)). reflexivity.
Defined.

(** *** The projection engine: overtime rounds *)

Module ProjectionRounds.
Import Projection ProjectionFacts ProjectionLoops ProjectionResults.
Import ProjectionClaims ProjectionTotal.

Section WithPlatform.

Variable Math_random : nat -> number.
Variables Math_log Math_cos Math_sqrt : number -> number.
Variable Math_PI : number.

(** Overtime rounds are only played from a regulation tie with ties not
    allowed. *)
Lemma rounds_need_regulation_tie fuel home away config l r h h' :
  simulateGame_body Math_random Math_log Math_cos Math_sqrt Math_PI
    fuel home away config h = (Returned (l, r), h') ->
  overtimePoints (homeDetail r) <> [] ->
  resolved_allowTies config = false
  /\ (finalPoints (homeDetail r) === finalPoints (awayDetail r))%js = true.
Proof.
  intros H Hn. apply projection_body_returned in H.
  destruct H as (hd & ad & h1 & h2 & _ & _ & -> & Hl).
  cbn [homeDetail awayDetail with_overtimePoints overtimePoints finalPoints]
    in *.
  cbv zeta in Hl.
  destruct (resolved_allowTies config).
  - cbn [negb andb] in Hl. destruct Hl as [-> _]. now contradiction Hn.
  - cbn [negb andb] in Hl.
    destruct (finalPoints hd === finalPoints ad)%js; [auto|].
    destruct Hl as [-> _]. now contradiction Hn.
Qed.

End WithPlatform.
End ProjectionRounds.

(** X9.  With ties allowed the projection engine plays no overtime round
    and applies no tiebreak: the result has no [overtime] field and no
    overtime points, and its scores are the regulation points of the
    details, equal or not. *)
Theorem ties_allowed_no_overtime
    (Math_random : nat -> number)
    (Math_log Math_cos Math_sqrt : number -> number) (Math_PI : number)
    (fuel : nat) (home away : Projection.TeamStats)
    (config : Projection.GameConfig) (pos : nat)
    (r : Projection.SimulationResult) (h' : Heap) :
  Projection.allowTies config = Some true ->
  Projection.run_simulateGame Math_random Math_log Math_cos Math_sqrt
    Math_PI fuel home away config pos = (Returned r, h') ->
  Projection.overtime r = None
  /\ Projection.overtimePoints (Projection.homeDetail r) = []
  /\ Projection.overtimePoints (Projection.awayDetail r) = []
  /\ Projection.homeScore r = Projection.finalPoints (Projection.homeDetail r)
  /\ Projection.awayScore r
     = Projection.finalPoints (Projection.awayDetail r).
Proof.
  intros Hc H.
  assert (At : Projection.resolved_allowTies config = true).
  { unfold Projection.resolved_allowTies. now rewrite Hc. }
  unfold Projection.run_simulateGame in H.
  apply ProjectionClaims.projection_simulateGame_returned in H.
  destruct H as [l H]. apply ProjectionClaims.final_locals in H.
  destruct H as (hd & ad & l1 & -> & I1 & _ & _ & _ & _ & Hl).
  destruct Hl as [(-> & _ & Hz)|(Hf & _)]; [|congruence].
  specialize (Hz At).
  destruct I1 as (S1 & S2 & R1 & R2 & _ & Tb & _ & _).
  assert (E1 : Projection.overtimePointsHome l1 = []).
  { destruct (Projection.overtimePointsHome l1); [reflexivity|].
    cbn [List.length] in R1. lia. }
  assert (E2 : Projection.overtimePointsAway l1 = []).
  { destruct (Projection.overtimePointsAway l1); [reflexivity|].
    cbn [List.length] in R2. lia. }
  cbn [Projection.overtime Projection.homeDetail Projection.awayDetail
       Projection.homeScore Projection.awayScore
       Projection.with_overtimePoints Projection.overtimePoints
       Projection.finalPoints].
  rewrite E1 in S1 |- *. rewrite E2 in S2 |- *.
  unfold Projection.overtime_field. rewrite Hz, Tb.
  cbn [fold_left] in S1, S2. auto.
Qed.

Lemma ties_allowed_no_overtime_witness :
  exists r h',
    Projection.run_simulateGame example_random example_log example_cos
      example_sqrt example_PI 3 projection_home projection_away
      projection_ties_config 0 = (Returned r, h')
    /\ Projection.overtime r = None
    /\ Projection.homeScore r
       = Projection.finalPoints (Projection.homeDetail r).
Proof.
  destruct (ProjectionTotal.simulateGame_returns example_random example_log
              example_cos example_sqrt example_PI 2 3 projection_home
              projection_away projection_ties_config 0
              eq_refl eq_refl eq_refl eq_refl) as [r [h' E]].
  - apply ProjectionTotal.initial_heap_nonzero_within;
      [apply Nat.le_refl|left; reflexivity].
  - apply Nat.le_succ_diag_r.
  - apply Nat.le_refl.
  - exists r, h'. split; [exact E|].
    destruct (ties_allowed_no_overtime example_random example_log
                example_cos example_sqrt example_PI 3 projection_home
                projection_away projection_ties_config 0 r h' eq_refl E)
      as (H1 & _ & _ & H4 & _).
    split; [exact H1|exact H4].
Defined.

(** X10.  In every result of the projection engine both teams have the
    same number of overtime points, one per round played, and at most the
    cap: [maxOtRounds] rounded down, 0 when it is negative, 3 when it is
    absent or not finite.  Rounds are only played with ties not allowed,
    from a tie in regulation; and when fewer rounds than the cap were
    played, the scores accumulated over regulation and the rounds
    differ. *)
Theorem overtime_rounds_within_cap
    (Math_random : nat -> number)
    (Math_log Math_cos Math_sqrt : number -> number) (Math_PI : number)
    (fuel : nat) (home away : Projection.TeamStats)
    (config : Projection.GameConfig) (pos : nat)
    (r : Projection.SimulationResult) (h' : Heap) :
  Projection.run_simulateGame Math_random Math_log Math_cos Math_sqrt
    Math_PI fuel home away config pos = (Returned r, h') ->
  let played :=
    Z.of_nat (List.length
                (Projection.overtimePoints (Projection.homeDetail r))) in
  Z.of_nat (List.length
              (Projection.overtimePoints (Projection.awayDetail r)))
  = played
  /\ Projection.resolved_maxOtRounds config = of_Z (ot_cap config)
  /\ played <= ot_cap config
  /\ (0 < played ->
      Projection.resolved_allowTies config = false
      /\ (Projection.finalPoints (Projection.homeDetail r)
          === Projection.finalPoints (Projection.awayDetail r))%js = true)
  /\ (0 < played < ot_cap config ->
      (running_score (Projection.homeDetail r)
       === running_score (Projection.awayDetail r))%js = false).
Proof.
  intros H. unfold Projection.run_simulateGame in H.
  apply ProjectionClaims.projection_simulateGame_returned in H.
  destruct H as [l H].
  pose proof (ProjectionRounds.rounds_need_regulation_tie _ _ _ _ _
                _ _ _ _ _ _ _ _ H) as Hreg.
  apply ProjectionClaims.final_locals in H.
  destruct H as (hd & ad & l1 & Er & I1 & E3 & E4 & E5 & _ & Hl).
  destruct I1 as (S1 & S2 & R1 & R2 & Hcap & Tb & _ & _).
  assert (Ep : Projection.overtimePoints (Projection.homeDetail r)
               = Projection.overtimePointsHome l1)
    by (rewrite Er; exact E3).
  assert (Eq : Projection.overtimePoints (Projection.awayDetail r)
               = Projection.overtimePointsAway l1)
    by (rewrite Er; exact E4).
  assert (Eh : running_score (Projection.homeDetail r)
               = Projection.l_homeScore l1).
  { rewrite Er. cbn [Projection.homeDetail].
    rewrite ProjectionClaims.running_score_with_ot, E3. now rewrite S1. }
  assert (Ea : running_score (Projection.awayDetail r)
               = Projection.l_awayScore l1).
  { rewrite Er. cbn [Projection.awayDetail].
    rewrite ProjectionClaims.running_score_with_ot, E4. now rewrite S2. }
  cbv zeta. rewrite Eh, Ea. rewrite Eq. rewrite Ep in Hreg |- *.
  split; [lia|].
  split; [exact (proj1 (resolved_maxOtRounds_cap config))|].
  split; [lia|]. split.
  - intros Hp. apply Hreg. intros Hn. rewrite Hn in Hp.
    cbn [List.length] in Hp. lia.
  - intros Hp. destruct Hl as [(_ & Hn & Hz)|(_ & _ & Hc & _)]; [|lia].
    destruct (Projection.resolved_allowTies config).
    + specialize (Hz eq_refl). lia.
    + exact Hn.
Qed.

Lemma overtime_rounds_within_cap_witness :
  exists r h',
    projection_huge_overtime_run = (Returned r, h')
    /\ Z.of_nat (List.length
                   (Projection.overtimePoints (Projection.homeDetail r)))
       <= ot_cap projection_huge_overtime_config.
Proof.
  eexists; eexists. split; [exact huge_overtime_run|].
  exact (proj1 (proj2 (proj2
    (overtime_rounds_within_cap _ _ _ _ _ _ _ _ _ _ _ _
       huge_overtime_run)))).
Defined.

(** *** The drive engine: error messages *)

Lemma bind_thrown_run {A B} (m : M A) (k : A -> M B) h msg h' :
  m h = (Thrown msg, h') -> bind m k h = (Thrown msg, h').
Proof. unfold bind. now intros ->. Qed.

Module DriveMessages.
Import Drive DriveFacts DriveInv DriveLoops DriveTotal.

Section WithPlatform.

Variable Math_random : nat -> number.

Lemma simulateDrive_invalid_run offense defense h :
  (offense >? of_Z 0)%js && (defense >? of_Z 0)%js = false ->
  simulateDrive Math_random offense defense h
  = (Thrown (drive_message offense defense), h).
Proof.
  intros H. unfold simulateDrive, drive_message, validatePointsPerDrive.
  destruct (offense >? of_Z 0)%js; cbn [negb andb] in *; [|reflexivity].
  rewrite H. reflexivity.
Qed.

Lemma simulateDrive_message offense defense h msg h' :
  simulateDrive Math_random offense defense h = (Thrown msg, h') ->
  msg = drive_message offense defense.
Proof.
  intros H. pose proof (simulateDrive_thrown _ _ _ _ _ _ H) as [_ Hv].
  rewrite (simulateDrive_invalid_run _ _ _ Hv) in H. congruence.
Qed.

(** A failing round: on its first drive, or on its second one after the
    first returned. *)
Lemma round_step_message home away (s : Z * SimulationResult) h msg h' :
  (st <- playRound Math_random home away (snd s) ;; ret (fst s + 1, st)) h
  = (Thrown msg, h') ->
  msg = if first_drive_valid home away
        then drive_message (offPtsDrive away) (defPtsDrive home)
        else drive_message (offPtsDrive home) (defPtsDrive away).
Proof.
  intros H. apply bind_Thrown in H.
  destruct H as [H|[st [h1 [_ H]]]]; [|discriminate H].
  unfold playRound in H. apply bind_Thrown in H.
  destruct H as [H|[o1 [h1 [H1 H]]]].
  - pose proof (simulateDrive_thrown _ _ _ _ _ _ H) as [_ Hv].
    unfold first_drive_valid. rewrite Hv.
    now apply simulateDrive_message in H.
  - pose proof (simulateDrive_returned _ _ _ _ _ _ H1) as [Hv _].
    unfold first_drive_valid. rewrite Hv.
    apply bind_Thrown in H. destruct H as [H|[o2 [h2 [_ H]]]];
      [|discriminate H].
    now apply simulateDrive_message in H.
Qed.

Lemma round_step_throws home away (s : Z * SimulationResult) h :
  drive_valid home && drive_valid away = false ->
  exists msg h',
    (st <- playRound Math_random home away (snd s) ;; ret (fst s + 1, st)) h
    = (Thrown msg, h').
Proof.
  intros Hv. unfold playRound.
  destruct (first_drive_valid home away) eqn:V1.
  - assert (V2 : second_drive_valid home away = false).
    { destruct (second_drive_valid home away) eqn:V2; [|reflexivity].
      pose proof (proj2 (DriveFailures.drive_valid_split home away)
                    (conj V1 V2)) as [A B].
      rewrite A, B in Hv. discriminate Hv. }
    unfold first_drive_valid in V1. apply andb_true_iff in V1.
    destruct V1 as [A B].
    destruct (simulateDrive_returns Math_random _ _ h A B) as [o [h1 Ho]].
    exists (drive_message (offPtsDrive away) (defPtsDrive home)), h1.
    unfold bind at 1. unfold bind at 1. rewrite Ho.
    unfold bind at 1. now rewrite simulateDrive_invalid_run.
  - exists (drive_message (offPtsDrive home) (defPtsDrive away)), h.
    unfold bind at 1. unfold bind at 1.
    now rewrite simulateDrive_invalid_run.
Qed.

End WithPlatform.
End DriveMessages.

(** X11.  The message of a failing call of the drive engine is that of
    the first check that fails, in the order [drivesPerTeam], home
    offense, away defense, away offense, home defense; the messages of
    the statistics name the field and not the team.  With fuel for one
    round, a call whose [drivesPerTeam] or statistics are invalid
    fails. *)
Theorem drive_failure_message_order
    (Math_random : nat -> number) (fuel : nat) (home away : Drive.TeamStats)
    (config : Drive.GameConfig) (pos : nat) :
  (forall msg h',
      Drive.run_simulateGame Math_random fuel home away config pos
      = (Thrown msg, h') ->
      msg = drive_failure_message home away config)
  /\ ((1 <= fuel)%nat ->
      (Drive.resolved_drivesPerTeam config >? of_Z 0)%js
      && drive_valid home && drive_valid away = false ->
      exists h',
        Drive.run_simulateGame Math_random fuel home away config pos
        = (Thrown (drive_failure_message home away config), h')).
Proof.
  assert (Hmsg : forall msg h',
    Drive.run_simulateGame Math_random fuel home away config pos
    = (Thrown msg, h') ->
    msg = drive_failure_message home away config).
  { intros msg h' H. unfold Drive.run_simulateGame, Drive.simulateGame in H.
    unfold drive_failure_message.
    apply bind_Thrown in H. destruct H as [H|[a [h1 [_ H]]]];
      [|discriminate H].
    unfold Drive.simulateGame_body in H. cbv zeta in H.
    destruct (Drive.resolved_drivesPerTeam config >? of_Z 0)%js;
      cbn [negb] in H |- *.
    2:{ unfold throw in H. congruence. }
    apply bind_Thrown in H. destruct H as [H|[reg [h1 [_ H]]]].
    - revert H. unfold Drive.regulation.
      apply (while_thrown (fun _ _ => True)
               (fun m _ =>
                  m = if first_drive_valid home away
                      then drive_message (Drive.offPtsDrive away)
                             (Drive.defPtsDrive home)
                      else drive_message (Drive.offPtsDrive home)
                             (Drive.defPtsDrive away))); auto.
      intros s h1 m h2 _ _ Hb.
      exact (DriveMessages.round_step_message _ _ _ _ _ _ _ Hb).
    - revert H. unfold Drive.overtimeLoop.
      apply (while_thrown (fun _ _ => True)
               (fun m _ =>
                  m = if first_drive_valid home away
                      then drive_message (Drive.offPtsDrive away)
                             (Drive.defPtsDrive home)
                      else drive_message (Drive.offPtsDrive home)
                             (Drive.defPtsDrive away))); auto.
      intros s h2 m h3 _ _ Hb.
      exact (DriveMessages.round_step_message _ _ _ _ _ _ _ Hb). }
  split; [exact Hmsg|].
  intros Hf Hv.
  assert (Ht : exists msg h',
    Drive.run_simulateGame Math_random fuel home away config pos
    = (Thrown msg, h')).
  { unfold Drive.run_simulateGame, Drive.simulateGame,
      Drive.simulateGame_body. cbv zeta.
    destruct (Drive.resolved_drivesPerTeam config >? of_Z 0)%js eqn:Hd;
      cbn [negb andb] in Hv |- *.
    2:{ eexists; eexists. reflexivity. }
    destruct fuel as [|fuel']; [lia|].
    destruct (DriveMessages.round_step_throws Math_random home away
                (0, Drive.empty_result)
                (initial_heap (Drive.seed config) pos) Hv)
      as [msg [h' Hb]].
    exists msg, h'. apply bind_thrown_run, bind_thrown_run.
    unfold Drive.regulation. rewrite while_S.
    cbn [fst]. unfold js_gt in Hd. rewrite Hd.
    now apply bind_thrown_run. }
  destruct Ht as [msg [h' Ht]]. exists h'.
  now rewrite <- (Hmsg _ _ Ht).
Qed.

Lemma drive_failure_message_order_witness :
  exists h',
    Drive.run_simulateGame (fun _ => NaN) 12 drive_home drive_invalid_away
      drive_config 0
    = (Thrown "offensePtsDrive must be greater than 0", h').
Proof.
  apply (proj2 (drive_failure_message_order (fun _ => NaN) 12 drive_home
                  drive_invalid_away drive_config 0)).
  - apply Nat.lt_0_succ.
  - reflexivity.
Defined.
